(** * Traktrain Downloader: the content script's extraction pipeline

    A shallow embedding of the content script (message listener,
    [handleDataExtraction], [extractSingleBeat], [extractProfileBeats],
    [extractArtistFromUrl], [extractAwsBaseUrl], [extractTrackInfo] and
    [sanitizeFilename]) together with the pieces of the JavaScript platform
    the script relies on: strings as sequences of UTF-16 code units, regular
    expressions with backtracking, [JSON.parse], and a snapshot of the DOM. *)

From Stdlib Require Import String Ascii.
From Stdlib Require Import List NArith ZArith Bool Arith Lia.
Import ListNotations.

Set Implicit Arguments.
#[local] Set Warnings "-register-all,-abstract-large-number".

(** ** JavaScript strings *)

(** A JavaScript string is a finite sequence of 16-bit code units. *)
Definition jsstring := list N.

(** [js] turns an ASCII literal into a JavaScript string.  Inside such a
    literal the backquote stands for the double quote (code unit 34), so that
    patterns and test documents can be written on one line. *)
Definition unit_of_ascii (a : ascii) : N :=
  let n := N_of_ascii a in if N.eqb n 96 then 34%N else n.

Fixpoint js (s : string) : jsstring :=
  match s with
  | EmptyString => []
  | String a s' => unit_of_ascii a :: js s'
  end.

Fixpoint str_eqb (a b : jsstring) : bool :=
  match a, b with
  | [], [] => true
  | x :: a', y :: b' => N.eqb x y && str_eqb a' b'
  | _, _ => false
  end.

Definition mem (c : N) (l : list N) : bool := existsb (N.eqb c) l.

Definition in_range (lo hi c : N) : bool := N.leb lo c && N.leb c hi.

(** [\s] of a regular expression, which is also what [trim] strips:
    WhiteSpace and LineTerminator of ECMAScript. *)
Definition is_ws (c : N) : bool :=
  mem c [9; 10; 11; 12; 13; 32; 160; 5760; 8232; 8233; 8239; 8287; 12288; 65279]%N
  || in_range 8192 8202 c.

(** LineTerminator: what [.] refuses without the [s] flag. *)
Definition is_line_terminator (c : N) : bool := mem c [10; 13; 8232; 8233]%N.

Definition is_digit (c : N) : bool := in_range 48 57 c.

Fixpoint drop_while (p : N -> bool) (s : jsstring) : jsstring :=
  match s with
  | [] => []
  | x :: s' => if p x then drop_while p s' else s
  end.

(** [String.prototype.trim] *)
Definition trim (s : jsstring) : jsstring :=
  rev (drop_while is_ws (rev (drop_while is_ws s))).

Fixpoint starts_with (p s : jsstring) : bool :=
  match p, s with
  | [], _ => true
  | x :: p', y :: s' => N.eqb x y && starts_with p' s'
  | _ :: _, [] => false
  end.

(** [indexOf]-style search: the text before and after the first occurrence
    of [p] in [s]. *)
Fixpoint split_first (p s : jsstring) : option (jsstring * jsstring) :=
  if starts_with p s then Some ([], skipn (length p) s)
  else match s with
       | [] => None
       | x :: s' =>
           match split_first p s' with
           | Some (before, after) => Some (x :: before, after)
           | None => None
           end
       end.

(** [s.includes(p)] *)
Definition includes (s p : jsstring) : bool :=
  match split_first p s with Some _ => true | None => false end.

(** [s.replace(p, '')] for a string pattern [p]: the first occurrence of
    [p] is removed. *)
Definition remove_first (p s : jsstring) : jsstring :=
  match split_first p s with
  | Some (before, after) => before ++ after
  | None => s
  end.

(** [s.split(p)] for a non-empty separator [p]; [skip] counts the code units
    of a separator still to be dropped. *)
Fixpoint split_from (p : jsstring) (skip : nat) (cur : jsstring) (s : jsstring)
  : list jsstring :=
  match s with
  | [] => [rev cur]
  | x :: s' =>
      match skip with
      | S n => split_from p n cur s'
      | O =>
          if starts_with p s
          then rev cur :: split_from p (pred (length p)) [] s'
          else split_from p 0 (x :: cur) s'
      end
  end.

Definition split_on (p s : jsstring) : list jsstring := split_from p 0 [] s.

(** Decimal digits of a natural number, as [String(n)] prints an index or a
    length. *)
Fixpoint digits_fuel (fuel : nat) (n : N) (acc : jsstring) : jsstring :=
  match fuel with
  | O => acc
  | S f =>
      let acc' := (48 + N.modulo n 10)%N :: acc in
      if N.ltb n 10 then acc' else digits_fuel f (N.div n 10) acc'
  end.

Definition nat_to_string (n : nat) : jsstring :=
  digits_fuel (S n) (N.of_nat n) [].

(** ** Regular expressions

    The patterns of the script use literals, classes, sequencing, optional
    and repeated parts (greedy and lazy) and numbered capture groups.  The
    matcher is the backtracking matcher of ECMAScript written with
    continuations: a continuation receives the rest of the input and the
    captures so far, and a failure of the continuation makes the matcher try
    its next alternative. *)

Inductive regex : Type :=
| Eps
| Chr (p : N -> bool)
| Seq (r1 r2 : regex)
| Alt (r1 r2 : regex)
| Star (greedy : bool) (r : regex)
| Group (i : nat) (r : regex).

Definition captures := list (nat * jsstring).

Definition cont := jsstring -> captures -> option (jsstring * captures).

Definition or_else {A} (a b : option A) : option A :=
  match a with Some x => Some x | None => b end.

(** The loop of a starred pattern whose body is matched by [body].  An
    iteration that consumes nothing is refused, as in ECMAScript; hence at
    most [length s] iterations can follow one another, and a counter that
    starts at [length s] does not run out before the input does. *)
Fixpoint star_loop (body : jsstring -> captures -> cont -> option (jsstring * captures))
  (greedy : bool) (k : cont) (fuel : nat) (s : jsstring) (c : captures)
  : option (jsstring * captures) :=
  let again :=
    match fuel with
    | O => None
    | S f =>
        body s c (fun s' c' =>
          if Nat.ltb (length s') (length s)
          then star_loop body greedy k f s' c'
          else None)
    end in
  if greedy then or_else again (k s c) else or_else (k s c) again.

Fixpoint m (r : regex) (s : jsstring) (c : captures) (k : cont)
  : option (jsstring * captures) :=
  match r with
  | Eps => k s c
  | Chr p =>
      match s with
      | x :: s' => if p x then k s' c else None
      | [] => None
      end
  | Seq r1 r2 => m r1 s c (fun s1 c1 => m r2 s1 c1 k)
  | Alt r1 r2 => or_else (m r1 s c k) (m r2 s c k)
  | Star greedy r1 => star_loop (m r1) greedy k (length s) s c
  | Group i r1 =>
      m r1 s c (fun s' c' =>
        k s' ((i, firstn (length s - length s') s) :: c'))
  end.

Definition match_at (r : regex) (s : jsstring) : option (jsstring * captures) :=
  m r s [] (fun s' c => Some (s', c)).

(** The value of [match[i]]: [None] is [undefined]. *)
Fixpoint capture (i : nat) (c : captures) : option jsstring :=
  match c with
  | [] => None
  | (j, v) :: c' => if Nat.eqb i j then Some v else capture i c'
  end.

Record match_result := {
  index : nat;
  matched : jsstring;
  groups : captures
}.

(** [s.match(r)] without the [g] flag: the leftmost match. *)
Fixpoint search_from (r : regex) (i : nat) (s : jsstring) : option match_result :=
  match match_at r s with
  | Some (rest, c) =>
      Some {| index := i;
              matched := firstn (length s - length rest) s;
              groups := c |}
  | None =>
      match s with
      | [] => None
      | _ :: s' => search_from r (S i) s'
      end
  end.

Definition search (r : regex) (s : jsstring) : option match_result :=
  search_from r 0 s.

(** [s.match(r)] with the [g] flag: all matches from left to right, not
    overlapping; [skip] counts the code units of the last match still to
    be passed. *)
Fixpoint match_all_from (r : regex) (skip : nat) (s : jsstring) : list jsstring :=
  match s with
  | [] =>
      match skip, match_at r [] with
      | O, Some _ => [[]]
      | _, _ => []
      end
  | x :: s' =>
      match skip with
      | S n => match_all_from r n s'
      | O =>
          match match_at r s with
          | Some (rest, _) =>
              let n := length s - length rest in
              firstn n s :: match_all_from r (pred n) s'
          | None => match_all_from r 0 s'
          end
      end
  end.

(** [None] is the [null] that [match] returns when nothing matches. *)
Definition match_all (r : regex) (s : jsstring) : option (list jsstring) :=
  match match_all_from r 0 s with
  | [] => None
  | l => Some l
  end.

(** [s.replace(r, repl)] with the [g] flag, for a replacement text without
    [$]. *)
Fixpoint replace_all_from (r : regex) (repl : jsstring) (skip : nat)
  (s : jsstring) : jsstring :=
  match s with
  | [] =>
      match skip, match_at r [] with
      | O, Some _ => repl
      | _, _ => []
      end
  | x :: s' =>
      match skip with
      | S n => replace_all_from r repl n s'
      | O =>
          match match_at r s with
          | Some (rest, _) =>
              match length s - length rest with
              | O => repl ++ x :: replace_all_from r repl 0 s'
              | S n => repl ++ replace_all_from r repl n s'
              end
          | None => x :: replace_all_from r repl 0 s'
          end
      end
  end.

Definition replace_all (r : regex) (repl s : jsstring) : jsstring :=
  replace_all_from r repl 0 s.

(** Pattern combinators. *)
Definition lit (s : jsstring) : regex :=
  fold_right (fun c r => Seq (Chr (N.eqb c)) r) Eps s.

Definition plus (greedy : bool) (r : regex) : regex := Seq r (Star greedy r).
Definition opt (r : regex) : regex := Alt r Eps.
Definition one_of (l : list N) : regex := Chr (fun c => mem c l).
Definition none_of (l : list N) : regex := Chr (fun c => negb (mem c l)).
Definition ws : regex := Chr is_ws.
Definition dot : regex := Chr (fun c => negb (is_line_terminator c)).
Definition any : regex := Chr (fun _ => true).

Fixpoint seqs (l : list regex) : regex :=
  match l with
  | [] => Eps
  | [r] => r
  | r :: l' => Seq r (seqs l')
  end.

(** ** The filename sanitizer *)

(** The nine characters of the class that the first [replace] removes. *)
Definition invalid_chars : list N := js "<>:`/\|?*".

Definition sanitizeFilename (filename : jsstring) : jsstring :=
  trim
    (replace_all (plus true ws) (js " ")
       (replace_all (one_of invalid_chars) [] filename)).

(** ** JavaScript values and [JSON.parse] *)

(** The values the script handles: what [JSON.parse] returns, and
    [undefined] for a property that is not there.  A number keeps the text
    it was written with; an object keeps its members in source order. *)
Inductive value : Type :=
| VUndefined
| VNull
| VBool (b : bool)
| VNum (lexeme : jsstring)
| VStr (s : jsstring)
| VArr (items : list value)
| VObj (fields : list (jsstring * value)).

Inductive token : Type :=
| TLBrace | TRBrace | TLBracket | TRBracket | TComma | TColon
| TString (s : jsstring)
| TNumber (lexeme : jsstring)
| TTrue | TFalse | TNull.

(** Where the scanner stands inside a number: after the sign, after a
    leading zero, inside the integer part, after the point, inside the
    fraction, after the exponent mark, after the exponent sign, inside the
    exponent. *)
Inductive num_phase : Type :=
| NMinus | NZero | NInt | NDot | NFrac | NE | NESign | NExp.

Inductive lex_state : Type :=
| LStart
| LString (acc : jsstring)
| LEscape (acc : jsstring)
| LUnicode (acc : jsstring) (hex : list N)
| LNumber (ph : num_phase) (acc : jsstring)
| LWord (rest : jsstring) (t : token).

Definition hex_value (c : N) : option N :=
  if in_range 48 57 c then Some (c - 48)%N
  else if in_range 65 70 c then Some (c - 55)%N
  else if in_range 97 102 c then Some (c - 87)%N
  else None.

Definition lex_start (c : N) : option (lex_state * list token) :=
  if mem c [32; 9; 10; 13]%N then Some (LStart, [])
  else if N.eqb c 123 then Some (LStart, [TLBrace])
  else if N.eqb c 125 then Some (LStart, [TRBrace])
  else if N.eqb c 91 then Some (LStart, [TLBracket])
  else if N.eqb c 93 then Some (LStart, [TRBracket])
  else if N.eqb c 44 then Some (LStart, [TComma])
  else if N.eqb c 58 then Some (LStart, [TColon])
  else if N.eqb c 34 then Some (LString [], [])
  else if N.eqb c 45 then Some (LNumber NMinus [c], [])
  else if N.eqb c 48 then Some (LNumber NZero [c], [])
  else if in_range 49 57 c then Some (LNumber NInt [c], [])
  else if N.eqb c 116 then Some (LWord (js "rue") TTrue, [])
  else if N.eqb c 102 then Some (LWord (js "alse") TFalse, [])
  else if N.eqb c 110 then Some (LWord (js "ull") TNull, [])
  else None.

Definition is_exp_mark (c : N) : bool := mem c [101; 69]%N.

(** A number ends at the first character that cannot continue it; that
    character is then scanned afresh. *)
Definition lex_number (ph : num_phase) (acc : jsstring) (c : N)
  : option (lex_state * list token) :=
  let continue ph' := Some (LNumber ph' (c :: acc), []) in
  let finish :=
    match lex_start c with
    | Some (st, ts) => Some (st, TNumber (rev acc) :: ts)
    | None => None
    end in
  match ph with
  | NMinus =>
      if N.eqb c 48 then continue NZero
      else if in_range 49 57 c then continue NInt else None
  | NZero =>
      if N.eqb c 46 then continue NDot
      else if is_exp_mark c then continue NE else finish
  | NInt =>
      if is_digit c then continue NInt
      else if N.eqb c 46 then continue NDot
      else if is_exp_mark c then continue NE else finish
  | NDot => if is_digit c then continue NFrac else None
  | NFrac =>
      if is_digit c then continue NFrac
      else if is_exp_mark c then continue NE else finish
  | NE =>
      if mem c [43; 45]%N then continue NESign
      else if is_digit c then continue NExp else None
  | NESign => if is_digit c then continue NExp else None
  | NExp => if is_digit c then continue NExp else finish
  end.

Definition lex_step (st : lex_state) (c : N) : option (lex_state * list token) :=
  match st with
  | LStart => lex_start c
  | LString acc =>
      if N.eqb c 34 then Some (LStart, [TString (rev acc)])
      else if N.eqb c 92 then Some (LEscape acc, [])
      else if N.ltb c 32 then None
      else Some (LString (c :: acc), [])
  | LEscape acc =>
      let put x := Some (LString (x :: acc), []) in
      if N.eqb c 34 then put 34%N
      else if N.eqb c 92 then put 92%N
      else if N.eqb c 47 then put 47%N
      else if N.eqb c 98 then put 8%N
      else if N.eqb c 102 then put 12%N
      else if N.eqb c 110 then put 10%N
      else if N.eqb c 114 then put 13%N
      else if N.eqb c 116 then put 9%N
      else if N.eqb c 117 then Some (LUnicode acc [], [])
      else None
  | LUnicode acc hex =>
      match hex_value c with
      | None => None
      | Some h =>
          match hex with
          | [a; b; d] =>
              Some (LString ((((a * 16 + b) * 16 + d) * 16 + h)%N :: acc), [])
          | _ => Some (LUnicode acc (hex ++ [h]), [])
          end
      end
  | LNumber ph acc => lex_number ph acc c
  | LWord rest t =>
      match rest with
      | [] => None
      | x :: rest' =>
          if N.eqb c x
          then match rest' with
               | [] => Some (LStart, [t])
               | _ => Some (LWord rest' t, [])
               end
          else None
      end
  end.

Definition lex_end (st : lex_state) : option (list token) :=
  match st with
  | LStart => Some []
  | LNumber ph acc =>
      match ph with
      | NZero | NInt | NFrac | NExp => Some [TNumber (rev acc)]
      | _ => None
      end
  | _ => None
  end.

Fixpoint lex (st : lex_state) (s : jsstring) : option (list token) :=
  match s with
  | [] => lex_end st
  | c :: s' =>
      match lex_step st c with
      | None => None
      | Some (st', ts) =>
          match lex st' s' with
          | None => None
          | Some ts' => Some (ts ++ ts')
          end
      end
  end.

(** The parser keeps the open arrays and objects on a stack; an open object
    remembers the key whose value is awaited. *)
Inductive frame : Type :=
| FArr (items : list value)
| FObj (fields : list (jsstring * value)) (key : option jsstring).

Inductive mode : Type :=
| MValue | MArrStart | MObjStart | MKey | MColon | MAfter
| MDone (v : value).

Definition deliver (v : value) (stack : list frame) : option (mode * list frame) :=
  match stack with
  | [] => Some (MDone v, [])
  | FArr items :: st => Some (MAfter, FArr (v :: items) :: st)
  | FObj fields (Some k) :: st => Some (MAfter, FObj ((k, v) :: fields) None :: st)
  | FObj _ None :: _ => None
  end.

Definition parse_value_token (t : token) (stack : list frame)
  : option (mode * list frame) :=
  match t with
  | TString s => deliver (VStr s) stack
  | TNumber n => deliver (VNum n) stack
  | TTrue => deliver (VBool true) stack
  | TFalse => deliver (VBool false) stack
  | TNull => deliver VNull stack
  | TLBracket => Some (MArrStart, FArr [] :: stack)
  | TLBrace => Some (MObjStart, FObj [] None :: stack)
  | _ => None
  end.

Definition parse_key (t : token) (stack : list frame) : option (mode * list frame) :=
  match t, stack with
  | TString k, FObj fields None :: st => Some (MColon, FObj fields (Some k) :: st)
  | _, _ => None
  end.

Definition parse_close (t : token) (stack : list frame) : option (mode * list frame) :=
  match t, stack with
  | TRBracket, FArr items :: st => deliver (VArr (rev items)) st
  | TRBrace, FObj fields None :: st => deliver (VObj (rev fields)) st
  | _, _ => None
  end.

Definition parse_step (md : mode) (stack : list frame) (t : token)
  : option (mode * list frame) :=
  match md with
  | MValue => parse_value_token t stack
  | MArrStart =>
      match t with
      | TRBracket => parse_close t stack
      | _ => parse_value_token t stack
      end
  | MObjStart =>
      match t with
      | TRBrace => parse_close t stack
      | _ => parse_key t stack
      end
  | MKey => parse_key t stack
  | MColon =>
      match t with
      | TColon => Some (MValue, stack)
      | _ => None
      end
  | MAfter =>
      match t, stack with
      | TComma, FArr _ :: _ => Some (MValue, stack)
      | TComma, FObj _ _ :: _ => Some (MKey, stack)
      | _, _ => parse_close t stack
      end
  | MDone _ => None
  end.

Fixpoint parse_tokens (md : mode) (stack : list frame) (ts : list token)
  : option value :=
  match ts with
  | [] => match md with MDone v => Some v | _ => None end
  | t :: ts' =>
      match parse_step md stack t with
      | None => None
      | Some (md', stack') => parse_tokens md' stack' ts'
      end
  end.

(** [JSON.parse(text)]; [None] stands for the [SyntaxError] it throws. *)
Definition JSON_parse (text : jsstring) : option value :=
  match lex LStart text with
  | None => None
  | Some ts => parse_tokens MValue [] ts
  end.

(** Property lookup, for the property names the script reads ([name],
    [src], [tracks], [beats], [user]): none of them is defined on a
    prototype, so only an object's own members answer; the last member of a
    repeated key wins.  Reading a property of [null] or [undefined] throws. *)
Fixpoint lookup_last (k : jsstring) (fields : list (jsstring * value))
  : option value :=
  match fields with
  | [] => None
  | (k', v) :: fields' =>
      match lookup_last k fields' with
      | Some v' => Some v'
      | None => if str_eqb k k' then Some v else None
      end
  end.

Fixpoint take_while (p : N -> bool) (s : jsstring) : jsstring :=
  match s with
  | [] => []
  | x :: s' => if p x then x :: take_while p s' else []
  end.

Fixpoint digits_value (acc : Z) (s : jsstring) : Z :=
  match s with
  | [] => acc
  | c :: s' => digits_value (acc * 10 + (Z.of_N c - 48)) s'
  end.

(** Whether the number written as [lexeme] is [0] as a double: its digits
    are all zero, or it is so small that it rounds to zero (at most half
    the least positive double, 2^-1074). *)
Definition number_is_zero (lexeme : jsstring) : bool :=
  let body := match lexeme with 45%N :: r => r | _ => lexeme end in
  let int_part := take_while is_digit body in
  let r1 := drop_while is_digit body in
  let frac := match r1 with 46%N :: r => take_while is_digit r | _ => [] end in
  let r2 := match r1 with 46%N :: r => drop_while is_digit r | _ => r1 end in
  let exponent :=
    match r2 with
    | _ :: 45%N :: r => (- digits_value 0 r)%Z
    | _ :: 43%N :: r => digits_value 0 r
    | _ :: r => digits_value 0 r
    | [] => 0%Z
    end in
  let mantissa := digits_value 0 (int_part ++ frac) in
  let e10 := (exponent - Z.of_nat (length frac))%Z in
  (mantissa =? 0)%Z
  || ((e10 <? 0)%Z && (mantissa * 2 ^ 1075 <=? 10 ^ (- e10))%Z).

(** ToBoolean *)
Definition truthy (v : value) : bool :=
  match v with
  | VUndefined | VNull => false
  | VBool b => b
  | VNum n => negb (number_is_zero n)
  | VStr s => match s with [] => false | _ => true end
  | VArr _ | VObj _ => true
  end.

Definition is_array (v : value) : bool :=
  match v with VArr _ => true | _ => false end.

(** [v === s] for a string [s] *)
Definition is_string (v : value) (s : jsstring) : bool :=
  match v with VStr x => str_eqb x s | _ => false end.

Definition is_empty (s : jsstring) : bool :=
  match s with [] => true | _ => false end.

(** A string that may be [null] or [undefined], under [!x] and [x || y]. *)
Definition falsy (o : option jsstring) : bool :=
  match o with Some (_ :: _) => false | _ => true end.

Definition js_or (a b : option jsstring) : option jsstring :=
  if falsy a then b else a.

(** ** Exceptions *)

(** What the engine itself throws in this script: a call of a property
    that is not a function, a property read on [null], a [for-of] over a value
    that cannot be iterated, the [SyntaxError] of [JSON.parse], and an
    object that cannot be converted to a string. *)
Inductive engine_error : Type :=
| NotAFunction | PropertyOfNull | NotIterable | JsonSyntax | CannotConvert.

Inductive exn : Type :=
| Error (message : jsstring)
| Engine (e : engine_error).

Inductive outcome (A : Type) : Type :=
| Return (a : A)
| Throw (e : exn).
Arguments Return {A} a.
Arguments Throw {A} e.

Definition get (v : value) (k : jsstring) : outcome value :=
  match v with
  | VUndefined | VNull => Throw (Engine PropertyOfNull)
  | VObj fields =>
      Return (match lookup_last k fields with Some x => x | None => VUndefined end)
  | _ => Return VUndefined
  end.

(** ** The host

    What the browser supplies and the script only calls: the URL parser
    ([new URL(u).pathname], [None] when the constructor throws), the
    printing of a number (given as the text [JSON.parse] read), and the
    wording of the engine's own error messages. *)
Record Host : Type := {
  URL_pathname : jsstring -> option jsstring;
  Number_toString : jsstring -> jsstring;
  engine_message : engine_error -> jsstring
}.

(** ** The page

    The script reads the page through [document] and [window]; the
    snapshot holds what each query of the script returns.  [scripts] are the
    elements of [querySelectorAll('script')] in document order;
    [meta_artist] is the [content] attribute of the first musician or artist
    [meta] element, if there is such an element; [h1] is the text of the
    first heading; [audio_sources] are the elements with [src] (audio),
    [data-src] or [data-track-src]; [player_info_elements] holds the
    [data-player-info] attribute of each element that carries one;
    [fetch_url] is the final address of a HEAD request that follows
    redirects, [None] when the request fails. *)
Record script_element : Type := {
  textContent : jsstring;
  innerHTML : jsstring
}.

Record source_element : Type := {
  src_property : option jsstring;
  data_src : option jsstring;
  data_track_src : option jsstring
}.

Record document : Type := {
  title : jsstring;
  outerHTML : jsstring;
  scripts : list script_element;
  meta_artist : option (option jsstring);
  h1 : option jsstring;
  audio_sources : list source_element;
  player_info_elements : list jsstring
}.

Record window : Type := {
  location_href : jsstring;
  doc : document;
  fetch_url : jsstring -> option jsstring
}.

(** ** Results *)

Record track_info : Type := { name : value; src : value }.

Record track : Type := {
  track_name : jsstring;
  url : jsstring;
  track_artist : jsstring
}.

Record data : Type := {
  tracks : list track;
  artist : jsstring;
  createArtistFolder : value
}.

Inductive envelope : Type :=
| Success (d : data)
| Failure (error : jsstring).

Record request : Type := {
  action : value;
  type : value;
  request_createArtistFolder : value
}.

(** ** Effects

    An asynchronous function of the script either returns or throws, and on
    its way announces each locator strategy it starts on the console
    ([Method n: ...]); the announcements are kept as a trace. *)
Inductive event : Type := Method (n : nat).

Definition M (A : Type) : Type := (list event * outcome A)%type.

Definition ret {A} (a : A) : M A := ([], Return a).
Definition throw {A} (e : exn) : M A := ([], Throw e).
Definition log (ev : event) : M unit := ([ev], Return tt).
Definition lift {A} (o : outcome A) : M A := ([], o).

Definition bind {A B} (c : M A) (f : A -> M B) : M B :=
  match c with
  | (t, Return a) => let (t', o) := f a in (t ++ t', o)
  | (t, Throw e) => (t, Throw e)
  end.

Definition try_catch {A} (c : M A) (handler : exn -> M A) : M A :=
  match c with
  | (t, Return a) => (t, Return a)
  | (t, Throw e) => let (t', o) := handler e in (t ++ t', o)
  end.

Notation "x <- c ;; k" := (bind c (fun x => k))
  (at level 61, c at next level, right associativity).
Notation "c ;; k" := (bind c (fun _ => k))
  (at level 61, right associativity).

(** ** The content script *)

Section Script.

Variable host : Host.

Definition message_of (e : exn) : jsstring :=
  match e with
  | Error message => message
  | Engine e' => engine_message host e'
  end.

Definition has_key (k : jsstring) (fields : list (jsstring * value)) : bool :=
  match lookup_last k fields with Some _ => true | None => false end.

Definition outcome_bind {A B} (o : outcome A) (f : A -> outcome B) : outcome B :=
  match o with
  | Return a => f a
  | Throw e => Throw e
  end.

(** ToString, as [awsBaseUrl + x] applies it to [x].  An array prints its
    items separated by commas, [null] items as nothing; an object prints as
    [[object Object]] unless it has a member named [toString], which is not
    a function and so leaves the engine without a conversion. *)
Fixpoint to_string (v : value) : outcome jsstring :=
  match v with
  | VUndefined => Return (js "undefined")
  | VNull => Return (js "null")
  | VBool true => Return (js "true")
  | VBool false => Return (js "false")
  | VNum n => Return (Number_toString host n)
  | VStr s => Return s
  | VArr items =>
      (fix join (l : list value) : outcome jsstring :=
         match l with
         | [] => Return []
         | x :: l' =>
             let item :=
               match x with
               | VUndefined | VNull => Return []
               | _ => to_string x
               end in
             match l' with
             | [] => item
             | _ =>
                 outcome_bind item (fun a =>
                 outcome_bind (join l') (fun b => Return (a ++ 44%N :: b)))
             end
         end) items
  | VObj fields =>
      if has_key (js "toString") fields then Throw (Engine CannotConvert)
      else Return (js "[object Object]")
  end.

(** [awsBaseUrl + x] *)
Definition concat_url (awsBaseUrl : jsstring) (x : value) : outcome jsstring :=
  outcome_bind (to_string x) (fun text => Return (awsBaseUrl ++ text)).

(** [sanitizeFilename(x)] for an [x] of any type: only a string has a
    [replace] method. *)
Definition sanitize (x : value) : outcome jsstring :=
  match x with
  | VStr s => Return (sanitizeFilename s)
  | VUndefined | VNull => Throw (Engine PropertyOfNull)
  | _ => Throw (Engine NotAFunction)
  end.

(** *** extractArtistFromUrl *)
Definition extractArtistFromUrl (url : jsstring) : option jsstring :=
  match URL_pathname host url with
  | None => None
  | Some pathname =>
      let pathParts :=
        filter (fun part => negb (is_empty part)) (split_on (js "/") pathname) in
      match pathParts with
      | part :: _ => Some part
      | [] => None
      end
  end.

(** *** extractAwsBaseUrl *)
Definition quote : regex := one_of (js "'`").
Definition unquoted : regex := plus true (none_of (js "'`")).

Definition aws_pattern : regex :=
  seqs [lit (js "var AWS_BASE_URL"); Star true ws; lit (js "="); Star true ws;
        quote; Group 1 unquoted; quote].

Definition extractAwsBaseUrl (html : jsstring) : option jsstring :=
  match search aws_pattern html with
  | Some mt => capture 1 (groups mt)
  | None => None
  end.

(** *** extractTrackInfo *)
Definition player_info_pattern : regex :=
  seqs [lit (js "data-player-info="); quote; Group 1 unquoted; quote].

Definition parse_capture (i : nat) (mt : match_result) : option value :=
  match capture i (groups mt) with
  | Some text => JSON_parse text
  | None => None
  end.

Definition extractTrackInfo (html : jsstring) : option track_info :=
  match search player_info_pattern html with
  | None => None
  | Some mt =>
      match parse_capture 1 mt with
      | None => None
      | Some data =>
          match get data (js "name"), get data (js "src") with
          | Return n, Return s =>
              Some {| name := if truthy n then n else VStr (js "Unknown Track");
                      src := s |}
          | _, _ => None
          end
      end
  end.

(** *** followRedirect *)
Definition followRedirect (w : window) (shortUrl : jsstring) : M jsstring :=
  match fetch_url w shortUrl with
  | Some final => ret final
  | None => throw (Error (js "Could not resolve short URL"))
  end.

(** *** extractSingleBeat *)

(** The title pattern: a lazy run of characters, blanks, one dash (hyphen,
    en dash or em dash), blanks, a greedy run of characters; the two runs
    are groups 1 and 2. *)
Definition title_pattern : regex :=
  seqs [Group 1 (plus false dot); Star true ws; one_of [45; 8211; 8212]%N;
        Star true ws; Group 2 (plus true dot)].

Definition group_text (i : nat) (mt : match_result) : jsstring :=
  match capture i (groups mt) with Some t => t | None => [] end.

(** The artist of a single track: the first segment of the path, unless it
    is missing or is the [t] of a track address; then the title, the meta
    element and a fixed name are tried. *)
Definition single_artist (d : document) (realUrl : jsstring) : jsstring :=
  let artist := extractArtistFromUrl realUrl in
  let artist :=
    if falsy artist || str_eqb (match artist with Some a => a | None => [] end) (js "t")
    then
      let artist :=
        match search title_pattern (title d) with
        | Some titleMatch => Some (trim (group_text 2 titleMatch))
        | None => artist
        end in
      let artist :=
        if falsy artist
        then match meta_artist d with
             | Some content => content
             | None => artist
             end
        else artist in
      if falsy artist then Some (js "Unknown Artist") else artist
    else artist in
  match artist with Some a => a | None => [] end.

(** The text of a quoted member [`key` : `(text)`], capturing the text as
    group [i]. *)
Definition quoted_member (key : jsstring) (i : nat) : regex :=
  seqs [lit (34%N :: key ++ [34%N]); Star true ws; lit (js ":"); Star true ws;
        lit (js "`"); Group i (plus true (none_of (js "`"))); lit (js "`")].

Definition member_pair (k1 k2 : jsstring) : regex :=
  seqs [quoted_member k1 1; Star false any; quoted_member k2 2].

Definition trackPatterns : list regex :=
  [ member_pair (js "name") (js "src");
    member_pair (js "title") (js "url");
    member_pair (js "trackName") (js "trackSrc");
    seqs [lit (js "window.track"); Star true ws; lit (js "="); Star true ws;
          lit (js "{"); Star false any; member_pair (js "name") (js "src")] ].

Definition capture_value (i : nat) (mt : match_result) : value :=
  match capture i (groups mt) with Some t => VStr t | None => VUndefined end.

Fixpoint first_track_pattern (patterns : list regex) (content : jsstring)
  : option track_info :=
  match patterns with
  | [] => None
  | pattern :: patterns' =>
      match search pattern content with
      | Some mt => Some {| name := capture_value 1 mt; src := capture_value 2 mt |}
      | None => first_track_pattern patterns' content
      end
  end.

(** Method 2: the first script, in document order, in which one of the
    patterns matches. *)
Fixpoint single_method2 (scripts : list script_element) : option track_info :=
  match scripts with
  | [] => None
  | script :: scripts' =>
      let content :=
        if is_empty (textContent script) then innerHTML script
        else textContent script in
      if is_empty content then single_method2 scripts'
      else match first_track_pattern trackPatterns content with
           | Some trackInfo => Some trackInfo
           | None => single_method2 scripts'
           end
  end.

Definition element_src (element : source_element) : option jsstring :=
  js_or (js_or (src_property element) (data_src element)) (data_track_src element).

Fixpoint first_audio_source (awsBaseUrl : jsstring) (elements : list source_element)
  : option jsstring :=
  match elements with
  | [] => None
  | element :: elements' =>
      match element_src element with
      | Some (c :: r) =>
          let src := c :: r in
          if includes src (js ".mp3")
          then let srcPath := remove_first awsBaseUrl src in
               if str_eqb srcPath src
               then first_audio_source awsBaseUrl elements'
               else Some srcPath
          else first_audio_source awsBaseUrl elements'
      | _ => first_audio_source awsBaseUrl elements'
      end
  end.

(** Method 3: a name from the title or the first heading, a source from the
    audio elements. *)
Definition single_method3 (d : document) (awsBaseUrl : jsstring) : option track_info :=
  let trackName :=
    match search title_pattern (title d) with
    | Some titleMatch => Some (trim (group_text 1 titleMatch))
    | None =>
        match h1 d with
        | Some text => Some (trim text)
        | None => None
        end
    end in
  match first_audio_source awsBaseUrl (audio_sources d) with
  | Some srcPath =>
      Some {| name := VStr (match js_or trackName (Some (js "Unknown Track")) with
                            | Some n => n
                            | None => []
                            end);
              src := VStr srcPath |}
  | None => None
  end.

Definition track_id_pattern : regex :=
  seqs [lit (js "/t/"); Group 1 (plus true (Chr is_digit))].

Definition mp3_pattern : regex :=
  seqs [lit (js "http"); opt (lit (js "s")); lit (js "://");
        plus true (Chr (fun c => negb (mem c (js "`'") || is_ws c)));
        lit (js ".mp3")].

(** Method 4: a track number in the address, and the first MP3 address
    anywhere in the page. *)
Definition single_method4 (d : document) (realUrl html awsBaseUrl : jsstring)
  : option track_info :=
  match search track_id_pattern realUrl with
  | None => None
  | Some trackIdMatch =>
      let trackId := group_text 1 trackIdMatch in
      match match_all mp3_pattern html with
      | Some (mp3Url :: _) =>
          let srcPath := remove_first awsBaseUrl mp3Url in
          let first := hd [] (split_on (js " - ") (title d)) in
          Some {| name := VStr (if is_empty first then js "Track " ++ trackId
                                else first);
                  src := VStr srcPath |}
      | _ => None
      end
  end.

Definition aws_missing_single : jsstring :=
  js "Could not find AWS base URL on the page. Make sure you are on a Traktrain track page.".

Definition track_missing : jsstring :=
  js "Could not extract track information from the page. This might be a different type of Traktrain page or the page structure has changed.".

(** The cascade of the four methods; each is announced before it runs. *)
Definition locate_single (d : document) (realUrl html awsBaseUrl : jsstring)
  : M (option track_info) :=
  log (Method 1) ;;
  match extractTrackInfo html with
  | Some trackInfo => ret (Some trackInfo)
  | None =>
      log (Method 2) ;;
      match single_method2 (scripts d) with
      | Some trackInfo => ret (Some trackInfo)
      | None =>
          log (Method 3) ;;
          match single_method3 d awsBaseUrl with
          | Some trackInfo => ret (Some trackInfo)
          | None =>
              log (Method 4) ;;
              ret (single_method4 d realUrl html awsBaseUrl)
          end
      end
  end.

Definition extractSingleBeat (w : window) (url : jsstring) (createArtistFolder : value)
  : M envelope :=
  realUrl <- (if includes url (js "traktra.in/t/") then followRedirect w url
              else ret url) ;;
  let d := doc w in
  let artist := single_artist d realUrl in
  let html := outerHTML d in
  let awsBaseUrl := extractAwsBaseUrl html in
  if falsy awsBaseUrl then throw (Error aws_missing_single)
  else
    let awsBaseUrl := match awsBaseUrl with Some b => b | None => [] end in
    trackInfo <- locate_single d realUrl html awsBaseUrl ;;
    match trackInfo with
    | None => throw (Error track_missing)
    | Some trackInfo =>
        downloadUrl <- lift (concat_url awsBaseUrl (src trackInfo)) ;;
        sanitized <- lift (sanitize (name trackInfo)) ;;
        ret (Success {| tracks := [ {| track_name := sanitized;
                                       url := downloadUrl;
                                       track_artist := artist |} ];
                        artist := artist;
                        createArtistFolder := createArtistFolder |})
    end.

(** *** extractProfileBeats *)

(** The body the three profile loops share: a candidate with a truthy [src]
    and a truthy [name] is pushed on [tracks]. *)
Definition add_track (awsBaseUrl artist : jsstring) (trackData : value)
  (tracks : list track) : outcome (list track) :=
  outcome_bind (get trackData (js "src")) (fun s =>
  if truthy s
  then outcome_bind (get trackData (js "name")) (fun n =>
       if truthy n
       then outcome_bind (concat_url awsBaseUrl s) (fun fullUrl =>
            outcome_bind (sanitize n) (fun sanitized =>
            Return (tracks ++ [ {| track_name := sanitized;
                                   url := fullUrl;
                                   track_artist := artist |} ])))
       else Return tracks)
  else Return tracks).

(** Method 1, one element: whatever is thrown while the attribute is parsed
    and used is caught, and the loop goes on. *)
Definition scan_element (awsBaseUrl artist : jsstring) (tracks : list track)
  (playerInfo : jsstring) : list track :=
  if is_empty playerInfo then tracks
  else match JSON_parse playerInfo with
       | None => tracks
       | Some trackData =>
           match add_track awsBaseUrl artist trackData tracks with
           | Return tracks' => tracks'
           | Throw _ => tracks
           end
       end.

Definition profile_method1 (awsBaseUrl artist : jsstring) (elements : list jsstring)
  (tracks : list track) : list track :=
  fold_left (scan_element awsBaseUrl artist) elements tracks.

(** The patterns of Method 2; all carry the [s] flag, so the dot matches
    every character. *)
Definition state_assignment (variable : jsstring) : regex :=
  seqs [lit variable; Star true ws; lit (js "="); Star true ws;
        Group 1 (seqs [lit (js "{"); plus false any; lit (js "}")]);
        lit (js ";")].

Definition bracketed : regex :=
  Group 1 (seqs [lit (js "["); plus false any; lit (js "]")]).

Definition jsTrackPatterns : list regex :=
  [ state_assignment (js "window.__INITIAL_STATE__");
    state_assignment (js "window.__PRELOADED_STATE__");
    seqs [lit (js "`tracks`:"); Star true ws; bracketed];
    seqs [lit (js "`beats`:"); Star true ws; bracketed];
    seqs [lit (js "var"); plus true ws; lit (js "tracks"); Star true ws;
          lit (js "="); Star true ws; bracketed; lit (js ";")];
    seqs [lit (js "const"); plus true ws; lit (js "tracks"); Star true ws;
          lit (js "="); Star true ws; bracketed; lit (js ";")] ].

(** Where the track list is looked for in the parsed data. *)
Definition select_track_array (data : value) : outcome value :=
  if is_array data then Return data
  else
    match get data (js "tracks") with
    | Throw e => Throw e
    | Return t =>
        if truthy t then Return t
        else match get data (js "beats") with
             | Throw e => Throw e
             | Return b =>
                 if truthy b then Return b
                 else match get data (js "user") with
                      | Throw e => Throw e
                      | Return u =>
                          if truthy u
                          then match get u (js "tracks") with
                               | Throw e => Throw e
                               | Return ut =>
                                   if truthy ut then Return ut
                                   else Return (VArr [])
                               end
                          else Return (VArr [])
                      end
             end
    end.

(** The loop over the track list: the tracks pushed before something is
    thrown stay on [tracks]; the result tells whether the loop completed. *)
Fixpoint add_tracks (awsBaseUrl artist : jsstring) (items : list value)
  (tracks : list track) : list track * bool :=
  match items with
  | [] => (tracks, true)
  | item :: items' =>
      match add_track awsBaseUrl artist item tracks with
      | Return tracks' => add_tracks awsBaseUrl artist items' tracks'
      | Throw _ => (tracks, false)
      end
  end.

(** [for (const track of trackArray)]: an array gives its items, a string
    gives its characters, which have neither [src] nor [name]; nothing else
    can be iterated. *)
Definition iterate_tracks (awsBaseUrl artist : jsstring) (trackArray : value)
  (tracks : list track) : list track * bool :=
  match trackArray with
  | VArr items => add_tracks awsBaseUrl artist items tracks
  | VStr _ => (tracks, true)
  | _ => (tracks, false)
  end.

(** The [try] block of Method 2 for one matching pattern. *)
Definition scan_state (awsBaseUrl artist : jsstring) (mt : match_result)
  (tracks : list track) : list track * bool :=
  match parse_capture 1 mt with
  | None => (tracks, false)
  | Some data =>
      match select_track_array data with
      | Throw _ => (tracks, false)
      | Return trackArray => iterate_tracks awsBaseUrl artist trackArray tracks
      end
  end.

Fixpoint profile_method2 (awsBaseUrl artist html : jsstring) (patterns : list regex)
  (tracks : list track) : list track :=
  match patterns with
  | [] => tracks
  | pattern :: patterns' =>
      match search pattern html with
      | None => profile_method2 awsBaseUrl artist html patterns' tracks
      | Some mt =>
          let (tracks', completed) := scan_state awsBaseUrl artist mt tracks in
          if completed && negb (Nat.eqb (length tracks') 0) then tracks'
          else profile_method2 awsBaseUrl artist html patterns' tracks'
      end
  end.

(** Method 3, one match of the attribute in the raw HTML. *)
Definition scan_match (awsBaseUrl artist : jsstring) (tracks : list track)
  (matchText : jsstring) : list track :=
  match search player_info_pattern matchText with
  | None => tracks
  | Some jsonMatch =>
      match parse_capture 1 jsonMatch with
      | None => tracks
      | Some trackData =>
          match add_track awsBaseUrl artist trackData tracks with
          | Return tracks' => tracks'
          | Throw _ => tracks
          end
      end
  end.

Definition profile_method3 (awsBaseUrl artist html : jsstring) (tracks : list track)
  : list track :=
  match match_all player_info_pattern html with
  | None => tracks
  | Some playerInfoMatches =>
      fold_left (scan_match awsBaseUrl artist) playerInfoMatches tracks
  end.

Definition artist_missing : jsstring :=
  js "Could not extract artist name from URL".

Definition aws_missing_profile : jsstring :=
  js "Could not find AWS base URL on the page. Make sure you are on a Traktrain page.".

Definition no_tracks (url : jsstring) (awsBaseUrl : option jsstring) (elements : nat)
  : jsstring :=
  let pageType :=
    if includes url (js "/") && Nat.ltb 4 (length (split_on (js "/") url))
    then js "individual track page" else js "profile page" in
  js "No tracks found on this " ++ pageType
  ++ js ". Make sure the page has loaded completely and try again. Debug info: AWS URL "
  ++ (if falsy awsBaseUrl then js "missing" else js "found")
  ++ js ", data-player-info elements: " ++ nat_to_string elements.

Definition is_nil {A} (l : list A) : bool :=
  match l with [] => true | _ => false end.

(** The three methods in turn; the second and the third run only while no
    track has been found. *)
Definition locate_profile (d : document) (html awsBaseUrl artist : jsstring)
  : M (list track) :=
  log (Method 1) ;;
  let tracks := profile_method1 awsBaseUrl artist (player_info_elements d) [] in
  tracks <- (if is_nil tracks
             then log (Method 2) ;;
                  ret (profile_method2 awsBaseUrl artist html jsTrackPatterns tracks)
             else ret tracks) ;;
  if is_nil tracks
  then log (Method 3) ;; ret (profile_method3 awsBaseUrl artist html tracks)
  else ret tracks.

Definition extractProfileBeats (w : window) (url : jsstring) (createArtistFolder : value)
  : M envelope :=
  let artist := extractArtistFromUrl url in
  if falsy artist then throw (Error artist_missing)
  else
    let artist := match artist with Some a => a | None => [] end in
    let d := doc w in
    let html := outerHTML d in
    let awsBaseUrl := extractAwsBaseUrl html in
    if falsy awsBaseUrl then throw (Error aws_missing_profile)
    else
      let base := match awsBaseUrl with Some b => b | None => [] end in
      tracks <- locate_profile d html base artist ;;
      if is_nil tracks
      then throw (Error (no_tracks url awsBaseUrl (length (player_info_elements d))))
      else ret (Success {| tracks := tracks;
                           artist := artist;
                           createArtistFolder := createArtistFolder |}).

(** *** handleDataExtraction *)

Definition invalid_type : jsstring := js "Invalid extraction type".

(** The body of the [try] block.  The page is taken once it has loaded
    and settled; the waiting itself leaves no mark on the result. *)
Definition dispatch (w : window) (type createArtistFolder : value) : M envelope :=
  let currentUrl := location_href w in
  if is_string type (js "single")
  then extractSingleBeat w currentUrl createArtistFolder
  else if is_string type (js "profile")
  then extractProfileBeats w currentUrl createArtistFolder
  else throw (Error invalid_type).

Definition handleDataExtraction (w : window) (type createArtistFolder : value)
  : M envelope :=
  try_catch (dispatch w type createArtistFolder)
    (fun error => ret (Failure (message_of error))).

(** *** The message listener

    The response passed to [sendResponse], if the listener answers at
    all. *)
Definition listener (w : window) (rq : request) : option envelope :=
  if is_string (action rq) (js "extractData")
  then match handleDataExtraction w (type rq) (request_createArtistFolder rq) with
       | (_, Return result) => Some result
       | (_, Throw error) => Some (Failure (message_of error))
       end
  else None.

End Script.

(** ** A reference host

    Used to run the script on concrete pages: addresses of the plain shape
    [scheme://authority/path?query#fragment], numbers printed as they were
    written, and the engine's messages as V8 words them. *)
Definition is_path_end (c : N) : bool := mem c (js "?#").

Definition reference_pathname (u : jsstring) : option jsstring :=
  match split_first (js "://") u with
  | None => None
  | Some (scheme, rest) =>
      if is_empty scheme then None
      else
        let after_authority := drop_while (fun c => negb (mem c (js "/?#"))) rest in
        match take_while (fun c => negb (is_path_end c)) after_authority with
        | [] => Some (js "/")
        | path => Some path
        end
  end.

Definition reference_message (e : engine_error) : jsstring :=
  match e with
  | NotAFunction => js "filename.replace is not a function"
  | PropertyOfNull => js "Cannot read properties of null"
  | NotIterable => js "trackArray is not iterable"
  | JsonSyntax => js "Unexpected token in JSON"
  | CannotConvert => js "Cannot convert object to primitive value"
  end.

Definition reference_host : Host :=
  {| URL_pathname := reference_pathname;
     Number_toString := fun lexeme => lexeme;
     engine_message := reference_message |}.

(** * Notions used in the statements *)

Definition valid_char (c : N) : bool := negb (mem c invalid_chars).

(** Each run of whitespace becomes one space; [in_run] tells that the
    current run has already been written. *)
Fixpoint squeeze (in_run : bool) (s : jsstring) : jsstring :=
  match s with
  | [] => []
  | x :: s' =>
      if is_ws x
      then if in_run then squeeze true s' else 32%N :: squeeze true s'
      else x :: squeeze false s'
  end.

Fixpoint strip_end (p : N -> bool) (s : jsstring) : jsstring :=
  match s with
  | [] => []
  | x :: s' =>
      match strip_end p s' with
      | [] => if p x then [] else [x]
      | r => x :: r
      end
  end.

Definition head_ws (s : jsstring) : bool :=
  match s with
  | x :: _ => is_ws x
  | [] => false
  end.

(** Every whitespace character is a space and is not followed by
    whitespace. *)
Fixpoint single_spaced (s : jsstring) : bool :=
  match s with
  | [] => true
  | x :: s' =>
      (if is_ws x then N.eqb x 32 && negb (head_ws s') else true)
      && single_spaced s'
  end.

(** The messages of the base-URL failure, one per page type. *)
Definition base_url_not_found (message : jsstring) : Prop :=
  message = aws_missing_single \/ message = aws_missing_profile.

(** [matches r s c s' c'] reads: [r] can consume the front of [s] and leave
    [s'], turning the captures [c] into [c'].  Whatever the matcher
    returns has gone through such a match of the pattern and then through
    the continuation. *)
Inductive matches : regex -> jsstring -> captures -> jsstring -> captures -> Prop :=
| matches_eps s c : matches Eps s c s c
| matches_chr p x s c : p x = true -> matches (Chr p) (x :: s) c s c
| matches_seq r1 r2 s c s1 c1 s2 c2 :
    matches r1 s c s1 c1 -> matches r2 s1 c1 s2 c2 ->
    matches (Seq r1 r2) s c s2 c2
| matches_alt_left r1 r2 s c s' c' :
    matches r1 s c s' c' -> matches (Alt r1 r2) s c s' c'
| matches_alt_right r1 r2 s c s' c' :
    matches r2 s c s' c' -> matches (Alt r1 r2) s c s' c'
| matches_star_stop g r s c : matches (Star g r) s c s c
| matches_star_step g r s c s1 c1 s2 c2 :
    matches r s c s1 c1 -> length s1 < length s ->
    matches (Star g r) s1 c1 s2 c2 ->
    matches (Star g r) s c s2 c2
| matches_group i r s c s' c' :
    matches r s c s' c' ->
    matches (Group i r) s c s' ((i, firstn (length s - length s') s) :: c').

Fixpoint nullable (r : regex) : bool :=
  match r with
  | Eps => true
  | Chr _ => false
  | Seq r1 r2 => nullable r1 && nullable r2
  | Alt r1 r2 => nullable r1 || nullable r2
  | Star _ _ => true
  | Group _ r1 => nullable r1
  end.

(** Every group of the pattern encloses a pattern that consumes
    something. *)
Fixpoint groups_consume (r : regex) : bool :=
  match r with
  | Eps | Chr _ => true
  | Seq r1 r2 | Alt r1 r2 => groups_consume r1 && groups_consume r2
  | Star _ r1 => groups_consume r1
  | Group _ r1 => negb (nullable r1) && groups_consume r1
  end.

Ltac run_in H :=
  unfold bind, log, ret, throw, lift in H; cbv beta iota zeta in H.

(** An absolute URL starts with a scheme: a letter, then letters, digits,
    plus, minus or dot, then a colon. *)
Definition is_alpha (c : N) : bool := in_range 65 90 c || in_range 97 122 c.

Definition is_scheme_char (c : N) : bool :=
  is_alpha c || is_digit c || mem c (js "+-.").

Definition has_scheme (u : jsstring) : bool :=
  match u with
  | c :: r =>
      is_alpha c
      && match drop_while is_scheme_char r with
         | 58%N :: _ => true
         | _ => false
         end
  | [] => false
  end.

(** Whether an element qualifies as the audio source: its source text holds
    [.mp3] and holds the base URL. *)
Definition qualifies (awsBaseUrl : jsstring) (element : source_element) : bool :=
  match element_src element with
  | Some s => includes s (js ".mp3") && includes s awsBaseUrl
  | None => false
  end.

(** The name the third method gives a track: the trimmed first segment of
    a title of the form [first - second]; without such a title, the trimmed
    text of the first heading; and [Unknown Track] when that gives nothing. *)
Inductive inferred_name (d : document) : jsstring -> Prop :=
| name_from_title mt :
    search title_pattern (title d) = Some mt ->
    trim (group_text 1 mt) <> [] ->
    inferred_name d (trim (group_text 1 mt))
| name_from_heading text :
    search title_pattern (title d) = None ->
    h1 d = Some text ->
    trim text <> [] ->
    inferred_name d (trim text)
| name_unknown :
    match search title_pattern (title d) with
    | Some mt => trim (group_text 1 mt) = []
    | None => match h1 d with
              | Some text => trim text = []
              | None => True
              end
    end ->
    inferred_name d (js "Unknown Track").

(** A member that may be missing, read without throwing. *)
Definition member (k : jsstring) (v : value) : value :=
  match get v k with
  | Return x => x
  | Throw _ => VUndefined
  end.

(** The four places where the track list is looked for, in order. *)
Definition track_list_candidates (data : value) : list value :=
  [ if is_array data then data else VUndefined;
    member (js "tracks") data;
    member (js "beats") data;
    member (js "tracks") (member (js "user") data) ].

Definition non_empty_array (v : value) : bool :=
  match v with VArr (_ :: _) => true | _ => false end.

(** The probe in the spec's words: the first candidate that is not empty. *)
Definition first_non_empty_candidate (data : value) : value :=
  match find non_empty_array (track_list_candidates data) with
  | Some v => v
  | None => VArr []
  end.

(** The probe as the code has it: the first candidate that is there, an
    empty array included. *)
Definition first_present_candidate (data : value) : value :=
  match find truthy (track_list_candidates data) with
  | Some v => v
  | None => VArr []
  end.

(** What the body shared by the profile loops makes of one candidate.  It
    gives a track when the candidate is an object whose [src] is there and
    whose [name] is a non-empty string: the name sanitized, and the base URL
    followed by the text of the [src]. *)
Inductive gives_track (h : Host) (awsBaseUrl artist : jsstring)
  : value -> track -> Prop :=
| gives_track_of fields n s text :
    lookup_last (js "name") fields = Some (VStr n) -> n <> [] ->
    lookup_last (js "src") fields = Some s -> truthy s = true ->
    to_string h s = Return text ->
    gives_track h awsBaseUrl artist (VObj fields)
      {| track_name := sanitizeFilename n;
         url := awsBaseUrl ++ text;
         track_artist := artist |}.

(** A candidate that is passed over: a value other than [null] whose [src]
    or [name] is missing, [null], empty, [false] or zero; a value that is
    not an object has neither. *)
Definition passed_over (v : value) : Prop :=
  v <> VNull /\ v <> VUndefined
  /\ (truthy (member (js "src") v) = false
      \/ truthy (member (js "name") v) = false).

(** A candidate on which the body throws: [null], or a value with both
    members there whose [name] is not a string or whose [src] cannot be
    turned into text. *)
Definition breaks (h : Host) (v : value) : Prop :=
  v = VNull \/ v = VUndefined
  \/ (truthy (member (js "src") v) = true
      /\ truthy (member (js "name") v) = true
      /\ ((forall n, member (js "name") v <> VStr n)
          \/ exists e, to_string h (member (js "src") v) = Throw e)).

(** What an item of a track list adds when the body does not throw. *)
Inductive item_adds (h : Host) (awsBaseUrl artist : jsstring)
  : value -> list track -> Prop :=
| item_gives v t :
    gives_track h awsBaseUrl artist v t -> item_adds h awsBaseUrl artist v [t]
| item_passed v :
    passed_over v -> item_adds h awsBaseUrl artist v [].

(** What one [data-player-info] attribute adds to the tracks: its track
    when its text parses to a candidate that gives one; nothing when the
    text does not parse, when the candidate is passed over, and when the
    body throws on it. *)
Inductive contributes (h : Host) (awsBaseUrl artist : jsstring)
  : jsstring -> list track -> Prop :=
| valid_attribute playerInfo v t :
    JSON_parse playerInfo = Some v ->
    gives_track h awsBaseUrl artist v t ->
    contributes h awsBaseUrl artist playerInfo [t]
| malformed_attribute playerInfo :
    JSON_parse playerInfo = None ->
    contributes h awsBaseUrl artist playerInfo []
| incomplete_attribute playerInfo v :
    JSON_parse playerInfo = Some v ->
    passed_over v ->
    contributes h awsBaseUrl artist playerInfo []
| unusable_attribute playerInfo v :
    JSON_parse playerInfo = Some v ->
    breaks h v ->
    contributes h awsBaseUrl artist playerInfo [].

(** What a pattern of the second method finds in the HTML: nothing, a
    capture that is no JSON, or the parsed state. *)
Definition captured_state (pattern : regex) (html : jsstring) : option (option value) :=
  option_map (parse_capture 1) (search pattern html).

(** The candidates a profile page offers: the parsed attribute of an
    element, or an item of the track list of a state that one of the
    patterns captures. *)
Inductive page_descriptor (d : document) (html : jsstring) : value -> Prop :=
| element_descriptor playerInfo v :
    In playerInfo (player_info_elements d) ->
    JSON_parse playerInfo = Some v ->
    page_descriptor d html v
| state_descriptor pattern data items v :
    In pattern jsTrackPatterns ->
    captured_state pattern html = Some (Some data) ->
    first_present_candidate data = VArr items ->
    In v items ->
    page_descriptor d html v.

(** * Example pages *)

(** The page of the scenario: the base URL in a script, and one element
    with the track attribute. *)
Definition base_script : script_element :=
  {| textContent := js "var AWS_BASE_URL = `https://cdn.example.com/`;";
     innerHTML := js "var AWS_BASE_URL = `https://cdn.example.com/`;" |}.

Definition no_flag : value := VBool false.

(** A profile address without any path segment, on a page that holds a
    valid track attribute but no base URL. *)
Definition root_profile_page : window :=
  {| location_href := js "https://traktrain.com/";
     doc := {| title := js "Traktrain";
               outerHTML := js "<html><head><title>Traktrain</title></head><body><div data-player-info=`{&quot;name&quot;:&quot;A&quot;,&quot;src&quot;:&quot;a.mp3&quot;}`></div></body></html>";
               scripts := [];
               meta_artist := None;
               h1 := None;
               audio_sources := [];
               player_info_elements := [js "{`name`:`A`,`src`:`a.mp3`}"] |};
     fetch_url := fun _ => None |}.

(** The same page under an artist's address. *)
Definition artist_page_without_base : window :=
  {| location_href := js "https://traktrain.com/someartist";
     doc := doc root_profile_page;
     fetch_url := fun _ => None |}.

(** Three valid elements and, between them, one whose JSON does not
    parse. *)
Definition mixed_profile_page : window :=
  {| location_href := js "https://traktrain.com/someartist";
     doc := {| title := js "someartist";
               outerHTML := js "<html><head><title>someartist</title><script>var AWS_BASE_URL = `https://cdn.example.com/`;</script></head><body><div data-player-info=`{&quot;name&quot;:&quot;First: one&quot;,&quot;src&quot;:&quot;a/1.mp3&quot;}`></div><div data-player-info=`{&quot;name&quot;:&quot;Second&quot;,&quot;src&quot;:&quot;a/2.mp3&quot;}`></div><div data-player-info=`{&quot;name&quot;:&quot;Broken&quot;,&quot;src&quot;:`></div><div data-player-info=`{&quot;name&quot;:&quot;  Third   beat &quot;,&quot;src&quot;:&quot;a/3.mp3&quot;}`></div></body></html>";
               scripts := [ base_script ];
               meta_artist := None;
               h1 := None;
               audio_sources := [];
               player_info_elements :=
                 [ js "{`name`:`First: one`,`src`:`a/1.mp3`}";
                   js "{`name`:`Second`,`src`:`a/2.mp3`}";
                   js "{`name`:`Broken`,`src`:";
                   js "{`name`:`  Third   beat `,`src`:`a/3.mp3`}" ] |};
     fetch_url := fun _ => None |}.

Definition mixed_profile_tracks : list track :=
  [ {| track_name := js "First one";
       url := js "https://cdn.example.com/a/1.mp3";
       track_artist := js "someartist" |};
    {| track_name := js "Second";
       url := js "https://cdn.example.com/a/2.mp3";
       track_artist := js "someartist" |};
    {| track_name := js "Third beat";
       url := js "https://cdn.example.com/a/3.mp3";
       track_artist := js "someartist" |} ].

(** A profile page whose base URL is written without a scheme. *)
Definition relative_base_page : window :=
  {| location_href := js "https://traktrain.com/someartist";
     doc := {| title := js "someartist";
               outerHTML := js "<html><head><title>someartist</title><script>var AWS_BASE_URL = `//cdn.example.com/`;</script></head><body><div data-player-info=`{&quot;name&quot;:&quot;Beat&quot;,&quot;src&quot;:&quot;a/1.mp3&quot;}`></div></body></html>";
               scripts := [ {| textContent := js "var AWS_BASE_URL = `//cdn.example.com/`;";
                               innerHTML := js "var AWS_BASE_URL = `//cdn.example.com/`;" |} ];
               meta_artist := None;
               h1 := None;
               audio_sources := [];
               player_info_elements := [ js "{`name`:`Beat`,`src`:`a/1.mp3`}" ] |};
     fetch_url := fun _ => None |}.

Definition scenario_page : window :=
  {| location_href := js "https://traktrain.com/someartist/my-track";
     doc := {| title := js "My Track";
               outerHTML := js "<html><head><title>My Track</title><script>var AWS_BASE_URL = `https://cdn.example.com/`;</script></head><body><div data-player-info='{`name`:`My Track`,`src`:`/abc.mp3`}'></div></body></html>";
               scripts := [ base_script ];
               meta_artist := None;
               h1 := None;
               audio_sources := [];
               player_info_elements := [ js "{`name`:`My Track`,`src`:`/abc.mp3`}" ] |};
     fetch_url := fun _ => None |}.

(** The same page as the browser writes it back: the attribute in double
    quotes, the quotes of its value as character references. *)
Definition scenario_page_serialized : window :=
  {| location_href := js "https://traktrain.com/someartist/my-track";
     doc := {| title := js "My Track";
               outerHTML := js "<html><head><title>My Track</title><script>var AWS_BASE_URL = `https://cdn.example.com/`;</script></head><body><div data-player-info=`{&quot;name&quot;:&quot;My Track&quot;,&quot;src&quot;:&quot;/abc.mp3&quot;}`></div></body></html>";
               scripts := [ base_script ];
               meta_artist := None;
               h1 := None;
               audio_sources := [];
               player_info_elements := [ js "{`name`:`My Track`,`src`:`/abc.mp3`}" ] |};
     fetch_url := fun _ => None |}.

(** The same page with the track also written in a script. *)
Definition scenario_page_with_script : window :=
  {| location_href := js "https://traktrain.com/someartist/my-track";
     doc := {| title := js "My Track";
               outerHTML := js "<html><head><title>My Track</title><script>var AWS_BASE_URL = `https://cdn.example.com/`;</script></head><body><div data-player-info='{`name`:`My Track`,`src`:`/abc.mp3`}'></div><script>var track = {`name`:`My Track`,`src`:`/abc.mp3`};</script></body></html>";
               scripts := [ base_script;
                            {| textContent := js "var track = {`name`:`My Track`,`src`:`/abc.mp3`};";
                               innerHTML := js "var track = {`name`:`My Track`,`src`:`/abc.mp3`};" |} ];
               meta_artist := None;
               h1 := None;
               audio_sources := [];
               player_info_elements := [ js "{`name`:`My Track`,`src`:`/abc.mp3`}" ] |};
     fetch_url := fun _ => None |}.

(** A single-track page whose attribute holds an object without a source. *)
Definition empty_attribute_page : window :=
  {| location_href := js "https://traktrain.com/someartist/song";
     doc := {| title := js "Song";
               outerHTML := js "<html><head><title>Song</title><script>var AWS_BASE_URL = `https://cdn.example.com/`;</script></head><body><div data-player-info=`{}`></div></body></html>";
               scripts := [ base_script ];
               meta_artist := None;
               h1 := None;
               audio_sources := [];
               player_info_elements := [ js "{}" ] |};
     fetch_url := fun _ => None |}.

(** A single-track page with a two-part title and an audio element under the
    base URL. *)
Definition titled_audio_page : window :=
  {| location_href := js "https://traktrain.com/someartist/song";
     doc := {| title := js "Song - Artist";
               outerHTML := js "<html><head><title>Song - Artist</title><script>var AWS_BASE_URL = `https://cdn.example.com/`;</script></head><body><h1>Heading</h1><audio src=`https://cdn.example.com/a/song.mp3`></audio></body></html>";
               scripts := [ base_script ];
               meta_artist := None;
               h1 := Some (js "Heading");
               audio_sources := [ {| src_property := Some (js "https://cdn.example.com/a/song.mp3");
                                     data_src := None;
                                     data_track_src := None |} ];
               player_info_elements := [] |};
     fetch_url := fun _ => None |}.

Definition hidden_beats : value :=
  VObj [ (js "tracks", VArr []);
         (js "beats",
          VArr [ VObj [ (js "name", VStr (js "A"));
                        (js "src", VStr (js "a.mp3"));
                        (js "tags", VArr []) ] ]) ].

(** A profile page whose state has an empty [tracks] member before a
    [beats] member with one beat. *)
Definition hidden_beats_page : window :=
  {| location_href := js "https://traktrain.com/someartist";
     doc := {| title := js "someartist";
               outerHTML := js "<html><head><title>someartist</title><script>var AWS_BASE_URL = 'https://cdn.example.com/'; window.__INITIAL_STATE__ = {`tracks`:[],`beats`:[{`name`:`A`,`src`:`a.mp3`,`tags`:[]}]};</script></head><body></body></html>";
               scripts := [ {| textContent := js "var AWS_BASE_URL = 'https://cdn.example.com/'; window.__INITIAL_STATE__ = {`tracks`:[],`beats`:[{`name`:`A`,`src`:`a.mp3`,`tags`:[]}]};";
                               innerHTML := js "var AWS_BASE_URL = 'https://cdn.example.com/'; window.__INITIAL_STATE__ = {`tracks`:[],`beats`:[{`name`:`A`,`src`:`a.mp3`,`tags`:[]}]};" |} ];
               meta_artist := None;
               h1 := None;
               audio_sources := [];
               player_info_elements := [] |};
     fetch_url := fun _ => None |}.

(** A piece of a profile page whose state holds its tracks under the
    [user] member. *)
Definition user_state_html : jsstring :=
  js "<script>window.__INITIAL_STATE__ = {`user`:{`tracks`:[{`name`:`A: one`,`src`:`a.mp3`},{`name`:`B`}]}};</script>".

(** * Further notions *)

(** The pattern consumes only characters that satisfy [P]. *)
Fixpoint consumes_only (P : N -> Prop) (r : regex) : Prop :=
  match r with
  | Eps => True
  | Chr p => forall c, p c = true -> P c
  | Seq r1 r2 | Alt r1 r2 => consumes_only P r1 /\ consumes_only P r2
  | Star _ r1 | Group _ r1 => consumes_only P r1
  end.

(** Every group of the pattern captures only characters that satisfy
    [P]. *)
Fixpoint groups_only (P : N -> Prop) (r : regex) : Prop :=
  match r with
  | Eps | Chr _ => True
  | Seq r1 r2 | Alt r1 r2 => groups_only P r1 /\ groups_only P r2
  | Star _ r1 => groups_only P r1
  | Group _ r1 => consumes_only P r1 /\ groups_only P r1
  end.

(** Group [i] takes part in every match of the pattern. *)
Fixpoint always_captures (i : nat) (r : regex) : bool :=
  match r with
  | Eps | Chr _ | Star _ _ => false
  | Seq r1 r2 => always_captures i r1 || always_captures i r2
  | Alt r1 r2 => always_captures i r1 && always_captures i r2
  | Group j r1 => Nat.eqb i j || always_captures i r1
  end.

Definition no_quote (c : N) : Prop := mem c (js "'`") = false.

Definition no_double_quote (c : N) : Prop := N.eqb c 34 = false.

Definition short_link : jsstring := js "traktra.in/t/".

Definition short_url_unresolved : jsstring := js "Could not resolve short URL".

(** A single-track page reached through a short link. *)
Definition short_link_page : window :=
  {| location_href := js "https://traktra.in/t/1377013";
     doc := doc scenario_page_with_script;
     fetch_url := fun u =>
       if str_eqb u (js "https://traktra.in/t/1377013")
       then Some (js "https://traktrain.com/someartist/my-track")
       else None |}.

Definition string_free_token (t : token) : bool :=
  match t with TString _ => false | _ => true end.

(** The states the scanner can be in while it has met no double quote. *)
Definition string_free_state (st : lex_state) : bool :=
  match st with
  | LStart | LNumber _ _ => true
  | LWord _ t => string_free_token t
  | _ => false
  end.

(** A value that is no string and has no member. *)
Definition memberless (v : value) : Prop :=
  match v with
  | VStr _ | VObj (_ :: _) => False
  | _ => True
  end.

Definition memberless_frame (f : frame) : Prop :=
  match f with
  | FArr _ => True
  | FObj fields key => fields = [] /\ key = None
  end.

Definition memberless_mode (md : mode) : Prop :=
  match md with
  | MDone v => memberless v
  | _ => True
  end.

(** Both groups of the pattern take part in every match, and each captures
    a non-empty text without a double quote. *)
Definition captures_pair (p : regex) : Prop :=
  always_captures 1 p = true /\ always_captures 2 p = true
  /\ groups_consume p = true /\ groups_only no_double_quote p.

(** A descriptor whose name is a string and whose source is a string or
    undefined. *)
Definition printable (info : track_info) : Prop :=
  (exists n, name info = VStr n)
  /\ (src info = VUndefined \/ exists s, src info = VStr s).

(** The results of the four methods of the single-track cascade. *)
Definition single_methods (d : document) (realUrl html awsBaseUrl : jsstring)
  : list (option track_info) :=
  [ extractTrackInfo html;
    single_method2 (scripts d);
    single_method3 d awsBaseUrl;
    single_method4 d realUrl html awsBaseUrl ].

(** The failure messages of the script. *)
Definition known_failure (w : window) (message : jsstring) : Prop :=
  message = invalid_type
  \/ message = short_url_unresolved
  \/ message = aws_missing_single
  \/ message = track_missing
  \/ message = artist_missing
  \/ message = aws_missing_profile
  \/ exists base,
       extractAwsBaseUrl (outerHTML (doc w)) = Some base
       /\ message = no_tracks (location_href w) (Some base)
                      (length (player_info_elements (doc w))).

(** The text of a script that the script scan reads. *)
Definition script_content (script : script_element) : jsstring :=
  if is_empty (textContent script) then innerHTML script else textContent script.

Definition slash_count (url : jsstring) : nat := count_occ N.eq_dec url 47%N.

(** A name that the sanitizer leaves as it is. *)
Definition clean_name (x : jsstring) : Prop :=
  (forall c, In c x -> valid_char c = true)
  /\ single_spaced x = true
  /\ head_ws x = false
  /\ head_ws (rev x) = false.

(** A character the sanitizer drops or turns into a space. *)
Definition removable (c : N) : Prop := is_ws c = true \/ mem c invalid_chars = true.

(** What every track of a result has: the artist of the result, and a name
    that came out of the sanitizer. *)
Definition sanitized_track (a : jsstring) (t : track) : Prop :=
  track_artist t = a /\ exists n, track_name t = sanitizeFilename n.

(** Neither a quote nor whitespace: the characters of an MP3 address. *)
Definition address_char (c : N) : Prop :=
  mem c (js "`'") = false /\ is_ws c = false.

(** An MP3 address as the fourth method looks for it: the scheme with or
    without its [s], a non-empty run of address characters, and the
    extension. *)
Definition mp3_address (t : jsstring) : Prop :=
  exists secure run,
    (secure = [] \/ secure = js "s")
    /\ run <> []
    /\ Forall address_char run
    /\ t = js "http" ++ secure ++ js "://" ++ run ++ js ".mp3".

(** ** The background script

    The service worker starts the downloads.  It only calls the browser:
    [chrome.downloads.download], [chrome.tabs.query] and
    [chrome.scripting.executeScript], whose promises settle as the browser
    decides. *)

(** What a promise of the browser settles to; a rejection carries the
    message of its error. *)
Inductive settlement (A : Type) : Type :=
| Resolved (a : A)
| Rejected (message : jsstring).
Arguments Resolved {A} a.
Arguments Rejected {A} message.

Record header : Type := { header_name : jsstring; header_value : jsstring }.

Record download_options : Type := {
  options_url : jsstring;
  options_filename : jsstring;
  options_headers : list header;
  saveAs : bool
}.

(** The browser as the script meets it.  The calls made for one track are
    told from those made for another by the position of the track in the
    list ([0] for a single download), so that a call may be answered
    differently each time it is made. *)
Record Browser : Type := {
  downloads_download : download_options -> settlement N;
  tabs_query : nat -> settlement (list N);
  scripting_executeScript : nat -> N -> jsstring -> jsstring -> settlement (list value)
}.

(** The calls the script makes, in the order it makes them. *)
Inductive call : Type :=
| Download (options : download_options)
| Monitor (downloadId : N)
| QueryTabs
| ExecuteScript (tabId : N) (script_url script_filename : jsstring).

(** One entry of what [Promise.allSettled] returns. *)
Inductive settled : Type :=
| Fulfilled (success : bool) (track : jsstring) (method : option jsstring)
| RejectedBecause (reason : jsstring).

(** The objects the download functions return:
    [{success: true, message, downloadId}], [{success: false, error}] and
    [{success, message, results}]. *)
Inductive download_result : Type :=
| Started (message : jsstring) (downloadId : option N)
| NotStarted (error : jsstring)
| Batch (success : bool) (message : jsstring) (results : list settled).

Definition result_success (r : download_result) : bool :=
  match r with
  | Started _ _ => true
  | NotStarted _ => false
  | Batch success _ _ => success
  end.

Definition result_message (r : download_result) : option jsstring :=
  match r with
  | Started message _ | Batch _ message _ => Some message
  | NotStarted _ => None
  end.

Definition result_error (r : download_result) : option jsstring :=
  match r with
  | NotStarted error => Some error
  | _ => None
  end.

Definition referer : header :=
  {| header_name := js "Referer"; header_value := js "https://traktrain.com/" |}.

Definition direct_headers : list header :=
  [ referer;
    {| header_name := js "Origin"; header_value := js "https://traktrain.com" |};
    {| header_name := js "User-Agent";
       header_value := js "Mozilla/5.0 (Windows NT 10.0; Win64; x64) AppleWebKit/537.36 (KHTML, like Gecko) Chrome/120.0.0.0 Safari/537.36" |};
    {| header_name := js "Accept"; header_value := js "audio/mpeg, audio/*, */*" |};
    {| header_name := js "Sec-Fetch-Dest"; header_value := js "audio" |};
    {| header_name := js "Sec-Fetch-Mode"; header_value := js "cors" |};
    {| header_name := js "Sec-Fetch-Site"; header_value := js "cross-site" |} ].

Definition fallback_headers : list header := [ referer ].

(** The filename of both download functions. *)
Definition filename_of (artist : jsstring) (createArtistFolder : value) (t : track)
  : jsstring :=
  if truthy createArtistFolder
  then artist ++ js "/" ++ track_name t ++ js ".mp3"
  else track_name t ++ js ".mp3".

(** [result && result[0] && result[0].success] on the array that
    [executeScript] resolves with. *)
Definition script_succeeded (result : list value) : bool :=
  match result with
  | [] => false
  | first :: _ =>
      truthy first
      && match get first (js "success") with
         | Return v => truthy v
         | Throw _ => false
         end
  end.

Definition no_active_tab : jsstring := js "No active tab found".
Definition content_script_failed : jsstring := js "Content script download failed".
Definition stealth_failed : jsstring := js "Stealth download failed".

Definition all_methods_failed (t : track) (message : jsstring) : jsstring :=
  js "All download methods failed for " ++ track_name t ++ js ": " ++ message.

(** The download through a function injected into the page; [i] is the
    position of the track. *)
Definition tryContentScriptDownload (b : Browser) (i : nat) (t : track)
  (filename : jsstring) : list call * download_result :=
  let triggered := Started (js "Started download (content script): " ++ track_name t) None in
  match tabs_query b i with
  | Rejected message => ([QueryTabs], NotStarted (all_methods_failed t message))
  | Resolved [] => ([QueryTabs], NotStarted (all_methods_failed t no_active_tab))
  | Resolved (tab :: _) =>
      let calls := [QueryTabs; ExecuteScript tab (url t) filename] in
      match scripting_executeScript b i tab (url t) filename with
      | Rejected message => (calls, NotStarted (all_methods_failed t message))
      | Resolved result =>
          if script_succeeded result
          then (calls, triggered)
          else (calls, NotStarted (all_methods_failed t content_script_failed))
      end
  end.

(** [monitorDownloadProgress] only registers callbacks with the browser; it
    is recorded as a call and returns nothing to the function. *)
Definition downloadSingleTrack (b : Browser) (t : track) (artist : jsstring)
  (createArtistFolder : value) : list call * download_result :=
  let filename := filename_of artist createArtistFolder t in
  let direct :=
    {| options_url := url t; options_filename := filename;
       options_headers := direct_headers; saveAs := false |} in
  match downloads_download b direct with
  | Resolved downloadId =>
      ([Download direct; Monitor downloadId],
       Started (js "Started download: " ++ track_name t) (Some downloadId))
  | Rejected _ =>
      let fallback :=
        {| options_url := url t; options_filename := filename;
           options_headers := fallback_headers; saveAs := false |} in
      match downloads_download b fallback with
      | Resolved downloadId =>
          ([Download direct; Download fallback; Monitor downloadId],
           Started (js "Started download (fallback): " ++ track_name t)
             (Some downloadId))
      | Rejected _ =>
          let (calls, result) := tryContentScriptDownload b 0 t filename in
          (Download direct :: Download fallback :: calls, result)
      end
  end.

(** The promise made for the track at position [i]. *)
Definition settle (b : Browser) (artist : jsstring) (createArtistFolder : value)
  (i : nat) (t : track) : list call * settled :=
  let filename := filename_of artist createArtistFolder t in
  let (calls, stealthResult) := tryContentScriptDownload b i t filename in
  (calls,
   if result_success stealthResult
   then Fulfilled true (track_name t) (result_message stealthResult)
   else RejectedBecause
          (match result_error stealthResult with
           | Some (c :: error) => c :: error
           | _ => stealth_failed
           end)).

Fixpoint settle_all (b : Browser) (artist : jsstring) (createArtistFolder : value)
  (i : nat) (ts : list track) : list (list call * settled) :=
  match ts with
  | [] => []
  | t :: ts' =>
      settle b artist createArtistFolder i t
      :: settle_all b artist createArtistFolder (S i) ts'
  end.

Definition fulfilled_with_success (r : settled) : bool :=
  match r with
  | Fulfilled success _ _ => success
  | RejectedBecause _ => false
  end.

Definition is_rejected (r : settled) : bool :=
  match r with
  | Fulfilled _ _ _ => false
  | RejectedBecause _ => true
  end.

Definition batch_message (successful failed : nat) : jsstring :=
  js "Downloaded " ++ nat_to_string successful ++ js " tracks"
  ++ (if 0 <? failed then js ", " ++ nat_to_string failed ++ js " failed" else []).

(** The downloads of several tracks run side by side, each started a
    second after the one before; the calls are kept per track, in the order
    of the tracks. *)
Definition downloadMultipleTracks (b : Browser) (ts : list track) (artist : jsstring)
  (createArtistFolder : value) : list (list call) * download_result :=
  let settlements := settle_all b artist createArtistFolder 0 ts in
  let results := map snd settlements in
  let successful := length (filter fulfilled_with_success results) in
  let failed := length (filter is_rejected results) in
  (map fst settlements,
   Batch (0 <? successful) (batch_message successful failed) results).

Record download_request : Type := {
  download_action : value;
  download_data : data;
  download_type : value;
  download_createArtistFolder : value
}.

Definition handleDownloadTracks (b : Browser) (rq : download_request)
  : list (list call) * download_result :=
  let d := download_data rq in
  match tracks d with
  | [t] =>
      let (calls, result) :=
        downloadSingleTrack b t (artist d) (download_createArtistFolder rq) in
      ([calls], result)
  | ts => downloadMultipleTracks b ts (artist d) (download_createArtistFolder rq)
  end.

(** The listener of the background script: the response, if it answers. *)
Definition background_listener (b : Browser) (rq : download_request)
  : option download_result :=
  if is_string (download_action rq) (js "downloadTracks")
  then Some (snd (handleDownloadTracks b rq))
  else None.

(** ** The popup *)

Inductive status_type : Type := StatusSuccess | StatusError | StatusInfo.

Record status : Type := { status_text : jsstring; status_class : status_type }.

(** The ending of [track] for a count. *)
Definition plural (n : nat) : jsstring :=
  if Nat.eqb n 1 then [] else js "s".

(** A property that may be missing, inside a template literal. *)
Definition in_template (o : option jsstring) : jsstring :=
  match o with
  | Some s => s
  | None => js "undefined"
  end.

Definition found_tracks (n : nat) : status :=
  {| status_text := js "Found " ++ nat_to_string n ++ js " track" ++ plural n
                    ++ js ". Starting download...";
     status_class := StatusInfo |}.

Definition started_tracks (n : nat) : status :=
  {| status_text := js "Successfully started download of " ++ nat_to_string n
                    ++ js " track" ++ plural n ++ js "!";
     status_class := StatusSuccess |}.

Definition download_failed (error : option jsstring) : status :=
  {| status_text := js "Download failed: " ++ in_template error;
     status_class := StatusError |}.

Definition extraction_failed (error : jsstring) : status :=
  {| status_text := js "Failed to extract data: "
                    ++ (if is_empty error then js "Unknown error occurred" else error);
     status_class := StatusError |}.

Definition download_error : status :=
  {| status_text := js "An error occurred during download.";
     status_class := StatusError |}.

(** A click on one of the two buttons: the statuses shown, in order.
    [content] is the page of the active tab when the content script runs in
    it; without one the message to the tab is rejected. *)
Definition handleDownload (h : Host) (b : Browser) (content : option window)
  (type : jsstring) (checked : bool) : list status :=
  match content with
  | None => [download_error]
  | Some w =>
      match listener h w {| action := VStr (js "extractData");
                            type := VStr type;
                            request_createArtistFolder := VBool checked |} with
      | None => [download_error]
      | Some (Success d) =>
          let trackCount := length (tracks d) in
          match background_listener b
                  {| download_action := VStr (js "downloadTracks");
                     download_data := d;
                     download_type := VStr type;
                     download_createArtistFolder := VBool checked |} with
          | None => [found_tracks trackCount; download_error]
          | Some downloadResponse =>
              if result_success downloadResponse
              then [found_tracks trackCount; started_tracks trackCount]
              else [found_tracks trackCount;
                    download_failed (result_error downloadResponse)]
          end
      | Some (Failure error) => [extraction_failed error]
      end
  end.

(** ** Notions for the background script and the popup *)

Definition is_download (c : call) : bool :=
  match c with
  | Download _ | Monitor _ => true
  | _ => false
  end.

(** Neither a slash nor a backslash. *)
Definition no_separator (c : N) : Prop := c <> 47%N /\ c <> 92%N.

(** The reasons [tryContentScriptDownload] gives for a failure: its own two
    and whatever message the browser rejected a call with. *)
Definition stealth_reason (b : Browser) (i : nat) (t : track) (filename reason : jsstring)
  : Prop :=
  reason = no_active_tab
  \/ reason = content_script_failed
  \/ tabs_query b i = Rejected reason
  \/ exists tab, scripting_executeScript b i tab (url t) filename = Rejected reason.

(** A browser that refuses every download and has no active tab. *)
Definition refusing_browser : Browser :=
  {| downloads_download := fun _ => Rejected (js "Invalid filename");
     tabs_query := fun _ => Resolved [];
     scripting_executeScript := fun _ _ _ _ => Rejected (js "No tab") |}.

(** A browser that starts every download. *)
Definition willing_browser : Browser :=
  {| downloads_download := fun _ => Resolved 7%N;
     tabs_query := fun _ => Resolved [1%N];
     scripting_executeScript := fun _ _ _ _ =>
       Resolved [VObj [(js "success", VBool true)]] |}.

(** One call of [chrome.downloads.download] for a track. *)
Definition download_attempt (t : track) (filename : jsstring) (hs : list header)
  : download_options :=
  {| options_url := url t; options_filename := filename;
     options_headers := hs; saveAs := false |}.

Definition content_script_started (t : track) : jsstring :=
  js "Started download (content script): " ++ track_name t.

(** What the promise of one track of a batch settles to. *)
Definition settled_for (t : track) (x : settled) : Prop :=
  x = Fulfilled true (track_name t) (Some (content_script_started t))
  \/ exists reason, x = RejectedBecause (all_methods_failed t reason).


(** The source a track of a result was made from: on a single-track page
    the [src] of the descriptor the cascade returned, on a profile page the
    [src] of a candidate of the page that gives this track. *)
Definition track_source (h : Host) (w : window) (type : value) (base : jsstring)
  (t : track) (s : value) : Prop :=
  if is_string type (js "single")
  then exists realUrl info,
         snd (locate_single (doc w) realUrl (outerHTML (doc w)) base)
         = Return (Some info)
         /\ src info = s
  else exists v,
         page_descriptor (doc w) (outerHTML (doc w)) v
         /\ gives_track h base (track_artist t) v t
         /\ member (js "src") v = s.

(** * Properties *)

(** ** The platform model on small inputs *)

Example JSON_parse_object :
  JSON_parse (js " {`name`: `My Track`, `src`:`\/aA.mp3`, `n`:[1,-0.5e+3,true,null]} ")
  = Some (VObj [ (js "name", VStr (js "My Track"));
                 (js "src", VStr (js "/aA.mp3"));
                 (js "n", VArr [ VNum (js "1"); VNum (js "-0.5e+3");
                                 VBool true; VNull ]) ]).
Proof. reflexivity. Qed.

Example JSON_parse_rejects :
  map JSON_parse
    [ []; js "{"; js "[1,]"; js "{`a`:1,}"; js "01"; js "1 2"; js "nul";
      js "{'a':1}"; js "[1"; js "`a"; js "1."; js "-"; js "{`a` 1}" ]
  = repeat None 13.
Proof. reflexivity. Qed.

Example number_zero_values :
  map number_is_zero [ js "0"; js "-0"; js "0.000e5"; js "1e-324"; js "3e-324"; js "7" ]
  = [ true; true; true; true; false; false ].
Proof. reflexivity. Qed.

Example lazy_then_greedy :
  option_map (fun mt => (index mt, group_text 1 mt, group_text 2 mt))
    (search title_pattern (js "My Song  - The Artist - Live"))
  = Some (0, js "My Song", js "The Artist - Live").
Proof. reflexivity. Qed.

Example greedy_backtracks :
  match_all mp3_pattern (js "a https://x.y/a.mp3.mp3?q `http://b/c.mp3` d.mp3")
  = Some [ js "https://x.y/a.mp3.mp3"; js "http://b/c.mp3" ].
Proof. reflexivity. Qed.

Example split_and_remove :
  split_on (js "/") (js "/a//b") = [ []; js "a"; []; js "b" ]
  /\ split_on (js " - ") (js "One - Two - Three") = [ js "One"; js "Two"; js "Three" ]
  /\ remove_first (js "bc") (js "abcdbc") = js "adbc"
  /\ nat_to_string 120 = js "120".
Proof. repeat split; reflexivity. Qed.

Example sanitizeFilename_sample :
  sanitizeFilename (js "  a<b>  c:d	e?  ") = js "ab cd e".
Proof. reflexivity. Qed.

Example reference_pathname_samples :
  map reference_pathname
    [ js "https://traktrain.com/someartist/song?x=1#top";
      js "https://traktrain.com";
      js "https://traktrain.com/";
      js "not a url" ]
  = [ Some (js "/someartist/song"); Some (js "/"); Some (js "/"); None ].
Proof. reflexivity. Qed.

(** ** The matcher on a character class and on a run of a class *)

Lemma match_at_class (p : N -> bool) (x : N) (s : jsstring) :
  match_at (Chr p) (x :: s) = if p x then Some (s, []) else None.
Proof. reflexivity. Qed.

Lemma star_class_greedy (p : N -> bool) (c : captures) :
  forall s fuel, length s <= fuel ->
    star_loop (m (Chr p)) true (fun s' c' => Some (s', c')) fuel s c
    = Some (drop_while p s, c).
Proof.
  induction s as [|y s IH]; intros fuel Hfuel.
  - destruct fuel; reflexivity.
  - destruct fuel as [|fuel]; [simpl in Hfuel; lia|].
    simpl. destruct (p y) eqn:Hy; [|reflexivity].
    assert (Hlt : (length s <? S (length s)) = true) by (apply Nat.ltb_lt; lia).
    simpl in Hlt. rewrite Hlt. rewrite IH by (simpl in Hfuel; lia).
    reflexivity.
Qed.

Lemma match_at_run (p : N -> bool) (s : jsstring) :
  match_at (plus true (Chr p)) s =
  match s with
  | x :: s' => if p x then Some (drop_while p s', []) else None
  | [] => None
  end.
Proof.
  destruct s as [|x s']; [reflexivity|].
  unfold match_at, plus. simpl. destruct (p x); [|reflexivity].
  apply star_class_greedy. lia.
Qed.

Lemma take_drop_length (p : N -> bool) (s : jsstring) :
  length s = length (take_while p s) + length (drop_while p s).
Proof.
  induction s as [|x s IH]; simpl; [reflexivity|].
  destruct (p x); simpl; lia.
Qed.

(** ** The sanitizer as list functions *)

Lemma replace_class_filter (l : list N) (s : jsstring) :
  replace_all (one_of l) [] s = filter (fun c => negb (mem c l)) s.
Proof.
  unfold replace_all, one_of.
  induction s as [|x s IH]; [reflexivity|].
  cbn [replace_all_from filter]. rewrite match_at_class.
  destruct (mem x l); cbn [negb].
  - replace (length (x :: s) - length s) with 1 by (cbn [length]; lia).
    simpl. exact IH.
  - rewrite IH. reflexivity.
Qed.

Lemma replace_runs_squeeze (s : jsstring) :
  replace_all_from (plus true ws) (js " ") 0 s = squeeze false s
  /\ replace_all_from (plus true ws) (js " ") (length (take_while is_ws s)) s
     = squeeze true s.
Proof.
  unfold ws.
  induction s as [|x s [IH0 IH1]]; [split; reflexivity|].
  assert (H0 : replace_all_from (plus true (Chr is_ws)) (js " ") 0 (x :: s)
               = squeeze false (x :: s)).
  { cbn [replace_all_from squeeze]. rewrite match_at_run.
    destruct (is_ws x).
    - replace (length (x :: s) - length (drop_while is_ws s))
        with (S (length (take_while is_ws s)))
        by (cbn [length]; pose proof (take_drop_length is_ws s); lia).
      rewrite IH1. reflexivity.
    - rewrite IH0. reflexivity. }
  split; [exact H0|].
  cbn [take_while]. destruct (is_ws x) eqn:Hx.
  - cbn [length replace_all_from squeeze]. rewrite Hx. exact IH1.
  - cbn [length]. rewrite H0. cbn [squeeze]. rewrite Hx. reflexivity.
Qed.

Lemma drop_while_snoc (p : N -> bool) (x : N) (l : jsstring) :
  drop_while p (l ++ [x]) =
  match drop_while p l with
  | [] => if p x then [] else [x]
  | r => r ++ [x]
  end.
Proof.
  induction l as [|y l IH]; simpl.
  - destruct (p x); reflexivity.
  - destruct (p y); [exact IH | reflexivity].
Qed.

Lemma rev_drop_while_rev (p : N -> bool) (s : jsstring) :
  rev (drop_while p (rev s)) = strip_end p s.
Proof.
  induction s as [|x s IH]; [reflexivity|].
  simpl. rewrite drop_while_snoc, <- IH.
  destruct (drop_while p (rev s)) as [|y r].
  - simpl. destruct (p x); reflexivity.
  - rewrite rev_app_distr. simpl.
    destruct (rev r ++ [y]) eqn:E; [|reflexivity].
    destruct (rev r); discriminate.
Qed.

Lemma trim_strip (s : jsstring) :
  trim s = strip_end is_ws (drop_while is_ws s).
Proof. unfold trim. apply rev_drop_while_rev. Qed.

Lemma sanitizeFilename_direct (x : jsstring) :
  sanitizeFilename x = trim (squeeze false (filter valid_char x)).
Proof.
  unfold sanitizeFilename. rewrite replace_class_filter.
  unfold replace_all. rewrite (proj1 (replace_runs_squeeze _)). reflexivity.
Qed.

Lemma head_drop_while (s : jsstring) : head_ws (drop_while is_ws s) = false.
Proof.
  induction s as [|x s IH]; [reflexivity|].
  simpl. destruct (is_ws x) eqn:Hx; [exact IH|]. simpl. exact Hx.
Qed.

Lemma drop_while_head (s : jsstring) :
  head_ws s = false -> drop_while is_ws s = s.
Proof.
  destruct s as [|x s]; [reflexivity|]. simpl. intros ->. reflexivity.
Qed.

Lemma strip_end_head (p : N -> bool) (s : jsstring) (y : N) (r : jsstring) :
  strip_end p s = y :: r -> exists t, s = y :: t.
Proof.
  destruct s as [|x s]; [discriminate|]. simpl.
  destruct (strip_end p s); [destruct (p x)|]; intros H; inversion H; eauto.
Qed.

Lemma head_strip_end (s : jsstring) :
  head_ws s = false -> head_ws (strip_end is_ws s) = false.
Proof.
  destruct s as [|x s]; [reflexivity|]. simpl. intros Hx.
  destruct (strip_end is_ws s); [rewrite Hx|]; simpl; exact Hx.
Qed.

Lemma single_spaced_drop_while (s : jsstring) :
  single_spaced s = true -> single_spaced (drop_while is_ws s) = true.
Proof.
  induction s as [|x s IH]; [reflexivity|]. intros H.
  simpl. destruct (is_ws x) eqn:Hx; [|exact H].
  apply IH. simpl in H. apply andb_prop in H. tauto.
Qed.

Lemma single_spaced_strip_end (s : jsstring) :
  single_spaced s = true -> single_spaced (strip_end is_ws s) = true.
Proof.
  induction s as [|x s IH]; [reflexivity|]. intros H.
  simpl in H. apply andb_prop in H. destruct H as [Hx Hs].
  specialize (IH Hs). simpl.
  destruct (strip_end is_ws s) as [|y r] eqn:E.
  - destruct (is_ws x) eqn:Hwx; [reflexivity|]. simpl. rewrite Hwx. reflexivity.
  - destruct (strip_end_head _ _ E) as [t ->].
    change (single_spaced (x :: y :: r))
      with ((if is_ws x then N.eqb x 32 && negb (is_ws y) else true)
            && single_spaced (y :: r)).
    rewrite IH. simpl in Hx. rewrite Hx. reflexivity.
Qed.

Lemma squeeze_spaced (s : jsstring) :
  single_spaced (squeeze false s) = true
  /\ single_spaced (squeeze true s) = true
  /\ head_ws (squeeze true s) = false.
Proof.
  induction s as [|x s (IH0 & IH1 & IH2)]; [repeat split|].
  simpl. destruct (is_ws x) eqn:Hx.
  - repeat split; try assumption.
    simpl. rewrite IH1, IH2. reflexivity.
  - simpl. rewrite Hx, IH0. repeat split.
Qed.

Lemma squeeze_fixed (s : jsstring) :
  single_spaced s = true ->
  squeeze false s = s /\ (head_ws s = false -> squeeze true s = s).
Proof.
  induction s as [|x s IH]; [split; reflexivity|]. intros H.
  simpl in H. apply andb_prop in H. destruct H as [Hx Hs].
  destruct (IH Hs) as [IH0 IH1]. simpl.
  destruct (is_ws x) eqn:Hwx.
  - apply andb_prop in Hx. destruct Hx as [Hx Hh].
    apply N.eqb_eq in Hx. apply negb_true_iff in Hh.
    split; [|discriminate]. rewrite (IH1 Hh), Hx. reflexivity.
  - rewrite IH0. split; reflexivity.
Qed.

Lemma single_spaced_split (a : jsstring) (c : N) (b : jsstring) :
  single_spaced (a ++ c :: b) = true -> is_ws c = true ->
  c = 32%N /\ head_ws b = false.
Proof.
  induction a as [|x a IH]; simpl; intros H Hc.
  - rewrite Hc in H. apply andb_prop in H. destruct H as [H _].
    apply andb_prop in H. destruct H as [H1 H2].
    apply N.eqb_eq in H1. apply negb_true_iff in H2. tauto.
  - apply andb_prop in H. destruct H as [_ H]. auto.
Qed.

Lemma squeeze_elements (b : bool) (s : jsstring) (c : N) :
  In c (squeeze b s) -> c = 32%N \/ In c s.
Proof.
  revert b. induction s as [|x s IH]; intros b; simpl; [tauto|].
  destruct (is_ws x); [destruct b|]; simpl; intros H.
  - apply IH in H. tauto.
  - destruct H as [H|H]; [auto|apply IH in H; tauto].
  - destruct H as [H|H]; [auto|apply IH in H; tauto].
Qed.

Lemma drop_while_elements (p : N -> bool) (s : jsstring) (c : N) :
  In c (drop_while p s) -> In c s.
Proof.
  induction s as [|x s IH]; simpl; [tauto|].
  destruct (p x); simpl; tauto.
Qed.

Lemma trim_elements (s : jsstring) (c : N) : In c (trim s) -> In c s.
Proof.
  unfold trim. intros H. apply in_rev in H.
  apply drop_while_elements in H. apply in_rev in H.
  apply drop_while_elements in H. exact H.
Qed.

Lemma filter_fixed (f : N -> bool) (s : jsstring) :
  (forall c, In c s -> f c = true) -> filter f s = s.
Proof.
  induction s as [|x s IH]; [reflexivity|]. intros H. simpl.
  rewrite (H x) by (left; reflexivity).
  rewrite IH by (intros c Hc; apply H; right; exact Hc). reflexivity.
Qed.

Lemma trim_fixed (s : jsstring) :
  head_ws s = false -> head_ws (rev s) = false -> trim s = s.
Proof.
  intros H1 H2. unfold trim.
  rewrite (drop_while_head _ H1), (drop_while_head _ H2). apply rev_involutive.
Qed.

(** The shape of every sanitized name: none of the nine characters, single
    spaces only, and no whitespace at either end. *)
Lemma sanitizeFilename_shape (x : jsstring) :
  (forall c, In c (sanitizeFilename x) -> valid_char c = true)
  /\ single_spaced (sanitizeFilename x) = true
  /\ head_ws (sanitizeFilename x) = false
  /\ head_ws (rev (sanitizeFilename x)) = false.
Proof.
  rewrite sanitizeFilename_direct.
  set (q := squeeze false (filter valid_char x)).
  assert (Hq : single_spaced q = true) by apply squeeze_spaced.
  repeat split.
  - intros c Hc. apply trim_elements in Hc. apply squeeze_elements in Hc.
    destruct Hc as [-> | Hc]; [reflexivity|].
    apply filter_In in Hc. tauto.
  - rewrite trim_strip.
    apply single_spaced_strip_end, single_spaced_drop_while, Hq.
  - rewrite trim_strip. apply head_strip_end, head_drop_while.
  - unfold trim. rewrite rev_involutive. apply head_drop_while.
Qed.

(** C2. The filename sanitizer is a function of its argument alone; applying
    it twice gives what applying it once gives; its result is the argument
    with the nine characters removed, each run of whitespace replaced by
    one space, and the ends trimmed; hence the result holds none of the nine
    characters, any whitespace character in it is a space that is not
    followed by whitespace, and it neither starts nor ends with
    whitespace. *)
Theorem sanitizeFilename_idempotent_clean (x : jsstring) :
  sanitizeFilename (sanitizeFilename x) = sanitizeFilename x
  /\ sanitizeFilename x = trim (squeeze false (filter valid_char x))
  /\ (forall c, In c (sanitizeFilename x) -> mem c invalid_chars = false)
  /\ (forall a c b, sanitizeFilename x = a ++ c :: b -> is_ws c = true ->
        c = 32%N /\ head_ws b = false)
  /\ head_ws (sanitizeFilename x) = false
  /\ head_ws (rev (sanitizeFilename x)) = false.
Proof.
  destruct (sanitizeFilename_shape x) as (Hv & Hs & Hh & Hl).
  split; [|split; [|split; [|split; [|split]]]].
  - rewrite (sanitizeFilename_direct (sanitizeFilename x)).
    rewrite (filter_fixed _ _ Hv).
    rewrite (proj1 (squeeze_fixed _ Hs)).
    apply trim_fixed; assumption.
  - apply sanitizeFilename_direct.
  - intros c Hc. apply Hv in Hc. apply negb_true_iff in Hc. exact Hc.
  - intros a c b E Hc. rewrite E in Hs.
    apply (single_spaced_split _ _ _ Hs Hc).
  - exact Hh.
  - exact Hl.
Qed.

(** ** The guards of the two extractions *)

Lemma str_eqb_eq (a b : jsstring) : str_eqb a b = true <-> a = b.
Proof.
  revert b. induction a as [|x a IH]; intros [|y b]; simpl;
    try (split; (discriminate || reflexivity)).
  rewrite andb_true_iff, N.eqb_eq, IH.
  split; [intros [-> ->]; reflexivity | intros E; inversion E; auto].
Qed.

Lemma str_eqb_refl (a : jsstring) : str_eqb a a = true.
Proof. apply str_eqb_eq. reflexivity. Qed.


Lemma try_catch_answers (h : Host) (c : M envelope) :
  exists events result,
    try_catch c (fun error => ret (Failure (message_of h error)))
    = (events, Return result)
    /\ (forall error, snd c = Throw error -> result = Failure (message_of h error))
    /\ (forall r, snd c = Return r -> result = r)
    /\ events = fst c.
Proof.
  destruct c as [t [r|e]]; simpl.
  - exists t, r. repeat split; [discriminate | congruence].
  - exists (t ++ []), (Failure (message_of h e)).
    repeat split; [congruence | discriminate | apply app_nil_r].
Qed.

(** C10. Whatever the request, the handler returns an envelope and does not
    throw: what the extraction returns is passed on, what it throws comes
    back as a failure envelope with the error's message, and a type other
    than the two known ones is answered with the invalid-type failure
    before anything has run; a request for extraction gets this envelope as
    the listener's response. *)
Theorem handler_always_answers (h : Host) (w : window) (rq : request) :
  exists events result,
    handleDataExtraction h w (type rq) (request_createArtistFolder rq)
    = (events, Return result)
    /\ (is_string (action rq) (js "extractData") = true ->
        listener h w rq = Some result)
    /\ (forall error,
          snd (dispatch h w (type rq) (request_createArtistFolder rq)) = Throw error ->
          result = Failure (message_of h error))
    /\ (forall r,
          snd (dispatch h w (type rq) (request_createArtistFolder rq)) = Return r ->
          result = r)
    /\ (is_string (type rq) (js "single") = false ->
        is_string (type rq) (js "profile") = false ->
        events = [] /\ result = Failure invalid_type).
Proof.
  unfold listener, handleDataExtraction.
  destruct (try_catch_answers h
              (dispatch h w (type rq) (request_createArtistFolder rq)))
    as (events & result & E & Hthrow & Hret & Hev).
  exists events, result. rewrite E. repeat split; try assumption.
  - intros ->. reflexivity.
  - subst events. unfold dispatch. rewrite H, H0. reflexivity.
  - apply (Hthrow (Error invalid_type)). unfold dispatch. rewrite H, H0.
    reflexivity.
Qed.

Lemma handler_always_answers_witness :
  exists events result,
    handleDataExtraction reference_host
      {| location_href := js "https://traktrain.com/";
         doc := {| title := []; outerHTML := []; scripts := [];
                   meta_artist := None; h1 := None; audio_sources := [];
                   player_info_elements := [] |};
         fetch_url := fun _ => None |}
      (VStr (js "album")) (VBool true)
    = (events, Return result)
    /\ events = [] /\ result = Failure invalid_type.
Proof.
  destruct (handler_always_answers reference_host
              {| location_href := js "https://traktrain.com/";
                 doc := {| title := []; outerHTML := []; scripts := [];
                           meta_artist := None; h1 := None; audio_sources := [];
                           player_info_elements := [] |};
                 fetch_url := fun _ => None |}
              {| action := VStr (js "extractData");
                 type := VStr (js "album");
                 request_createArtistFolder := VBool true |})
    as (events & result & E & _ & _ & _ & H).
  exists events, result. split; [exact E|]. apply H; reflexivity.
Defined.

(** C4. A profile extraction whose address gives no artist (no first
    non-empty segment of the path) fails with the artist error before any
    locator method has been started; the handler answers with the failure
    envelope, which holds no tracks. *)
Theorem profile_without_artist_fails (h : Host) (w : window) (flag : value) :
  extractArtistFromUrl h (location_href w) = None ->
  extractProfileBeats h w (location_href w) flag
  = ([], Throw (Error artist_missing))
  /\ handleDataExtraction h w (VStr (js "profile")) flag
     = ([], Return (Failure artist_missing)).
Proof.
  intros H.
  assert (E : extractProfileBeats h w (location_href w) flag
              = ([], Throw (Error artist_missing))).
  { unfold extractProfileBeats. rewrite H. reflexivity. }
  split; [exact E|].
  unfold handleDataExtraction, dispatch.
  change (is_string (VStr (js "profile")) (js "single")) with false.
  change (is_string (VStr (js "profile")) (js "profile")) with true.
  cbv iota. rewrite E. reflexivity.
Qed.

Lemma profile_without_artist_fails_witness :
  extractArtistFromUrl reference_host (location_href root_profile_page) = None
  /\ handleDataExtraction reference_host root_profile_page (VStr (js "profile")) no_flag
     = ([], Return (Failure artist_missing)).
Proof.
  split; [reflexivity|].
  apply (profile_without_artist_fails reference_host root_profile_page no_flag).
  reflexivity.
Defined.

Lemma extractArtistFromUrl_nonempty (h : Host) (u a : jsstring) :
  extractArtistFromUrl h u = Some a -> a <> [].
Proof.
  unfold extractArtistFromUrl.
  destruct (URL_pathname h u) as [pathname|]; [|discriminate].
  destruct (filter _ _) as [|part parts] eqn:E; [discriminate|].
  intros H. inversion H; subst.
  assert (Hin : In a (a :: parts)) by (left; reflexivity).
  rewrite <- E in Hin. apply filter_In in Hin. destruct Hin as [_ Hin].
  destruct a; [discriminate|discriminate].
Qed.

Lemma falsy_artist (h : Host) (u : jsstring) :
  falsy (extractArtistFromUrl h u) = true <-> extractArtistFromUrl h u = None.
Proof.
  destruct (extractArtistFromUrl h u) as [a|] eqn:E.
  - apply extractArtistFromUrl_nonempty in E. destruct a; [congruence|].
    simpl. split; discriminate.
  - simpl. tauto.
Qed.

(** C3, as stated, fails: on a profile page whose address has no artist
    segment and whose HTML has no base URL, the failure is the artist error,
    not the base-URL error. *)
Lemma missing_base_url_other_error :
  extractAwsBaseUrl (outerHTML (doc root_profile_page)) = None
  /\ exists message,
       handleDataExtraction reference_host root_profile_page
         (VStr (js "profile")) no_flag
       = ([], Return (Failure message))
       /\ ~ base_url_not_found message.
Proof.
  split; [reflexivity|]. exists artist_missing. split; [reflexivity|].
  intros [H|H]; discriminate H.
Qed.

(** C3, amended. On either page type, when the HTML holds no base URL the
    extraction fails before any locator method has been started, whatever
    track attributes the page holds.  The failure is the base-URL error
    whenever the guard that comes first has passed: on a single-track page
    the short link, if the address is one, has been resolved; on a profile
    page the address has given an artist. *)
Theorem missing_base_url_fails_first (h : Host) (w : window) (type flag : value) :
  extractAwsBaseUrl (outerHTML (doc w)) = None ->
  type = VStr (js "single") \/ type = VStr (js "profile") ->
  exists message,
    handleDataExtraction h w type flag = ([], Return (Failure message))
    /\ (type = VStr (js "single") ->
        (includes (location_href w) (js "traktra.in/t/") = true ->
         fetch_url w (location_href w) <> None) ->
        message = aws_missing_single)
    /\ (type = VStr (js "profile") ->
        extractArtistFromUrl h (location_href w) <> None ->
        message = aws_missing_profile).
Proof.
  intros Hbase [-> | ->]; unfold handleDataExtraction, dispatch.
  - change (is_string (VStr (js "single")) (js "single")) with true. cbv iota.
    unfold extractSingleBeat.
    destruct (includes (location_href w) (js "traktra.in/t/")) eqn:Hshort.
    + unfold followRedirect.
      destruct (fetch_url w (location_href w)) as [final|] eqn:Hfetch.
      * rewrite Hbase. exists aws_missing_single. repeat split. discriminate.
      * eexists. split; [reflexivity|]. split; [|discriminate].
        intros _ H. exfalso. apply H; reflexivity.
    + rewrite Hbase. exists aws_missing_single. repeat split. discriminate.
  - change (is_string (VStr (js "profile")) (js "single")) with false.
    change (is_string (VStr (js "profile")) (js "profile")) with true. cbv iota.
    unfold extractProfileBeats.
    destruct (falsy (extractArtistFromUrl h (location_href w))) eqn:Hartist.
    + apply falsy_artist in Hartist.
      eexists. split; [reflexivity|]. split; [discriminate|].
      intros _ H. contradiction.
    + rewrite Hbase. exists aws_missing_profile. repeat split. discriminate.
Qed.

Lemma missing_base_url_fails_first_witness :
  extractAwsBaseUrl (outerHTML (doc artist_page_without_base)) = None
  /\ handleDataExtraction reference_host artist_page_without_base
       (VStr (js "profile")) no_flag
     = ([], Return (Failure aws_missing_profile)).
Proof.
  split; [reflexivity|].
  destruct (missing_base_url_fails_first reference_host artist_page_without_base
              no_flag eq_refl (or_intror eq_refl))
    as (message & E & _ & H).
  rewrite E, (H eq_refl); [reflexivity | discriminate].
Defined.

(** ** What a successful match says *)

Lemma or_else_some {A} (a b : option A) (x : A) :
  or_else a b = Some x -> a = Some x \/ b = Some x.
Proof. destruct a; simpl; auto. Qed.

Lemma star_loop_sound (g : bool) (r : regex) (k : cont) :
  (forall s c k' res, m r s c k' = Some res ->
     exists s' c', matches r s c s' c' /\ k' s' c' = Some res) ->
  forall fuel s c res,
    star_loop (m r) g k fuel s c = Some res ->
    exists s' c', matches (Star g r) s c s' c' /\ k s' c' = Some res.
Proof.
  intros IHr. induction fuel as [|fuel IH]; intros s c res H.
  - simpl in H. destruct g; simpl in H.
    + exists s, c. split; [constructor | exact H].
    + apply or_else_some in H. destruct H as [H|H]; [|discriminate].
      exists s, c. split; [constructor | exact H].
  - cbn [star_loop] in H.
    assert (Hagain : forall res',
      m r s c (fun s' c' =>
        if length s' <? length s then star_loop (m r) g k fuel s' c' else None)
      = Some res' ->
      exists s' c', matches (Star g r) s c s' c' /\ k s' c' = Some res').
    { intros res' H'. apply IHr in H'. destruct H' as (s1 & c1 & Hm & Hk).
      destruct (length s1 <? length s) eqn:Hlt; [|discriminate].
      apply Nat.ltb_lt in Hlt. apply IH in Hk.
      destruct Hk as (s2 & c2 & Hm2 & Hk2).
      exists s2, c2. split; [|exact Hk2].
      eapply matches_star_step; eassumption. }
    destruct g; apply or_else_some in H; destruct H as [H|H]; auto;
      exists s, c; (split; [constructor | exact H]).
Qed.

Lemma m_sound (r : regex) :
  forall s c k res, m r s c k = Some res ->
    exists s' c', matches r s c s' c' /\ k s' c' = Some res.
Proof.
  induction r as [|p|r1 IH1 r2 IH2|r1 IH1 r2 IH2|g r IH|i r IH];
    intros s c k res H; simpl in H.
  - exists s, c. split; [constructor | exact H].
  - destruct s as [|x s]; [discriminate|].
    destruct (p x) eqn:Hp; [|discriminate].
    exists s, c. split; [constructor; exact Hp | exact H].
  - apply IH1 in H. destruct H as (s1 & c1 & Hm1 & H).
    apply IH2 in H. destruct H as (s2 & c2 & Hm2 & H).
    exists s2, c2. split; [econstructor; eassumption | exact H].
  - apply or_else_some in H. destruct H as [H|H].
    + apply IH1 in H. destruct H as (s' & c' & Hm & H).
      exists s', c'. split; [apply matches_alt_left; exact Hm | exact H].
    + apply IH2 in H. destruct H as (s' & c' & Hm & H).
      exists s', c'. split; [apply matches_alt_right; exact Hm | exact H].
  - eapply star_loop_sound; eassumption.
  - apply IH in H. destruct H as (s' & c' & Hm & H).
    eexists _, _. split; [apply matches_group; exact Hm | exact H].
Qed.

(** The matcher looks at its continuation only on inputs that are not
    longer than its own. *)
Lemma star_loop_ext (body : jsstring -> captures -> cont -> option (jsstring * captures))
  (g : bool) :
  (forall s c k k',
     (forall s' c', length s' <= length s -> k s' c' = k' s' c') ->
     body s c k = body s c k') ->
  forall fuel s c k k',
    (forall s' c', length s' <= length s -> k s' c' = k' s' c') ->
    star_loop body g k fuel s c = star_loop body g k' fuel s c.
Proof.
  intros Hbody. induction fuel as [|fuel IH]; intros s c k k' Hk.
  - simpl. rewrite (Hk s c) by lia. reflexivity.
  - cbn [star_loop]. rewrite (Hk s c) by lia.
    rewrite (Hbody s c _
               (fun s' c' => if length s' <? length s
                             then star_loop body g k' fuel s' c' else None)).
    + reflexivity.
    + intros s' c' Hle. destruct (length s' <? length s) eqn:Hlt; [|reflexivity].
      apply Nat.ltb_lt in Hlt. apply IH. intros s2 c2 H2. apply Hk. lia.
Qed.

Lemma m_ext (r : regex) :
  forall s c k k',
    (forall s' c', length s' <= length s -> k s' c' = k' s' c') ->
    m r s c k = m r s c k'.
Proof.
  induction r as [|p|r1 IH1 r2 IH2|r1 IH1 r2 IH2|g r IH|i r IH];
    intros s c k k' Hk; simpl.
  - apply Hk. lia.
  - destruct s as [|x s]; [reflexivity|].
    destruct (p x); [|reflexivity]. apply Hk. simpl. lia.
  - apply IH1. intros s1 c1 H1. apply IH2. intros s2 c2 H2. apply Hk. lia.
  - rewrite (IH1 s c k k' Hk), (IH2 s c k k' Hk). reflexivity.
  - apply star_loop_ext; [exact IH | exact Hk].
  - apply IH. intros s' c' H'. apply Hk, H'.
Qed.

Lemma m_fails (r : regex) (s : jsstring) (c : captures) :
  m r s c (fun _ _ => None) = None.
Proof.
  destruct (m r s c (fun _ _ => None)) as [res|] eqn:E; [|reflexivity].
  apply m_sound in E. destruct E as (s' & c' & _ & E). discriminate.
Qed.

(** The counter of a starred pattern is large enough: from [length s] on,
    more of it changes nothing. *)
Lemma star_loop_fuel (r : regex) (g : bool) (k : cont) :
  forall n s c fuel,
    length s <= n -> length s <= fuel ->
    star_loop (m r) g k fuel s c = star_loop (m r) g k (length s) s c.
Proof.
  induction n as [|n IH]; intros s c fuel Hs Hf.
  - destruct s; [|simpl in Hs; lia]. destruct fuel; [reflexivity|].
    cbn [star_loop length].
    rewrite (m_ext r [] c _ (fun _ _ => None)), m_fails; [reflexivity|].
    intros s' c' _. destruct (length s' <? 0) eqn:E; [|reflexivity].
    apply Nat.ltb_lt in E. lia.
  - destruct (length s) as [|l] eqn:El.
    + destruct s; [|discriminate]. destruct fuel; [reflexivity|].
      cbn [star_loop length].
      rewrite (m_ext r [] c _ (fun _ _ => None)), m_fails; [reflexivity|].
      intros s' c' _. destruct (length s' <? 0) eqn:E; [|reflexivity].
      apply Nat.ltb_lt in E. lia.
    + destruct fuel as [|fuel]; [lia|]. cbn [star_loop]. rewrite El.
      rewrite (m_ext r s c _
                 (fun s' c' => if length s' <? S l
                               then star_loop (m r) g k l s' c' else None)).
      * reflexivity.
      * intros s' c' _. destruct (length s' <? S l) eqn:E; [|reflexivity].
        apply Nat.ltb_lt in E.
        rewrite (IH s' c' fuel) by lia. rewrite (IH s' c' l) by lia.
        reflexivity.
Qed.

(** The equation of a starred pattern: one more iteration that consumes
    something, or the continuation, tried in the order the greediness
    asks for. *)
Lemma star_unfold (g : bool) (r : regex) (s : jsstring) (c : captures) (k : cont) :
  m (Star g r) s c k =
  let again :=
    m r s c (fun s' c' =>
      if length s' <? length s then m (Star g r) s' c' k else None) in
  if g then or_else again (k s c) else or_else (k s c) again.
Proof.
  cbn [m]. cbv zeta.
  assert (E : m r s c (fun s' c' =>
                if length s' <? length s
                then star_loop (m r) g k (length s') s' c' else None)
              = match length s with
                | O => None
                | S f =>
                    m r s c (fun s' c' =>
                      if length s' <? length s
                      then star_loop (m r) g k f s' c' else None)
                end).
  { destruct (length s) as [|l] eqn:El.
    - rewrite (m_ext r s c _ (fun _ _ => None)), m_fails; [reflexivity|].
      intros s' c' _. destruct (length s' <? 0) eqn:E; [|reflexivity].
      apply Nat.ltb_lt in E. lia.
    - apply m_ext. intros s' c' _.
      destruct (length s' <? S l) eqn:E; [|reflexivity].
      apply Nat.ltb_lt in E. symmetry.
      apply (star_loop_fuel r g k (n := l)); lia. }
  rewrite E. destruct s as [|x s']; reflexivity.
Qed.

Lemma matches_shorter r s c s' c' :
  matches r s c s' c' ->
  length s' <= length s /\ (nullable r = false -> length s' < length s).
Proof.
  induction 1; simpl.
  - split; [lia | discriminate].
  - split; intros; lia.
  - destruct IHmatches1 as [A1 B1], IHmatches2 as [A2 B2].
    split; [lia|]. intros Hn. apply andb_false_iff in Hn.
    destruct Hn as [Hn|Hn]; [specialize (B1 Hn) | specialize (B2 Hn)]; lia.
  - destruct IHmatches as [A B]. split; [exact A|].
    intros Hn. apply orb_false_iff in Hn. tauto.
  - destruct IHmatches as [A B]. split; [exact A|].
    intros Hn. apply orb_false_iff in Hn. tauto.
  - split; [lia | discriminate].
  - split; [lia | discriminate].
  - exact IHmatches.
Qed.

Lemma matches_groups r s c s' c' :
  matches r s c s' c' -> groups_consume r = true ->
  exists new, c' = new ++ c /\ Forall (fun e => snd e <> []) new.
Proof.
  induction 1; simpl; intros Hg.
  - exists []. split; [reflexivity | constructor].
  - exists []. split; [reflexivity | constructor].
  - apply andb_prop in Hg. destruct Hg as [Hg1 Hg2].
    destruct (IHmatches1 Hg1) as (n1 & -> & F1).
    destruct (IHmatches2 Hg2) as (n2 & -> & F2).
    exists (n2 ++ n1). split; [apply app_assoc | apply Forall_app; tauto].
  - apply andb_prop in Hg. tauto.
  - apply andb_prop in Hg. tauto.
  - exists []. split; [reflexivity | constructor].
  - destruct (IHmatches1 Hg) as (n1 & -> & F1).
    destruct (IHmatches2 Hg) as (n2 & -> & F2).
    exists (n2 ++ n1). split; [apply app_assoc | apply Forall_app; tauto].
  - apply andb_prop in Hg. destruct Hg as [Hn Hg].
    apply negb_true_iff in Hn.
    destruct (IHmatches Hg) as (n1 & -> & F1).
    exists ((i, firstn (length s - length s') s) :: n1).
    split; [reflexivity|]. constructor; [|exact F1]. simpl.
    apply matches_shorter in H. destruct H as [_ H]. specialize (H Hn).
    destruct s as [|x s]; [simpl in H; lia|].
    destruct (length (x :: s) - length s') eqn:E; [lia | discriminate].
Qed.

Lemma capture_in (i : nat) (c : captures) (t : jsstring) :
  capture i c = Some t -> In (i, t) c.
Proof.
  induction c as [|[j v] c IH]; simpl; [discriminate|].
  destruct (Nat.eqb i j) eqn:E.
  - apply Nat.eqb_eq in E. intros H. inversion H; subst. left; reflexivity.
  - intros H. right. apply IH, H.
Qed.

Lemma search_from_groups (r : regex) :
  groups_consume r = true ->
  forall s n mt i t,
    search_from r n s = Some mt -> capture i (groups mt) = Some t -> t <> [].
Proof.
  intros Hg. induction s as [|x s IH]; intros n mt i t H Hc;
    cbn [search_from] in H;
    (destruct (match_at r _) as [[rest c]|] eqn:E;
     [ inversion H; subst; simpl in Hc; apply capture_in in Hc;
       unfold match_at in E; apply m_sound in E;
       destruct E as (s' & c' & Hm & Hk); inversion Hk; subst;
       destruct (matches_groups Hm Hg) as (new & -> & F);
       rewrite app_nil_r in Hc; rewrite Forall_forall in F;
       apply (F _ Hc)
     | ]).
  - discriminate.
  - eapply IH; eassumption.
Qed.

(** A base URL that has been found is not empty. *)
Lemma extractAwsBaseUrl_nonempty (html base : jsstring) :
  extractAwsBaseUrl html = Some base -> base <> [].
Proof.
  unfold extractAwsBaseUrl, search.
  destruct (search_from aws_pattern 0 html) as [mt|] eqn:E; [|discriminate].
  intros H. eapply (@search_from_groups aws_pattern); [reflexivity | exact E | exact H].
Qed.

Lemma falsy_base (html : jsstring) :
  falsy (extractAwsBaseUrl html) = true <-> extractAwsBaseUrl html = None.
Proof.
  destruct (extractAwsBaseUrl html) as [a|] eqn:E.
  - apply extractAwsBaseUrl_nonempty in E. destruct a; [congruence|].
    simpl. split; discriminate.
  - simpl. tauto.
Qed.

(** ** Method 1 of the profile extraction *)

Lemma add_track_gives (h : Host) (base a : jsstring) (v : value) (t : track)
  (tracks : list track) :
  gives_track h base a v t -> add_track h base a v tracks = Return (tracks ++ [t]).
Proof.
  intros H. destruct H as [fields n s text Hn Hne Hs Ht Htext].
  unfold add_track, get. rewrite Hs, Hn. cbn [outcome_bind]. rewrite Ht.
  destruct n; [congruence|]. cbn [truthy]. unfold concat_url. rewrite Htext.
  reflexivity.
Qed.

Lemma add_track_passed (h : Host) (base a : jsstring) (v : value)
  (tracks : list track) :
  passed_over v -> add_track h base a v tracks = Return tracks.
Proof.
  intros (H1 & H2 & H). unfold add_track. unfold member in H.
  destruct (get v (js "src")) as [s|e] eqn:Es;
    [|destruct v; try congruence; discriminate].
  cbn [outcome_bind]. destruct (truthy s); [|reflexivity].
  destruct H as [H|H]; [discriminate|].
  destruct (get v (js "name")) as [n|e] eqn:En;
    [|destruct v; try congruence; discriminate].
  cbn [outcome_bind]. rewrite H. reflexivity.
Qed.

Lemma add_track_breaks (h : Host) (base a : jsstring) (v : value)
  (tracks : list track) :
  breaks h v -> exists e, add_track h base a v tracks = Throw e.
Proof.
  intros [->|[->|(Hs & Hn & H)]]; [eexists; reflexivity | eexists; reflexivity|].
  unfold add_track. unfold member in Hs, Hn, H.
  destruct (get v (js "src")) as [s|e] eqn:Es; [|discriminate].
  destruct (get v (js "name")) as [n|e] eqn:En; [|discriminate].
  cbn [outcome_bind]. rewrite Hs. cbn [outcome_bind]. rewrite Hn.
  unfold concat_url.
  destruct (to_string h s) as [text|e] eqn:Et; cbn [outcome_bind];
    [|eexists; reflexivity].
  destruct H as [H|(e & H)]; [|discriminate].
  destruct n; try (eexists; reflexivity). exfalso. apply (H s0). reflexivity.
Qed.

(** Every candidate is of one of the three kinds. *)
Lemma candidate_cases (h : Host) (base a : jsstring) (v : value) :
  (exists t, gives_track h base a v t) \/ passed_over v \/ breaks h v.
Proof.
  destruct v as [| |b|n|s|items|fields];
    try (right; right; unfold breaks; tauto);
    try (right; left; unfold passed_over; repeat split; try discriminate;
         left; reflexivity).
  destruct (truthy (member (js "src") (VObj fields))) eqn:Hs;
    [|right; left; repeat split; try discriminate; tauto].
  destruct (truthy (member (js "name") (VObj fields))) eqn:Hn;
    [|right; left; repeat split; try discriminate; tauto].
  destruct (to_string h (member (js "src") (VObj fields))) as [text|e] eqn:Et;
    [|right; right; right; right; repeat split; try assumption; right; eauto].
  destruct (member (js "name") (VObj fields)) as [| |b|n|n|items|fields'] eqn:En;
    try discriminate;
    try (right; right; right; right; rewrite En; repeat split; try assumption;
         left; intros ? ?; discriminate).
  left. unfold member in *. cbn [get] in *.
  destruct (lookup_last (js "src") fields) as [s|] eqn:Ls; [|discriminate].
  destruct (lookup_last (js "name") fields) as [x|] eqn:Ln; [|discriminate].
  subst x. eexists. eapply gives_track_of; try eassumption.
  destruct n; [discriminate | discriminate].
Qed.

Lemma contributes_total (h : Host) (base a playerInfo : jsstring) :
  exists found, contributes h base a playerInfo found.
Proof.
  destruct (JSON_parse playerInfo) as [v|] eqn:E;
    [|eexists; apply malformed_attribute; exact E].
  destruct (candidate_cases h base a v) as [(t & H)|[H|H]]; eexists.
  - eapply valid_attribute; eassumption.
  - eapply incomplete_attribute; eassumption.
  - eapply unusable_attribute; eassumption.
Qed.

Lemma scan_element_contributes (h : Host) (awsBaseUrl artist playerInfo : jsstring)
  (found tracks : list track) :
  contributes h awsBaseUrl artist playerInfo found ->
  scan_element h awsBaseUrl artist tracks playerInfo = tracks ++ found.
Proof.
  intros H. unfold scan_element.
  assert (Hnil : JSON_parse [] = None) by reflexivity.
  destruct playerInfo as [|c playerInfo]; cbn [is_empty].
  - inversion H; subst; try congruence. rewrite app_nil_r. reflexivity.
  - inversion H as [e v t Hp Hg|e Hp|e v Hp Hv|e v Hp Hv]; subst; rewrite Hp.
    + rewrite (add_track_gives tracks Hg). reflexivity.
    + rewrite app_nil_r. reflexivity.
    + rewrite (add_track_passed h awsBaseUrl artist tracks Hv), app_nil_r.
      reflexivity.
    + destruct (add_track_breaks awsBaseUrl artist tracks Hv) as (e & ->).
      rewrite app_nil_r. reflexivity.
Qed.

Lemma profile_method1_contributions (h : Host) (awsBaseUrl artist : jsstring)
  (elements : list jsstring) (found : list (list track)) :
  Forall2 (contributes h awsBaseUrl artist) elements found ->
  forall tracks,
    profile_method1 h awsBaseUrl artist elements tracks = tracks ++ concat found.
Proof.
  unfold profile_method1. induction 1 as [|e f es fs He _ IH]; intros tracks; simpl.
  - rewrite app_nil_r. reflexivity.
  - rewrite (scan_element_contributes tracks He), IH, app_assoc. reflexivity.
Qed.

(** C8. On a profile page each element with the attribute is parsed on its
    own, and every element is of one of four kinds: a valid one adds its
    track, with the sanitized name and the base URL before the text of its
    source; one whose text does not parse, one whose parsed value lacks a
    source or a name (missing, null, empty, or not an object at all), and
    one on whose value the loop body throws add nothing and stop nothing.
    The first method yields the tracks of the valid elements in document
    order, and when there is at least one the extraction succeeds with
    exactly these and starts no other method. *)
Theorem attribute_scan_skips_bad_elements (h : Host) (w : window) (flag : value)
  (a base : jsstring) :
  extractArtistFromUrl h (location_href w) = Some a ->
  extractAwsBaseUrl (outerHTML (doc w)) = Some base ->
  (forall playerInfo, exists found, contributes h base a playerInfo found)
  /\ forall found,
       Forall2 (contributes h base a) (player_info_elements (doc w)) found ->
       profile_method1 h base a (player_info_elements (doc w)) [] = concat found
       /\ (concat found <> [] ->
           handleDataExtraction h w (VStr (js "profile")) flag
           = ([Method 1],
              Return (Success {| tracks := concat found;
                                 artist := a;
                                 createArtistFolder := flag |}))).
Proof.
  intros Ha Hb. split; [intros e; apply contributes_total|].
  intros found Hf.
  pose proof (profile_method1_contributions Hf []) as Hm. cbn [app] in Hm.
  split; [exact Hm|]. intros Hne.
  unfold handleDataExtraction, dispatch.
  change (is_string (VStr (js "profile")) (js "single")) with false.
  change (is_string (VStr (js "profile")) (js "profile")) with true. cbv iota.
  unfold extractProfileBeats.
  destruct (falsy (extractArtistFromUrl h (location_href w))) eqn:Fa;
    [apply falsy_artist in Fa; congruence|].
  destruct (falsy (extractAwsBaseUrl (outerHTML (doc w)))) eqn:Fb;
    [apply falsy_base in Fb; congruence|].
  rewrite Ha, Hb. unfold locate_profile. rewrite Hm.
  destruct (concat found) as [|t ts] eqn:E; [congruence|]. reflexivity.
Qed.

Lemma attribute_scan_skips_bad_elements_witness :
  handleDataExtraction reference_host mixed_profile_page (VStr (js "profile")) no_flag
  = ([Method 1],
     Return (Success {| tracks := mixed_profile_tracks;
                        artist := js "someartist";
                        createArtistFolder := no_flag |})).
Proof.
  refine (proj2 (proj2 (@attribute_scan_skips_bad_elements reference_host
                          mixed_profile_page no_flag
                          (js "someartist") (js "https://cdn.example.com/")
                          eq_refl eq_refl)
                  [ [ {| track_name := js "First one";
                         url := js "https://cdn.example.com/a/1.mp3";
                         track_artist := js "someartist" |} ];
                    [ {| track_name := js "Second";
                         url := js "https://cdn.example.com/a/2.mp3";
                         track_artist := js "someartist" |} ];
                    [];
                    [ {| track_name := js "Third beat";
                         url := js "https://cdn.example.com/a/3.mp3";
                         track_artist := js "someartist" |} ] ] _) _).
  - apply Forall2_cons;
      [ eapply valid_attribute;
        [ reflexivity
        | apply (@gives_track_of reference_host (js "https://cdn.example.com/")
                   (js "someartist")
                   [(js "name", VStr (js "First: one")); (js "src", VStr (js "a/1.mp3"))]
                   (js "First: one") (VStr (js "a/1.mp3")) (js "a/1.mp3"));
          (reflexivity || discriminate) ] | ].
    apply Forall2_cons;
      [ eapply valid_attribute;
        [ reflexivity
        | apply (@gives_track_of reference_host (js "https://cdn.example.com/")
                   (js "someartist")
                   [(js "name", VStr (js "Second")); (js "src", VStr (js "a/2.mp3"))]
                   (js "Second") (VStr (js "a/2.mp3")) (js "a/2.mp3"));
          (reflexivity || discriminate) ] | ].
    apply Forall2_cons; [ apply malformed_attribute; reflexivity | ].
    apply Forall2_cons;
      [ eapply valid_attribute;
        [ reflexivity
        | apply (@gives_track_of reference_host (js "https://cdn.example.com/")
                   (js "someartist")
                   [(js "name", VStr (js "  Third   beat ")); (js "src", VStr (js "a/3.mp3"))]
                   (js "  Third   beat ") (VStr (js "a/3.mp3")) (js "a/3.mp3"));
          (reflexivity || discriminate) ] | ].
    apply Forall2_nil.
  - discriminate.
Defined.

(** ** What a successful extraction returns *)

Lemma fold_left_invariant {A B} (Q : A -> Prop) (f : A -> B -> A) (l : list B) :
  (forall acc x, Q acc -> Q (f acc x)) ->
  forall init, Q init -> Q (fold_left f l init).
Proof.
  intros Hf. induction l as [|x l IH]; intros init Hi; simpl; auto.
Qed.

Lemma try_catch_success (h : Host) (c : M envelope) (events : list event) (d : data) :
  try_catch c (fun error => ret (Failure (message_of h error)))
  = (events, Return (Success d)) ->
  c = (events, Return (Success d)).
Proof.
  destruct c as [t [r|e]]; simpl; intros H; inversion H; reflexivity.
Qed.

Lemma single_success (h : Host) (w : window) (u : jsstring) (flag : value)
  (events : list event) (d : data) :
  extractSingleBeat h w u flag = (events, Return (Success d)) ->
  exists base realUrl info rest sanitized,
    extractAwsBaseUrl (outerHTML (doc w)) = Some base
    /\ snd (locate_single (doc w) realUrl (outerHTML (doc w)) base)
       = Return (Some info)
    /\ to_string h (src info) = Return rest
    /\ sanitize (name info) = Return sanitized
    /\ d = {| tracks := [ {| track_name := sanitized;
                             url := base ++ rest;
                             track_artist := single_artist h (doc w) realUrl |} ];
              artist := single_artist h (doc w) realUrl;
              createArtistFolder := flag |}.
Proof.
  unfold extractSingleBeat. intros H.
  set (first := if includes u (js "traktra.in/t/") then followRedirect w u else ret u) in H.
  unfold bind at 1 in H.
  destruct first as [t0 [realUrl|e]]; [|discriminate].
  destruct (extractAwsBaseUrl (outerHTML (doc w))) as [base|] eqn:Hb;
    [|discriminate].
  destruct (falsy (Some base)); [discriminate|].
  unfold bind at 1 in H.
  destruct (locate_single (doc w) realUrl (outerHTML (doc w)) base)
    as [t1 [[info|]|e]] eqn:Hl; try discriminate.
  unfold concat_url in H. run_in H.
  destruct (to_string h (src info)) as [rest|] eqn:Hs; cbn [outcome_bind] in H;
    [|discriminate].
  destruct (sanitize (name info)) as [sanitized|] eqn:Hn; [|discriminate].
  exists base, realUrl, info, rest, sanitized.
  rewrite Hl. inversion H; subst. repeat split; assumption.
Qed.

(** ** The single-track cascade *)

(** C1 at its failing input, the page of the scenario.  The base URL is
    found, but the attribute pattern of the single-track path stops at the
    first double quote of the JSON text, the captured text does not parse,
    no other method finds a track, and the extraction fails; it fails as
    well on the page as the browser writes it back.  The profile
    extraction, which reads the same attribute through the element, finds
    the track on this very page. *)
Lemma scenario_attribute_not_found :
  extractAwsBaseUrl (outerHTML (doc scenario_page))
  = Some (js "https://cdn.example.com/")
  /\ option_map (group_text 1)
       (search player_info_pattern (outerHTML (doc scenario_page)))
     = Some (js "{")
  /\ extractTrackInfo (outerHTML (doc scenario_page)) = None
  /\ handleDataExtraction reference_host scenario_page (VStr (js "single")) no_flag
     = ([Method 1; Method 2; Method 3; Method 4], Return (Failure track_missing))
  /\ handleDataExtraction reference_host scenario_page_serialized
       (VStr (js "single")) no_flag
     = ([Method 1; Method 2; Method 3; Method 4], Return (Failure track_missing))
  /\ handleDataExtraction reference_host scenario_page (VStr (js "profile")) no_flag
     = ([Method 1],
        Return (Success
          {| tracks := [ {| track_name := js "My Track";
                            url := js "https://cdn.example.com//abc.mp3";
                            track_artist := js "someartist" |} ];
             artist := js "someartist";
             createArtistFolder := no_flag |})).
Proof. repeat split; reflexivity. Qed.

(** Once the cascade has a descriptor, the track is built by plain
    concatenation.  On a single-track page whose address is not a short
    link, whose HTML gives the base URL, and on which the cascade yields a
    descriptor with a string name and a string source, the extraction
    succeeds with exactly one track: its name is the sanitized name and its
    URL is the base URL followed by the source, both as they are written.
    For the base [https://cdn.example.com/] and the source [/abc.mp3] that
    is [https://cdn.example.com//abc.mp3]. *)
Lemma single_track_is_base_plus_src (h : Host) (w : window) (flag : value)
  (events : list event) (base n s : jsstring) :
  includes (location_href w) (js "traktra.in/t/") = false ->
  extractAwsBaseUrl (outerHTML (doc w)) = Some base ->
  locate_single (doc w) (location_href w) (outerHTML (doc w)) base
  = (events, Return (Some {| name := VStr n; src := VStr s |})) ->
  handleDataExtraction h w (VStr (js "single")) flag
  = (events,
     Return (Success
       {| tracks := [ {| track_name := sanitizeFilename n;
                         url := base ++ s;
                         track_artist := single_artist h (doc w) (location_href w) |} ];
          artist := single_artist h (doc w) (location_href w);
          createArtistFolder := flag |})).
Proof.
  intros Hshort Hbase Hlocate.
  unfold handleDataExtraction, dispatch.
  change (is_string (VStr (js "single")) (js "single")) with true. cbv iota.
  pose proof (extractAwsBaseUrl_nonempty _ Hbase) as Hne.
  unfold extractSingleBeat. rewrite Hshort.
  unfold bind at 1. unfold ret at 1. cbv beta iota zeta.
  rewrite Hbase. destruct base as [|c base]; [congruence|]. cbn [falsy].
  unfold bind at 1. rewrite Hlocate.
  cbn. rewrite app_nil_r. reflexivity.
Qed.

Lemma single_track_is_base_plus_src_example :
  handleDataExtraction reference_host scenario_page_with_script
    (VStr (js "single")) no_flag
  = ([Method 1; Method 2],
     Return (Success
       {| tracks := [ {| track_name := js "My Track";
                         url := js "https://cdn.example.com//abc.mp3";
                         track_artist := js "someartist" |} ];
          artist := js "someartist";
          createArtistFolder := no_flag |})).
Proof.
  apply (@single_track_is_base_plus_src reference_host scenario_page_with_script
           no_flag [Method 1; Method 2] (js "https://cdn.example.com/")
           (js "My Track") (js "/abc.mp3")); reflexivity.
Defined.

(** C6 at its failing input: the first method returns a descriptor whose
    source is [undefined], the cascade stops there, and the extraction
    succeeds with a URL that ends in the word undefined. *)
Lemma missing_src_ends_cascade :
  extractTrackInfo (outerHTML (doc empty_attribute_page))
  = Some {| name := VStr (js "Unknown Track"); src := VUndefined |}
  /\ handleDataExtraction reference_host empty_attribute_page
       (VStr (js "single")) no_flag
     = ([Method 1],
        Return (Success
          {| tracks := [ {| track_name := js "Unknown Track";
                            url := js "https://cdn.example.com/undefined";
                            track_artist := js "someartist" |} ];
             artist := js "someartist";
             createArtistFolder := no_flag |})).
Proof. split; reflexivity. Qed.

(** ** Method 3 of the single-track cascade *)

Lemma starts_with_prefix (p s : jsstring) :
  starts_with p s = true -> s = p ++ skipn (length p) s.
Proof.
  revert s. induction p as [|x p IH]; intros s H; [reflexivity|].
  destruct s as [|y s]; [discriminate|]. simpl in H.
  apply andb_prop in H. destruct H as [Hx Hp]. apply N.eqb_eq in Hx. subst y.
  simpl. f_equal. apply IH, Hp.
Qed.

Lemma split_first_parts (p s before after : jsstring) :
  split_first p s = Some (before, after) -> s = before ++ p ++ after.
Proof.
  revert before. induction s as [|x s IH]; intros before H.
  - simpl in H. destruct (starts_with p []) eqn:E; [|discriminate].
    inversion H; subst. apply starts_with_prefix in E. exact E.
  - cbn [split_first] in H. destruct (starts_with p (x :: s)) eqn:E.
    + inversion H; subst. apply starts_with_prefix in E. exact E.
    + destruct (split_first p s) as [[b a]|]; [|discriminate].
      inversion H; subst. simpl. f_equal. apply IH. reflexivity.
Qed.

(** Removing the first occurrence of a non-empty text changes a string
    exactly when the text occurs in it. *)
Lemma remove_first_changes (p s : jsstring) :
  p <> [] -> str_eqb (remove_first p s) s = negb (includes s p) .
Proof.
  intros Hp. unfold remove_first, includes.
  destruct (split_first p s) as [[before after]|] eqn:E.
  - simpl. destruct (str_eqb (before ++ after) s) eqn:Q; [|reflexivity].
    apply str_eqb_eq in Q. apply split_first_parts in E.
    rewrite E in Q. apply app_inv_head in Q.
    apply (f_equal (@length N)) in Q. rewrite length_app in Q.
    destruct p; [congruence | simpl in Q; lia].
  - simpl. apply str_eqb_refl.
Qed.

Lemma first_audio_source_found (base : jsstring) (elements : list source_element)
  (srcPath : jsstring) :
  base <> [] ->
  first_audio_source base elements = Some srcPath ->
  exists before element after s,
    elements = before ++ element :: after
    /\ element_src element = Some s
    /\ qualifies base element = true
    /\ srcPath = remove_first base s
    /\ forall e, In e before -> qualifies base e = false.
Proof.
  intros Hb. induction elements as [|element elements IH]; [discriminate|].
  cbn [first_audio_source]. unfold qualifies.
  assert (Hskip : first_audio_source base elements = Some srcPath ->
                  qualifies base element = false ->
                  exists before element0 after s,
                    element :: elements = before ++ element0 :: after
                    /\ element_src element0 = Some s
                    /\ qualifies base element0 = true
                    /\ srcPath = remove_first base s
                    /\ forall e, In e before -> qualifies base e = false).
  { intros H Hq. destruct (IH H) as (before & e0 & after & s & -> & A & B & C & D).
    exists (element :: before), e0, after, s. repeat split; try assumption.
    intros e [<-|He]; [exact Hq | apply D, He]. }
  unfold qualifies in Hskip.
  destruct (element_src element) as [[|c r]|] eqn:Es.
  - intros H. apply Hskip; [exact H | reflexivity].
  - rewrite (remove_first_changes (c :: r) Hb).
    destruct (includes (c :: r) (js ".mp3")) eqn:Hmp3.
    + destruct (includes (c :: r) base) eqn:Hin; cbn [negb andb].
      * intros H. inversion H; subst.
        exists [], element, elements, (c :: r).
        unfold qualifies. rewrite Es, Hmp3, Hin. repeat split. intros e [].
      * intros H. apply Hskip; [exact H | reflexivity].
    + intros H. apply Hskip; [exact H | reflexivity].
  - intros H. apply Hskip; [exact H | reflexivity].
Qed.

Lemma first_audio_source_none (base : jsstring) (elements : list source_element) :
  base <> [] ->
  first_audio_source base elements = None ->
  forall e, In e elements -> qualifies base e = false.
Proof.
  intros Hb. induction elements as [|element elements IH]; [intros _ e []|].
  cbn [first_audio_source]. unfold qualifies at 1.
  intros H e [<-|He].
  - unfold qualifies. destruct (element_src element) as [[|c r]|]; try reflexivity.
    rewrite (remove_first_changes (c :: r) Hb) in H.
    destruct (includes (c :: r) (js ".mp3")); [|reflexivity].
    destruct (includes (c :: r) base); [discriminate | reflexivity].
  - apply IH; [|exact He].
    destruct (element_src element) as [[|c r]|]; try exact H.
    rewrite (remove_first_changes (c :: r) Hb) in H.
    destruct (includes (c :: r) (js ".mp3")); [|exact H].
    destruct (includes (c :: r) base); [discriminate | exact H].
Qed.

(** C7, as stated, fails: with the title [Song - Artist] the third method
    names the track after the first segment, not the second. *)
Lemma inferred_name_is_first_segment :
  option_map (fun mt => (group_text 1 mt, group_text 2 mt))
    (search title_pattern (title (doc titled_audio_page)))
  = Some (js "Song", js "Artist")
  /\ single_method3 (doc titled_audio_page) (js "https://cdn.example.com/")
     = Some {| name := VStr (js "Song"); src := VStr (js "a/song.mp3") |}
  /\ handleDataExtraction reference_host titled_audio_page (VStr (js "single")) no_flag
     = ([Method 1; Method 2; Method 3],
        Return (Success
          {| tracks := [ {| track_name := js "Song";
                            url := js "https://cdn.example.com/a/song.mp3";
                            track_artist := js "someartist" |} ];
             artist := js "someartist";
             createArtistFolder := no_flag |})).
Proof. repeat split; reflexivity. Qed.

Lemma inferred_name_total (d : document) :
  inferred_name d
    (match js_or match search title_pattern (title d) with
                 | Some titleMatch => Some (trim (group_text 1 titleMatch))
                 | None => match h1 d with
                           | Some text => Some (trim text)
                           | None => None
                           end
                 end (Some (js "Unknown Track")) with
     | Some n => n
     | None => []
     end).
Proof.
  destruct (search title_pattern (title d)) as [mt|] eqn:Et.
  - destruct (trim (group_text 1 mt)) as [|c r] eqn:E.
    + apply name_unknown. rewrite Et. exact E.
    + cbn [js_or falsy]. rewrite <- E. apply name_from_title; [exact Et|].
      rewrite E. discriminate.
  - destruct (h1 d) as [text|] eqn:Eh.
    + destruct (trim text) as [|c r] eqn:E.
      * apply name_unknown. rewrite Et, Eh. exact E.
      * cbn [js_or falsy]. rewrite <- E. apply name_from_heading; try assumption.
        rewrite E. discriminate.
    + apply name_unknown. rewrite Et, Eh. exact I.
Qed.

(** C7, amended. On a single-track page the third method takes the
    candidate name from the first segment of a title of the form
    [first - second], or else from the first heading, and falls back on
    [Unknown Track]; it takes the source from the first audio-bearing
    element whose source text holds [.mp3] and holds the base URL, removing
    the first occurrence of the base URL from it; and it yields a
    descriptor exactly when there is such an element, whether or not a name
    was found. *)
Theorem element_inference_descriptor (d : document) (base : jsstring) :
  base <> [] ->
  (forall info, single_method3 d base = Some info ->
     exists before element after s n,
       audio_sources d = before ++ element :: after
       /\ element_src element = Some s
       /\ includes s (js ".mp3") = true
       /\ includes s base = true
       /\ (forall e, In e before -> qualifies base e = false)
       /\ inferred_name d n
       /\ info = {| name := VStr n; src := VStr (remove_first base s) |})
  /\ (single_method3 d base = None <->
      forall e, In e (audio_sources d) -> qualifies base e = false).
Proof.
  intros Hb. unfold single_method3. split.
  - intros info H.
    destruct (first_audio_source base (audio_sources d)) as [srcPath|] eqn:E;
      [|discriminate].
    destruct (first_audio_source_found _ Hb E)
      as (before & element & after & s & Hsplit & Hs & Hq & -> & Hbefore).
    unfold qualifies in Hq. rewrite Hs in Hq. apply andb_prop in Hq.
    destruct Hq as [Hmp3 Hin].
    eexists before, element, after, s, _.
    repeat split; try eassumption; [apply inferred_name_total|].
    inversion H. reflexivity.
  - destruct (first_audio_source base (audio_sources d)) as [srcPath|] eqn:E.
    + split; [discriminate|]. intros H.
      destruct (first_audio_source_found _ Hb E)
        as (before & element & after & s & Hsplit & Hs & Hq & _ & _).
      rewrite (H element) in Hq; [discriminate|].
      rewrite Hsplit. apply in_or_app. right. left. reflexivity.
    + split; [|reflexivity]. intros _.
      apply (first_audio_source_none _ Hb E).
Qed.

Lemma element_inference_descriptor_witness :
  exists before element after s n,
    audio_sources (doc titled_audio_page) = before ++ element :: after
    /\ element_src element = Some s
    /\ includes s (js ".mp3") = true
    /\ includes s (js "https://cdn.example.com/") = true
    /\ (forall e, In e before -> qualifies (js "https://cdn.example.com/") e = false)
    /\ inferred_name (doc titled_audio_page) n
    /\ {| name := VStr (js "Song"); src := VStr (js "a/song.mp3") |}
       = {| name := VStr n;
            src := VStr (remove_first (js "https://cdn.example.com/") s) |}.
Proof.
  apply (@element_inference_descriptor (doc titled_audio_page)
           (js "https://cdn.example.com/")); [discriminate | reflexivity].
Defined.

(** ** Method 2 of the profile extraction *)

(** C9, as stated, fails: the first pattern matches and its JSON parses, the
    [tracks] member is an empty array, and the probe takes it instead of
    going on to the [beats] member, which is the first non-empty
    candidate; no track is found on the page. *)
Lemma empty_tracks_member_hides_beats :
  option_map (parse_capture 1)
    (search (hd Eps jsTrackPatterns) (outerHTML (doc hidden_beats_page)))
  = Some (Some hidden_beats)
  /\ select_track_array hidden_beats = Return (VArr [])
  /\ first_non_empty_candidate hidden_beats = member (js "beats") hidden_beats
  /\ non_empty_array (member (js "beats") hidden_beats) = true
  /\ handleDataExtraction reference_host hidden_beats_page (VStr (js "profile")) no_flag
     = ([Method 1; Method 2; Method 3],
        Return (Failure
          (no_tracks (location_href hidden_beats_page)
             (Some (js "https://cdn.example.com/")) 0))).
Proof. repeat split; reflexivity. Qed.

Lemma select_track_array_present (data : value) :
  select_track_array data =
  match data with
  | VNull | VUndefined => Throw (Engine PropertyOfNull)
  | _ => Return (first_present_candidate data)
  end.
Proof.
  unfold select_track_array, first_present_candidate, track_list_candidates, member.
  destruct data as [| |b|n|s|items|fields]; try reflexivity.
  cbn [is_array get find truthy].
  destruct (truthy (match lookup_last (js "tracks") fields with
                    | Some x => x | None => VUndefined end)); [reflexivity|].
  destruct (truthy (match lookup_last (js "beats") fields with
                    | Some x => x | None => VUndefined end)); [reflexivity|].
  destruct (match lookup_last (js "user") fields with
            | Some x => x | None => VUndefined end) as [| |b|n|s|items|fields'];
    try reflexivity.
  - destruct b; reflexivity.
  - cbn [truthy]. destruct (negb (number_is_zero n)); reflexivity.
  - destruct s; reflexivity.
  - cbn [truthy get].
    destruct (truthy (match lookup_last (js "tracks") fields' with
                      | Some x => x | None => VUndefined end)); reflexivity.
Qed.

Lemma add_tracks_adds (h : Host) (base a : jsstring) (items : list value)
  (found : list (list track)) :
  Forall2 (item_adds h base a) items found ->
  forall tracks,
    add_tracks h base a items tracks = (tracks ++ concat found, true).
Proof.
  induction 1 as [|v f items found Hv _ IH]; intros tracks; cbn [add_tracks concat].
  - rewrite app_nil_r. reflexivity.
  - destruct Hv as [v t Hg|v Hp].
    + rewrite (add_track_gives tracks Hg), IH, <- app_assoc. reflexivity.
    + rewrite (add_track_passed h base a tracks Hp), IH. reflexivity.
Qed.

Lemma add_tracks_breaks (h : Host) (base a : jsstring) (before : list value)
  (bad : value) (after : list value) (found : list (list track)) :
  Forall2 (item_adds h base a) before found ->
  breaks h bad ->
  forall tracks,
    add_tracks h base a (before ++ bad :: after) tracks
    = (tracks ++ concat found, false).
Proof.
  intros F Hb. induction F as [|v f items found Hv _ IH]; intros tracks;
    cbn [app add_tracks concat].
  - destruct (add_track_breaks base a tracks Hb) as (e & ->).
    rewrite app_nil_r. reflexivity.
  - destruct Hv as [v t Hg|v Hp].
    + rewrite (add_track_gives tracks Hg), IH, <- app_assoc. reflexivity.
    + rewrite (add_track_passed h base a tracks Hp), IH. reflexivity.
Qed.

(** C9, amended. The second method goes through its patterns in order.  A
    pattern that does not match, or whose capture is no JSON or is [null],
    is passed over.  Otherwise the parsed state is probed at the value
    itself if it is an array, then at [tracks], at [beats] and at
    [user.tracks], and the first of these that is there is taken, an empty
    array included.  When the body runs through all items of that list, the
    tracks of the items that give one are added in order, and the method
    ends there if any track is held, else the next pattern is tried.  When
    the body throws on an item, the tracks added before it are kept and the
    next pattern is tried.  A string in that place adds nothing, and
    anything else that is not a list lets the next pattern be tried. *)
Theorem state_scan_takes_first_present (h : Host) (base a html : jsstring)
  (p : regex) (ps : list regex) (tracks : list track) :
  let method := profile_method2 h base a html in
  (captured_state p html = None
   \/ captured_state p html = Some None
   \/ captured_state p html = Some (Some VNull)
   \/ captured_state p html = Some (Some VUndefined) ->
   method (p :: ps) tracks = method ps tracks)
  /\ forall data,
       captured_state p html = Some (Some data) ->
       data <> VNull -> data <> VUndefined ->
       (forall items found,
          first_present_candidate data = VArr items ->
          Forall2 (item_adds h base a) items found ->
          method (p :: ps) tracks
          = if is_nil (tracks ++ concat found)
            then method ps (tracks ++ concat found)
            else tracks ++ concat found)
       /\ (forall before bad after found,
             first_present_candidate data = VArr (before ++ bad :: after) ->
             Forall2 (item_adds h base a) before found ->
             breaks h bad ->
             method (p :: ps) tracks = method ps (tracks ++ concat found))
       /\ (forall text,
             first_present_candidate data = VStr text ->
             method (p :: ps) tracks
             = if is_nil tracks then method ps tracks else tracks)
       /\ ((forall items, first_present_candidate data <> VArr items) ->
           (forall text, first_present_candidate data <> VStr text) ->
           method (p :: ps) tracks = method ps tracks).
Proof.
  cbv zeta. unfold captured_state. cbn [profile_method2].
  destruct (search p html) as [mt|]; cbn [option_map]; unfold scan_state.
  - split.
    + intros [H|[H|[H|H]]]; try discriminate; inversion H as [E];
        rewrite E; reflexivity.
    + intros data H Hn Hu. inversion H as [E]. rewrite E.
      rewrite select_track_array_present.
      assert (Es : match data with
                   | VNull | VUndefined => Throw (Engine PropertyOfNull)
                   | _ => Return (first_present_candidate data)
                   end = Return (first_present_candidate data))
        by (destruct data; congruence).
      rewrite Es. clear Es.
      split; [|split; [|split]].
      * intros items found Hc Hf. rewrite Hc. cbn [iterate_tracks].
        rewrite (add_tracks_adds Hf). cbn [andb].
        destruct (tracks ++ concat found); reflexivity.
      * intros before bad after found Hc Hf Hb. rewrite Hc. cbn [iterate_tracks].
        rewrite (add_tracks_breaks after Hf Hb). reflexivity.
      * intros text Hc. rewrite Hc. cbn [iterate_tracks andb].
        destruct tracks; reflexivity.
      * intros Ha Hs.
        destruct (first_present_candidate data) as [| |b|n|s|items|fields];
          try reflexivity.
        -- exfalso. apply (Hs s). reflexivity.
        -- exfalso. apply (Ha items). reflexivity.
  - split; [reflexivity|]. intros data H. discriminate.
Qed.

Lemma state_scan_takes_first_present_witness :
  profile_method2 reference_host (js "https://cdn.example.com/") (js "someartist")
    user_state_html jsTrackPatterns []
  = [ {| track_name := js "A one";
         url := js "https://cdn.example.com/a.mp3";
         track_artist := js "someartist" |} ].
Proof.
  refine (proj1 (proj2 (@state_scan_takes_first_present reference_host
                          (js "https://cdn.example.com/") (js "someartist")
                          user_state_html
                          (state_assignment (js "window.__INITIAL_STATE__"))
                          (tl jsTrackPatterns) [])
                   (VObj [(js "user",
                           VObj [(js "tracks",
                                  VArr [VObj [(js "name", VStr (js "A: one"));
                                              (js "src", VStr (js "a.mp3"))];
                                        VObj [(js "name", VStr (js "B"))]])])])
                   _ _ _)
            [VObj [(js "name", VStr (js "A: one")); (js "src", VStr (js "a.mp3"))];
             VObj [(js "name", VStr (js "B"))]]
            [ [ {| track_name := js "A one";
                   url := js "https://cdn.example.com/a.mp3";
                   track_artist := js "someartist" |} ]; [] ]
            _ _).
  - reflexivity.
  - discriminate.
  - discriminate.
  - reflexivity.
  - apply Forall2_cons;
      [ apply item_gives;
        apply (@gives_track_of reference_host (js "https://cdn.example.com/")
                 (js "someartist")
                 [(js "name", VStr (js "A: one")); (js "src", VStr (js "a.mp3"))]
                 (js "A: one") (VStr (js "a.mp3")) (js "a.mp3"));
        (reflexivity || discriminate) | ].
    apply Forall2_cons;
      [ apply item_passed; repeat split; try discriminate; left; reflexivity | ].
    apply Forall2_nil.
Defined.

(** * Further properties *)

(** ** More on what a match says *)

Lemma firstn_consumed (t s' : jsstring) :
  firstn (length (t ++ s') - length s') (t ++ s') = t.
Proof.
  rewrite length_app.
  replace (length t + length s' - length s') with (length t + 0) by lia.
  rewrite firstn_app_2. simpl. apply app_nil_r.
Qed.

Lemma matches_consumed (P : N -> Prop) r s c s' c' :
  matches r s c s' c' -> consumes_only P r ->
  exists t, s = t ++ s' /\ Forall P t.
Proof.
  induction 1; simpl; intros Hp.
  - exists []. split; [reflexivity | constructor].
  - exists [x]. split; [reflexivity|]. constructor; [auto | constructor].
  - destruct Hp as [H1 H2].
    destruct (IHmatches1 H1) as (t1 & -> & F1).
    destruct (IHmatches2 H2) as (t2 & -> & F2).
    exists (t1 ++ t2). split; [apply app_assoc | apply Forall_app; tauto].
  - apply IHmatches. tauto.
  - apply IHmatches. tauto.
  - exists []. split; [reflexivity | constructor].
  - destruct (IHmatches1 Hp) as (t1 & -> & F1).
    destruct (IHmatches2 Hp) as (t2 & -> & F2).
    exists (t1 ++ t2). split; [apply app_assoc | apply Forall_app; tauto].
  - apply IHmatches, Hp.
Qed.

Lemma consumes_anything (r : regex) : consumes_only (fun _ => True) r.
Proof. induction r; simpl; auto. Qed.

Lemma matches_groups_only (P : N -> Prop) r s c s' c' :
  matches r s c s' c' -> groups_only P r ->
  exists new, c' = new ++ c /\ Forall (fun e => Forall P (snd e)) new.
Proof.
  induction 1; simpl; intros Hg.
  - exists []. split; [reflexivity | constructor].
  - exists []. split; [reflexivity | constructor].
  - destruct Hg as [Hg1 Hg2].
    destruct (IHmatches1 Hg1) as (n1 & -> & F1).
    destruct (IHmatches2 Hg2) as (n2 & -> & F2).
    exists (n2 ++ n1). split; [apply app_assoc | apply Forall_app; tauto].
  - apply IHmatches. tauto.
  - apply IHmatches. tauto.
  - exists []. split; [reflexivity | constructor].
  - destruct (IHmatches1 Hg) as (n1 & -> & F1).
    destruct (IHmatches2 Hg) as (n2 & -> & F2).
    exists (n2 ++ n1). split; [apply app_assoc | apply Forall_app; tauto].
  - destruct Hg as [Hc Hg].
    destruct (IHmatches Hg) as (n1 & -> & F1).
    exists ((i, firstn (length s - length s') s) :: n1).
    split; [reflexivity|]. constructor; [|exact F1]. simpl.
    destruct (matches_consumed P H Hc) as (t & -> & Ft).
    rewrite firstn_consumed. exact Ft.
Qed.

Lemma matches_always_captures (i : nat) r s c s' c' :
  matches r s c s' c' -> always_captures i r = true ->
  exists new t, c' = new ++ c /\ In (i, t) new.
Proof.
  induction 1; simpl; intros Ha; try discriminate.
  - destruct (matches_groups_only (fun _ => True) H) as (n1 & -> & _).
    { clear. induction r1; simpl; auto using consumes_anything. }
    destruct (matches_groups_only (fun _ => True) H0) as (n2 & -> & _).
    { clear. induction r2; simpl; auto using consumes_anything. }
    apply orb_prop in Ha. destruct Ha as [Ha|Ha].
    + destruct (IHmatches1 Ha) as (m1 & t & E & Hin).
      apply app_inv_tail in E. subst m1.
      exists (n2 ++ n1), t. split; [apply app_assoc|].
      apply in_or_app. right. exact Hin.
    + destruct (IHmatches2 Ha) as (m2 & t & E & Hin).
      apply app_inv_tail in E. subst m2.
      exists (n2 ++ n1), t. split; [apply app_assoc|].
      apply in_or_app. left. exact Hin.
  - apply andb_prop in Ha. apply IHmatches. tauto.
  - apply andb_prop in Ha. apply IHmatches. tauto.
  - destruct (matches_groups_only (fun _ => True) H) as (n1 & -> & _).
    { clear. induction r; simpl; auto using consumes_anything. }
    exists ((i0, firstn (length s - length s') s) :: n1).
    apply orb_prop in Ha. destruct Ha as [Ha|Ha].
    + apply Nat.eqb_eq in Ha. subst i0. eexists. split; [reflexivity|].
      left. reflexivity.
    + destruct (IHmatches Ha) as (m1 & t & E & Hin).
      apply app_inv_tail in E. subst m1.
      exists t. split; [reflexivity|]. right. exact Hin.
Qed.

Lemma capture_first (i : nat) (new c : captures) (t : jsstring) :
  In (i, t) new -> exists t', capture i (new ++ c) = Some t' /\ In (i, t') new.
Proof.
  induction new as [|[j v] new IH]; [intros []|]. intros Hin. simpl.
  destruct (Nat.eqb i j) eqn:E.
  - apply Nat.eqb_eq in E. subst j. exists v. split; [reflexivity | left; reflexivity].
  - destruct Hin as [Hin|Hin].
    + inversion Hin; subst. rewrite Nat.eqb_refl in E. discriminate.
    + destruct (IH Hin) as (t' & Hc & Hin'). exists t'. split; [exact Hc | right; exact Hin'].
Qed.

(** A search that succeeds has matched the pattern at some place of the
    text. *)
Lemma search_from_matches (r : regex) :
  forall s n mt, search_from r n s = Some mt ->
    exists pre s0 s',
      s = pre ++ s0
      /\ matches r s0 [] s' (groups mt)
      /\ matched mt = firstn (length s0 - length s') s0
      /\ index mt = n + length pre.
Proof.
  induction s as [|x s IH]; intros n mt H; cbn [search_from] in H;
    destruct (match_at r _) as [[rest c]|] eqn:E.
  - inversion H; subst. unfold match_at in E. apply m_sound in E.
    destruct E as (s' & c' & Hm & Hk). inversion Hk; subst.
    exists [], [], rest. simpl. repeat split; [exact Hm | lia].
  - discriminate.
  - inversion H; subst. unfold match_at in E. apply m_sound in E.
    destruct E as (s' & c' & Hm & Hk). inversion Hk; subst.
    exists [], (x :: s), rest. simpl. repeat split; [exact Hm | lia].
  - destruct (IH _ _ H) as (pre & s0 & s' & -> & Hm & Hmt & Hi).
    exists (x :: pre), s0, s'. simpl. repeat split; try assumption. lia.
Qed.

Lemma search_groups_only (P : N -> Prop) (r : regex) (s : jsstring)
  (mt : match_result) (i : nat) (t : jsstring) :
  groups_only P r -> search r s = Some mt ->
  capture i (groups mt) = Some t -> Forall P t.
Proof.
  intros Hg H Hc. apply search_from_matches in H.
  destruct H as (pre & s0 & s' & _ & Hm & _ & _).
  destruct (matches_groups_only P Hm Hg) as (new & E & F).
  apply capture_in in Hc. rewrite E, app_nil_r in Hc.
  rewrite Forall_forall in F. apply (F _ Hc).
Qed.

Lemma search_always_captures (r : regex) (s : jsstring) (mt : match_result)
  (i : nat) :
  always_captures i r = true -> search r s = Some mt ->
  exists t, capture i (groups mt) = Some t.
Proof.
  intros Ha H. apply search_from_matches in H.
  destruct H as (pre & s0 & s' & _ & Hm & _ & _).
  destruct (matches_always_captures i Hm Ha) as (new & t & E & Hin).
  rewrite E. destruct (@capture_first i new [] t Hin) as (t' & Hc & _). eauto.
Qed.

Lemma matches_lit (l : jsstring) :
  forall s c s' c', matches (lit l) s c s' c' -> s = l ++ s' /\ c' = c.
Proof.
  induction l as [|x l IH]; intros s c s' c' H; cbn [lit fold_right] in H.
  - inversion H; subst. split; reflexivity.
  - inversion H; subst.
    match goal with
    | [ H1 : matches (Chr _) _ _ _ _ |- _ ] => inversion H1; subst
    end.
    match goal with
    | [ H2 : matches (fold_right _ _ _) _ _ _ _ |- _ ] =>
        apply IH in H2; destruct H2 as [-> ->]
    end.
    match goal with
    | [ Hx : N.eqb _ _ = true |- _ ] => apply N.eqb_eq in Hx; subst
    end.
    split; reflexivity.
Qed.

Lemma matches_seq_inv r1 r2 s c s2 c2 :
  matches (Seq r1 r2) s c s2 c2 ->
  exists s1 c1, matches r1 s c s1 c1 /\ matches r2 s1 c1 s2 c2.
Proof. intros H. inversion H; subst. eauto. Qed.

Lemma starts_with_app (p b : jsstring) : starts_with p (p ++ b) = true.
Proof.
  induction p as [|x p IH]; [reflexivity|]. simpl. rewrite N.eqb_refl. exact IH.
Qed.

Lemma includes_intro (a p b : jsstring) : includes (a ++ p ++ b) p = true.
Proof.
  unfold includes. induction a as [|x a IH].
  - simpl. destruct (p ++ b) eqn:E.
    + simpl. destruct (starts_with p []) eqn:S; [reflexivity|].
      rewrite <- E, starts_with_app in S. discriminate.
    + cbn [split_first]. rewrite <- E, starts_with_app. reflexivity.
  - cbn [app split_first]. destruct (starts_with p (x :: a ++ p ++ b)); [reflexivity|].
    destruct (split_first p (a ++ p ++ b)) as [[? ?]|]; [reflexivity | discriminate].
Qed.

(** ** The base URL and the artist handle *)

Lemma groups_only_lit (P : N -> Prop) (l : jsstring) : groups_only P (lit l).
Proof. induction l; simpl; auto. Qed.

Lemma aws_pattern_groups : groups_only no_quote aws_pattern.
Proof.
  unfold aws_pattern, quote, unquoted, plus, none_of, one_of, ws.
  cbn [seqs groups_only consumes_only].
  repeat split; try apply groups_only_lit;
    intros c H; apply negb_true_iff in H; exact H.
Qed.

Lemma player_info_pattern_groups : groups_only no_quote player_info_pattern.
Proof.
  unfold player_info_pattern, quote, unquoted, plus, none_of, one_of.
  cbn [seqs groups_only consumes_only].
  repeat split; try apply groups_only_lit;
    intros c H; apply negb_true_iff in H; exact H.
Qed.

(** X1. A base URL that [extractAwsBaseUrl] returns is not empty and holds
    neither kind of quote, and it is only found on a page whose HTML holds
    the text [var AWS_BASE_URL]. *)
Theorem base_url_shape (html base : jsstring) :
  extractAwsBaseUrl html = Some base ->
  base <> []
  /\ Forall no_quote base
  /\ includes html (js "var AWS_BASE_URL") = true.
Proof.
  intros H. split; [apply (extractAwsBaseUrl_nonempty _ H)|].
  unfold extractAwsBaseUrl in H.
  destruct (search aws_pattern html) as [mt|] eqn:E; [|discriminate].
  split; [eapply search_groups_only; [apply aws_pattern_groups | exact E | exact H]|].
  apply search_from_matches in E.
  destruct E as (pre & s0 & s' & -> & Hm & _ & _).
  unfold aws_pattern in Hm. cbn [seqs] in Hm.
  apply matches_seq_inv in Hm. destruct Hm as (s1 & c1 & H1 & _).
  apply matches_lit in H1. destruct H1 as [-> _].
  apply includes_intro.
Qed.

Lemma base_url_shape_witness :
  js "https://cdn.example.com/" <> []
  /\ Forall no_quote (js "https://cdn.example.com/")
  /\ includes (outerHTML (doc scenario_page)) (js "var AWS_BASE_URL") = true.
Proof.
  apply (@base_url_shape (outerHTML (doc scenario_page)) (js "https://cdn.example.com/")).
  reflexivity.
Defined.

Lemma split_pieces_without (x : N) :
  forall s cur, ~ In x cur ->
    Forall (fun piece => ~ In x piece) (split_from [x] 0 cur s).
Proof.
  induction s as [|y s IH]; intros cur Hc; cbn [split_from].
  - constructor; [|constructor]. intros H. apply in_rev in H. contradiction.
  - cbn [starts_with]. destruct (N.eqb x y) eqn:E; cbn [andb length pred].
    + constructor; [intros H; apply in_rev in H; contradiction|].
      apply IH. intros [].
    + apply IH. intros [H|H]; [|contradiction].
      subst y. rewrite N.eqb_refl in E. discriminate.
Qed.

Lemma split_all_empty (x : N) :
  forall s cur,
    Forall (eq []) (split_from [x] 0 cur s) <-> cur = [] /\ Forall (eq x) s.
Proof.
  induction s as [|y s IH]; intros cur; cbn [split_from].
  - split.
    + intros H. inversion H; subst. split; [|constructor].
      destruct cur as [|c cur]; [reflexivity|].
      simpl in H2. destruct (rev cur); discriminate.
    + intros [-> _]. repeat constructor.
  - cbn [starts_with]. destruct (N.eqb x y) eqn:E; cbn [andb length pred].
    + apply N.eqb_eq in E. subst y. split.
      * intros H. inversion H; subst. apply IH in H3. destruct H3 as [_ H3].
        split; [|constructor; [reflexivity | exact H3]].
        destruct cur as [|c cur]; [reflexivity|].
        simpl in H2. destruct (rev cur); discriminate.
      * intros [-> H]. inversion H; subst. constructor; [reflexivity|].
        apply IH. split; [reflexivity | assumption].
    + split.
      * intros H. apply IH in H. destruct H as [H _]. discriminate.
      * intros [_ H]. inversion H; subst. rewrite N.eqb_refl in E. discriminate.
Qed.

Lemma filter_head {A} (f : A -> bool) (l : list A) (a : A) (rest : list A) :
  filter f l = a :: rest ->
  exists before after,
    l = before ++ a :: after /\ Forall (fun y => f y = false) before /\ f a = true.
Proof.
  induction l as [|y l IH]; [discriminate|]. simpl.
  destruct (f y) eqn:E.
  - intros H. inversion H; subst. exists [], l. repeat split; [constructor | exact E].
  - intros H. destruct (IH H) as (before & after & -> & F & Ha).
    exists (y :: before), after. repeat split; [constructor; assumption | exact Ha].
Qed.

Lemma filter_nil {A} (f : A -> bool) (l : list A) :
  filter f l = [] <-> Forall (fun y => f y = false) l.
Proof.
  induction l as [|y l IH]; simpl; [split; constructor|].
  destruct (f y) eqn:E.
  - split; [discriminate|]. intros H. inversion H; congruence.
  - rewrite IH. split; [intros H; constructor; assumption|].
    intros H. inversion H; assumption.
Qed.

Lemma empty_pieces (l : list jsstring) :
  Forall (fun part => negb (is_empty part) = false) l <-> Forall (eq []) l.
Proof.
  induction l as [|y l IH]; [split; constructor|].
  split; intros H; inversion H; subst; constructor; try (apply IH; assumption).
  - destruct y; [reflexivity | discriminate].
  - reflexivity.
Qed.

(** X2. The artist handle that [extractArtistFromUrl] returns is the first
    non-empty piece of the path between slashes: it is not empty and holds
    no slash.  No handle is returned exactly when the address does not
    parse or its path consists of slashes only. *)
Theorem artist_handle_shape (h : Host) (u : jsstring) :
  (forall a, extractArtistFromUrl h u = Some a ->
     a <> [] /\ ~ In 47%N a
     /\ exists pathname before after,
          URL_pathname h u = Some pathname
          /\ split_on (js "/") pathname = before ++ a :: after
          /\ Forall (eq []) before)
  /\ (extractArtistFromUrl h u = None <->
      URL_pathname h u = None
      \/ exists pathname,
           URL_pathname h u = Some pathname /\ Forall (eq 47%N) pathname).
Proof.
  unfold extractArtistFromUrl. change (js "/") with [47%N]. unfold split_on.
  destruct (URL_pathname h u) as [pathname|].
  - pose proof (@split_pieces_without 47%N pathname []) as Hp.
    destruct (filter _ (split_from [47%N] 0 [] pathname)) as [|part parts] eqn:E.
    + split; [discriminate|]. split; [|reflexivity]. intros _. right.
      exists pathname. split; [reflexivity|].
      apply filter_nil, empty_pieces, split_all_empty in E. tauto.
    + split.
      * intros a H. inversion H; subst a.
        destruct (filter_head _ _ E) as (before & after & Hs & Hb & Ha).
        split; [destruct part; [discriminate Ha | discriminate]|].
        split.
        -- specialize (Hp (fun H => H)). rewrite Hs in Hp.
           apply Forall_app in Hp. destruct Hp as [_ Hp]. inversion Hp; assumption.
        -- exists pathname, before, after. repeat split; [exact Hs|].
           apply empty_pieces, Hb.
      * split; [discriminate|]. intros [H|(p & H & F)]; [discriminate|].
        inversion H; subst p.
        assert (Hall : Forall (eq []) (split_from [47%N] 0 [] pathname))
          by (apply split_all_empty; tauto).
        apply empty_pieces, filter_nil in Hall. congruence.
  - split; [discriminate|]. split; [auto | reflexivity].
Qed.

Lemma truthy_text (o : option jsstring) :
  falsy o = false -> match o with Some a => a | None => [] end <> [].
Proof. destruct o as [[|c r]|]; simpl; congruence. Qed.

Lemma single_artist_nonempty (h : Host) (d : document) (u : jsstring) :
  single_artist h d u <> [].
Proof.
  unfold single_artist.
  destruct (falsy (extractArtistFromUrl h u)
            || str_eqb match extractArtistFromUrl h u with
                       | Some a => a | None => [] end (js "t")) eqn:E.
  - match goal with
    | [ |- match (if falsy ?x then _ else _) with _ => _ end <> [] ] =>
        destruct (falsy x) eqn:F; [discriminate | apply truthy_text, F]
    end.
  - apply orb_false_iff in E. apply truthy_text. tauto.
Qed.

(** X3. The artist of a single-track extraction is never empty.  It is the
    first segment of the path whenever there is one other than the [t] of
    a track address, whatever the page holds; with no segment, or with [t],
    it is the trimmed second part of a two-part title when that is not
    empty; and it is [Unknown Artist] when the path gives none, the title
    has no two parts and there is no artist meta element. *)
Theorem single_artist_never_empty (h : Host) (d : document) (u : jsstring) :
  single_artist h d u <> []
  /\ (forall a, extractArtistFromUrl h u = Some a -> a <> js "t" ->
        single_artist h d u = a)
  /\ (forall mt,
        extractArtistFromUrl h u = None \/ extractArtistFromUrl h u = Some (js "t") ->
        search title_pattern (title d) = Some mt ->
        trim (group_text 2 mt) <> [] ->
        single_artist h d u = trim (group_text 2 mt))
  /\ (extractArtistFromUrl h u = None ->
      search title_pattern (title d) = None ->
      meta_artist d = None ->
      single_artist h d u = js "Unknown Artist").
Proof.
  split; [apply single_artist_nonempty|]. unfold single_artist. split; [|split].
  - intros a Ha Ht. rewrite Ha.
    pose proof (extractArtistFromUrl_nonempty _ _ Ha) as Hne.
    destruct a as [|c r]; [congruence|]. cbn [falsy orb].
    destruct (str_eqb (c :: r) (js "t")) eqn:E; [|reflexivity].
    apply str_eqb_eq in E. congruence.
  - intros mt Ha Ht Hne.
    assert (E : falsy (extractArtistFromUrl h u)
                || str_eqb match extractArtistFromUrl h u with
                           | Some a => a | None => [] end (js "t") = true)
      by (destruct Ha as [-> | ->]; reflexivity).
    rewrite E, Ht. destruct (trim (group_text 2 mt)) as [|c r]; [congruence|].
    reflexivity.
  - intros Ha Ht Hm. rewrite Ha, Ht, Hm. reflexivity.
Qed.

(** X4. A short link is resolved before anything else.  When the request
    fails, the single-track extraction throws the short-link error and
    starts no method; when it gives an address that is not itself a short
    link, the extraction is the extraction at that address. *)
Theorem short_link_resolves_first (h : Host) (w : window) (u final : jsstring)
  (flag : value) :
  includes u short_link = true ->
  (fetch_url w u = None ->
   extractSingleBeat h w u flag = ([], Throw (Error short_url_unresolved)))
  /\ (fetch_url w u = Some final ->
      includes final short_link = false ->
      extractSingleBeat h w u flag = extractSingleBeat h w final flag).
Proof.
  unfold short_link. intros Hs. unfold extractSingleBeat, followRedirect.
  rewrite Hs. split.
  - intros ->. reflexivity.
  - intros -> ->. reflexivity.
Qed.

Lemma short_link_resolves_first_witness :
  extractSingleBeat reference_host short_link_page
    (js "https://traktra.in/t/1377013") no_flag
  = extractSingleBeat reference_host short_link_page
      (js "https://traktrain.com/someartist/my-track") no_flag.
Proof.
  apply (@short_link_resolves_first reference_host short_link_page
           (js "https://traktra.in/t/1377013")
           (js "https://traktrain.com/someartist/my-track") no_flag);
    reflexivity.
Defined.

(** ** JSON text without a double quote *)

Ltac split_ifs :=
  repeat match goal with
         | [ H : context [if ?b then _ else _] |- _ ] => destruct b eqn:?
         end.

Lemma lex_start_string_free (c : N) (st : lex_state) (ts : list token) :
  no_double_quote c -> lex_start c = Some (st, ts) ->
  string_free_state st = true /\ Forall (fun t => string_free_token t = true) ts.
Proof.
  unfold no_double_quote, lex_start. intros Hc H.
  split_ifs; try congruence; inversion H; subst;
    (split; [reflexivity | repeat constructor]).
Qed.

Lemma lex_step_string_free (st st' : lex_state) (c : N) (ts : list token) :
  string_free_state st = true -> no_double_quote c ->
  lex_step st c = Some (st', ts) ->
  string_free_state st' = true /\ Forall (fun t => string_free_token t = true) ts.
Proof.
  intros Hst Hc H. destruct st as [|acc|acc|acc hex|ph acc|rest t]; try discriminate.
  - apply (lex_start_string_free Hc H).
  - cbn [lex_step] in H. unfold lex_number in H.
    destruct (lex_start c) as [[st0 ts0]|] eqn:E.
    + destruct (lex_start_string_free Hc E) as [A B].
      destruct ph; split_ifs; try discriminate; inversion H; subst;
        (split; [reflexivity || assumption | repeat constructor; assumption]).
    + destruct ph; split_ifs; try discriminate; inversion H; subst;
        (split; [reflexivity | constructor]).
  - cbn [lex_step] in H. simpl in Hst.
    destruct rest as [|x rest]; [discriminate|].
    destruct (N.eqb c x); [|discriminate].
    destruct rest; inversion H; subst;
      (split; [reflexivity || assumption | repeat constructor; assumption]).
Qed.

Lemma lex_string_free :
  forall s st ts,
    Forall no_double_quote s -> string_free_state st = true ->
    lex st s = Some ts -> Forall (fun t => string_free_token t = true) ts.
Proof.
  induction s as [|c s IH]; intros st ts Hs Hst H; cbn [lex] in H.
  - destruct st as [|acc|acc|acc hex|ph acc|rest t]; try discriminate.
    + inversion H. constructor.
    + simpl in H. destruct ph; inversion H; repeat constructor.
  - inversion Hs; subst.
    destruct (lex_step st c) as [[st' ts1]|] eqn:E; [|discriminate].
    destruct (lex_step_string_free _ Hst H2 E) as [A B].
    destruct (lex st' s) as [ts2|] eqn:E2; [|discriminate].
    inversion H; subst. apply Forall_app. split; [exact B|].
    eapply IH; eassumption.
Qed.

Lemma deliver_memberless (v : value) (stack : list frame) (md : mode)
  (stack' : list frame) :
  memberless v -> Forall memberless_frame stack ->
  deliver v stack = Some (md, stack') ->
  memberless_mode md /\ Forall memberless_frame stack'.
Proof.
  intros Hv Hs H. destruct stack as [|[items|fields [k|]] st]; simpl in H.
  - inversion H; subst. split; [exact Hv | constructor].
  - inversion H; subst. inversion Hs; subst.
    split; [exact I | constructor; [exact I | assumption]].
  - inversion Hs; subst. destruct H2 as [_ H2]. discriminate.
  - discriminate.
Qed.

Lemma parse_step_memberless (md md' : mode) (stack stack' : list frame) (t : token) :
  string_free_token t = true -> Forall memberless_frame stack ->
  parse_step md stack t = Some (md', stack') ->
  memberless_mode md' /\ Forall memberless_frame stack'.
Proof.
  intros Ht Hs H.
  assert (Hvalue : forall md1 st1,
            parse_value_token t stack = Some (md1, st1) ->
            memberless_mode md1 /\ Forall memberless_frame st1).
  { intros md1 st1 Hv. destruct t; simpl in Hv; try discriminate;
      try (eapply deliver_memberless; [| exact Hs | exact Hv]; exact I);
      inversion Hv; subst;
      (split; [exact I | constructor; [simpl; auto | exact Hs]]). }
  assert (Hclose : forall md1 st1,
            parse_close t stack = Some (md1, st1) ->
            memberless_mode md1 /\ Forall memberless_frame st1).
  { intros md1 st1 Hc. unfold parse_close in Hc.
    destruct t; try discriminate;
      destruct stack as [|[items|fields [k|]] st]; try discriminate;
      inversion Hs as [|? ? Hf Hst]; subst.
    - simpl in Hf. destruct Hf as [-> _].
      eapply deliver_memberless; [| exact Hst | exact Hc]. exact I.
    - eapply deliver_memberless; [| exact Hst | exact Hc]. exact I. }
  assert (Hkey : parse_key t stack = None).
  { destruct t; try reflexivity. discriminate. }
  destruct md; cbn [parse_step] in H.
  - apply Hvalue, H.
  - destruct t; try (apply Hvalue, H). apply Hclose, H.
  - destruct t; try (rewrite Hkey in H; discriminate). apply Hclose, H.
  - rewrite Hkey in H. discriminate.
  - destruct t; try discriminate. inversion H; subst. split; [exact I | exact Hs].
  - destruct t; try (apply Hclose, H);
      destruct stack as [|[items|fields k] st]; try (apply Hclose, H);
      inversion H; subst; (split; [exact I | exact Hs]).
  - discriminate.
Qed.

Lemma parse_tokens_memberless :
  forall ts md stack v,
    Forall (fun t => string_free_token t = true) ts ->
    memberless_mode md -> Forall memberless_frame stack ->
    parse_tokens md stack ts = Some v -> memberless v.
Proof.
  induction ts as [|t ts IH]; intros md stack v Hts Hmd Hs H; cbn [parse_tokens] in H.
  - destruct md; try discriminate. inversion H; subst. exact Hmd.
  - inversion Hts; subst.
    destruct (parse_step md stack t) as [[md' stack']|] eqn:E; [|discriminate].
    destruct (parse_step_memberless _ _ H2 Hs E) as [A B].
    eapply IH; eassumption.
Qed.

(** Text without a double quote parses, if at all, to a value that is no
    string and has no member. *)
Lemma JSON_parse_memberless (text : jsstring) (v : value) :
  Forall no_double_quote text -> JSON_parse text = Some v -> memberless v.
Proof.
  unfold JSON_parse. intros Ht H.
  destruct (lex LStart text) as [ts|] eqn:E; [|discriminate].
  eapply parse_tokens_memberless; [ | | | exact H].
  - apply (@lex_string_free text LStart ts Ht eq_refl E).
  - exact I.
  - constructor.
Qed.

Lemma no_quote_no_double_quote (t : jsstring) :
  Forall no_quote t -> Forall no_double_quote t.
Proof.
  apply Forall_impl. intros c H. unfold no_quote in H. unfold no_double_quote.
  change (js "'`") with [39%N; 34%N] in H. simpl in H.
  apply orb_false_iff in H. destruct H as [_ H].
  apply orb_false_iff in H. tauto.
Qed.

Lemma get_memberless (v x : value) (k : jsstring) :
  memberless v -> get v k = Return x -> x = VUndefined.
Proof.
  destruct v as [| |b|n|s|items|[|f fields]]; simpl; intros Hv H;
    try contradiction; try discriminate; inversion H; reflexivity.
Qed.

(** What the attribute pattern captures parses, if at all, to a value
    without members. *)
Lemma attribute_capture_memberless (text : jsstring) (mt : match_result) (v : value) :
  search player_info_pattern text = Some mt ->
  parse_capture 1 mt = Some v -> memberless v.
Proof.
  intros Hs Hp. unfold parse_capture in Hp.
  destruct (capture 1 (groups mt)) as [t|] eqn:Hc; [|discriminate].
  apply (JSON_parse_memberless (text := t)); [|exact Hp].
  apply no_quote_no_double_quote.
  eapply search_groups_only; [apply player_info_pattern_groups | exact Hs | exact Hc].
Qed.

Lemma add_track_memberless (h : Host) (base a : jsstring) (v : value)
  (tracks tracks' : list track) :
  memberless v -> add_track h base a v tracks = Return tracks' -> tracks' = tracks.
Proof.
  intros Hv H. unfold add_track in H.
  destruct (get v (js "src")) as [s|] eqn:E; cbn [outcome_bind] in H; [|discriminate].
  eapply get_memberless in E; [|exact Hv]. subst s. cbn [truthy] in H. inversion H.
  reflexivity.
Qed.

(** X5. Whatever the HTML, the first method of the single-track cascade
    never reads a name or a source: what its pattern captures holds no
    quote, so the parsed value has no member, and when [extractTrackInfo]
    returns a descriptor at all it is the default name with an undefined
    source. *)
Theorem attribute_method_reads_nothing (html : jsstring) (info : track_info) :
  extractTrackInfo html = Some info ->
  info = {| name := VStr (js "Unknown Track"); src := VUndefined |}.
Proof.
  unfold extractTrackInfo. intros H.
  destruct (search player_info_pattern html) as [mt|] eqn:Hs; [|discriminate].
  destruct (parse_capture 1 mt) as [data|] eqn:Hp; [|discriminate].
  pose proof (attribute_capture_memberless _ Hs Hp) as Hm.
  destruct (get data (js "name")) as [n|] eqn:En; [|discriminate].
  destruct (get data (js "src")) as [s|] eqn:Es; [|discriminate].
  eapply get_memberless in En; [|exact Hm]. eapply get_memberless in Es; [|exact Hm].
  subst n s. inversion H. reflexivity.
Qed.

Lemma attribute_method_reads_nothing_witness :
  exists info,
    extractTrackInfo (outerHTML (doc empty_attribute_page)) = Some info
    /\ info = {| name := VStr (js "Unknown Track"); src := VUndefined |}.
Proof.
  eexists. split; [reflexivity|].
  apply (@attribute_method_reads_nothing (outerHTML (doc empty_attribute_page))).
  reflexivity.
Defined.

Lemma scan_match_adds_nothing (h : Host) (base a : jsstring) (tracks : list track)
  (text : jsstring) :
  scan_match h base a tracks text = tracks.
Proof.
  unfold scan_match.
  destruct (search player_info_pattern text) as [mt|] eqn:Hs; [|reflexivity].
  destruct (parse_capture 1 mt) as [v|] eqn:Hp; [|reflexivity].
  destruct (add_track h base a v tracks) as [tracks'|] eqn:E; [|reflexivity].
  apply (add_track_memberless _ _ _ _ _ (attribute_capture_memberless _ Hs Hp) E).
Qed.

(** X6. The third method of the profile extraction, the sweep of the raw
    HTML for the attribute, never adds a track: its pattern captures no
    quote, so no captured text parses to an object with a name and a
    source.  The tracks of a profile page therefore are those of the first
    method or, when it finds none, those of the second. *)
Theorem html_sweep_adds_nothing (h : Host) (d : document) (html base a : jsstring)
  (tracks : list track) :
  profile_method3 h base a html tracks = tracks
  /\ snd (locate_profile h d html base a)
     = Return (let found := profile_method1 h base a (player_info_elements d) [] in
               if is_nil found
               then profile_method2 h base a html jsTrackPatterns found
               else found).
Proof.
  assert (H3 : forall t, profile_method3 h base a html t = t).
  { intros t. unfold profile_method3.
    destruct (match_all player_info_pattern html) as [l|]; [|reflexivity].
    revert t. induction l as [|x l IH]; intros t; [reflexivity|].
    simpl. rewrite scan_match_adds_nothing. apply IH. }
  split; [apply H3|].
  unfold locate_profile. cbv zeta.
  set (t1 := profile_method1 h base a (player_info_elements d) []).
  unfold bind, log, ret. cbv beta iota zeta.
  destruct (is_nil t1) eqn:E1; cbv beta iota zeta.
  - destruct (is_nil (profile_method2 h base a html jsTrackPatterns t1));
      cbv beta iota zeta; cbn [snd]; rewrite ?H3; reflexivity.
  - rewrite E1. reflexivity.
Qed.

(** ** The script scan of the single-track cascade *)

Lemma lit_never_captures (i : nat) (l : jsstring) : always_captures i (lit l) = false.
Proof. induction l; simpl; auto. Qed.

Lemma lit_groups_consume (l : jsstring) : groups_consume (lit l) = true.
Proof. induction l; simpl; auto. Qed.

Lemma unquoted_text (c : N) :
  negb (mem c (js "`")) = true -> no_double_quote c.
Proof.
  intros H. apply negb_true_iff in H. unfold no_double_quote.
  change (js "`") with [34%N] in H. cbn [mem existsb] in H.
  apply orb_false_iff in H. tauto.
Qed.

Lemma trackPatterns_capture : Forall captures_pair trackPatterns.
Proof.
  unfold trackPatterns.
  repeat apply Forall_cons; try apply Forall_nil;
    unfold captures_pair, member_pair, quoted_member, plus, none_of, any, ws;
    cbn [seqs always_captures groups_consume groups_only consumes_only nullable];
    rewrite ?lit_never_captures, ?lit_groups_consume;
    cbn [Nat.eqb orb andb negb];
    repeat split; try apply groups_only_lit; try apply unquoted_text.
Qed.

Lemma search_pair (p : regex) (content : jsstring) (mt : match_result) :
  captures_pair p -> search p content = Some mt ->
  exists n s,
    capture 1 (groups mt) = Some n /\ capture 2 (groups mt) = Some s
    /\ n <> [] /\ s <> []
    /\ Forall no_double_quote n /\ Forall no_double_quote s.
Proof.
  intros (A & B & C & D) H.
  destruct (@search_always_captures p content mt 1 A H) as (n & Hn).
  destruct (@search_always_captures p content mt 2 B H) as (s & Hs).
  exists n, s. repeat split; try assumption.
  - eapply (@search_from_groups p); eassumption.
  - eapply (@search_from_groups p); eassumption.
  - eapply search_groups_only; eassumption.
  - eapply search_groups_only; eassumption.
Qed.

Lemma first_track_pattern_shape (content : jsstring) (info : track_info) :
  forall patterns,
    Forall captures_pair patterns ->
    first_track_pattern patterns content = Some info ->
    exists n s,
      info = {| name := VStr n; src := VStr s |}
      /\ n <> [] /\ s <> []
      /\ Forall no_double_quote n /\ Forall no_double_quote s.
Proof.
  induction patterns as [|p ps IH]; [discriminate|]. intros F H.
  inversion F; subst. cbn [first_track_pattern] in H.
  destruct (search p content) as [mt|] eqn:E; [|apply IH; assumption].
  destruct (@search_pair p content mt H2 E) as (n & s & Hn & Hs & R).
  exists n, s. split; [|exact R].
  inversion H. unfold capture_value. rewrite Hn, Hs. reflexivity.
Qed.

Lemma single_method2_first (scripts : list script_element) (info : track_info) :
  single_method2 scripts = Some info ->
  exists before script after,
    scripts = before ++ script :: after
    /\ single_method2 before = None
    /\ first_track_pattern trackPatterns (script_content script) = Some info.
Proof.
  induction scripts as [|script scripts IH]; [discriminate|].
  cbn [single_method2]. fold (script_content script).
  intros H.
  assert (Hskip : single_method2 scripts = Some info ->
                  (is_empty (script_content script) = true
                   \/ first_track_pattern trackPatterns (script_content script) = None) ->
                  exists before script0 after,
                    script :: scripts = before ++ script0 :: after
                    /\ single_method2 before = None
                    /\ first_track_pattern trackPatterns (script_content script0)
                       = Some info).
  { intros H' Hn. destruct (IH H') as (before & s0 & after & -> & Hb & Hf).
    exists (script :: before), s0, after. repeat split; try assumption.
    cbn [single_method2]. fold (script_content script).
    destruct Hn as [-> | ->]; [exact Hb|].
    destruct (is_empty (script_content script)); exact Hb. }
  destruct (is_empty (script_content script)) eqn:E; [apply Hskip; auto|].
  destruct (first_track_pattern trackPatterns (script_content script)) as [i|] eqn:F;
    [|apply Hskip; auto].
  inversion H; subst. exists [], script, scripts. repeat split. exact F.
Qed.

(** X7. What the script scan of the single-track cascade returns comes from
    the first script, in document order, in which one of the four patterns
    matches; its name and its source are non-empty strings without a
    double quote. *)
Theorem script_scan_descriptor (scripts : list script_element) (info : track_info) :
  single_method2 scripts = Some info ->
  exists before script after n s,
    scripts = before ++ script :: after
    /\ single_method2 before = None
    /\ first_track_pattern trackPatterns (script_content script) = Some info
    /\ info = {| name := VStr n; src := VStr s |}
    /\ n <> [] /\ s <> []
    /\ Forall no_double_quote n /\ Forall no_double_quote s.
Proof.
  intros H. destruct (@single_method2_first _ _ H) as (before & script & after & E & Hb & Hf).
  destruct (@first_track_pattern_shape _ _ trackPatterns trackPatterns_capture Hf) as (n & s & R).
  exists before, script, after, n, s. tauto.
Qed.

Lemma script_scan_descriptor_witness :
  exists before script after n s,
    scripts (doc scenario_page_with_script) = before ++ script :: after
    /\ single_method2 before = None
    /\ first_track_pattern trackPatterns (script_content script)
       = Some {| name := VStr (js "My Track"); src := VStr (js "/abc.mp3") |}
    /\ {| name := VStr (js "My Track"); src := VStr (js "/abc.mp3") |}
       = {| name := VStr n; src := VStr s |}
    /\ n <> [] /\ s <> []
    /\ Forall no_double_quote n /\ Forall no_double_quote s.
Proof.
  apply (@script_scan_descriptor (scripts (doc scenario_page_with_script))).
  reflexivity.
Defined.

(** ** The order of the single-track cascade and the failures of the script *)

(** X8. The single-track cascade starts its methods in the order one to
    four, starts a method only when every method before it has found
    nothing, and returns what the last method it started has found. *)
Theorem single_cascade_order (d : document) (realUrl html awsBaseUrl : jsstring) :
  exists k,
    1 <= k <= 4
    /\ locate_single d realUrl html awsBaseUrl
       = (map Method (seq 1 k),
          Return (nth (k - 1) (single_methods d realUrl html awsBaseUrl) None))
    /\ (forall j, j < k - 1 ->
          nth j (single_methods d realUrl html awsBaseUrl) None = None)
    /\ (k < 4 -> nth (k - 1) (single_methods d realUrl html awsBaseUrl) None <> None).
Proof.
  unfold locate_single, single_methods.
  unfold bind, log, ret. cbv beta iota zeta.
  destruct (extractTrackInfo html) as [i1|] eqn:E1.
  { exists 1. split; [lia|]. split; [reflexivity|]. split; [|discriminate].
    intros j Hj. simpl in Hj. lia. }
  cbv beta iota zeta.
  destruct (single_method2 (scripts d)) as [i2|] eqn:E2.
  { exists 2. split; [lia|]. split; [reflexivity|]. split; [|discriminate].
    intros j Hj. simpl in Hj. destruct j; [reflexivity | lia]. }
  cbv beta iota zeta.
  destruct (single_method3 d awsBaseUrl) as [i3|] eqn:E3.
  { exists 3. split; [lia|]. split; [reflexivity|]. split; [|discriminate].
    intros j Hj. simpl in Hj. destruct j as [|[|j]]; try reflexivity. lia. }
  exists 4. split; [lia|]. split; [reflexivity|]. split; [|lia].
  intros j Hj. simpl in Hj. destruct j as [|[|[|j]]]; try reflexivity. lia.
Qed.

Lemma extractTrackInfo_printable (html : jsstring) (info : track_info) :
  extractTrackInfo html = Some info -> printable info.
Proof.
  unfold extractTrackInfo. intros H.
  destruct (search player_info_pattern html) as [mt|] eqn:Hs; [|discriminate].
  destruct (parse_capture 1 mt) as [data|] eqn:Hp; [|discriminate].
  pose proof (attribute_capture_memberless _ Hs Hp) as Hm.
  destruct (get data (js "name")) as [n|] eqn:En; [|discriminate].
  destruct (get data (js "src")) as [s|] eqn:Es; [|discriminate].
  eapply get_memberless in En; [|exact Hm]. eapply get_memberless in Es; [|exact Hm].
  subst n s. inversion H. split; simpl; eauto.
Qed.

Lemma locate_single_printable (d : document) (realUrl html base : jsstring)
  (events : list event) (result : outcome (option track_info)) :
  locate_single d realUrl html base = (events, result) ->
  exists found,
    result = Return found /\ forall info, found = Some info -> printable info.
Proof.
  unfold locate_single. unfold bind, log, ret. cbv beta iota zeta.
  destruct (extractTrackInfo html) as [i1|] eqn:E1.
  { intros H. inversion H; subst. eexists. split; [reflexivity|].
    intros info Hi. inversion Hi; subst. apply (@extractTrackInfo_printable _ _ E1). }
  cbv beta iota zeta.
  destruct (single_method2 (scripts d)) as [i2|] eqn:E2.
  { intros H. inversion H; subst. eexists. split; [reflexivity|].
    intros info Hi. inversion Hi; subst.
    destruct (@single_method2_first _ _ E2) as (? & ? & ? & _ & _ & Hf).
    destruct (@first_track_pattern_shape _ _ trackPatterns trackPatterns_capture Hf)
      as (n & s & -> & _).
    split; simpl; eauto. }
  cbv beta iota zeta.
  destruct (single_method3 d base) as [i3|] eqn:E3.
  { intros H. inversion H; subst. eexists. split; [reflexivity|].
    intros info Hi. inversion Hi; subst. unfold single_method3 in E3.
    destruct (first_audio_source base (audio_sources d)); [|discriminate].
    inversion E3. split; simpl; eauto. }
  cbv beta iota zeta. intros H. inversion H; subst.
  eexists. split; [reflexivity|]. intros info Hi. unfold single_method4 in Hi.
  destruct (search track_id_pattern realUrl); [|discriminate].
  destruct (match_all mp3_pattern html) as [[|mp3 l]|]; try discriminate.
  inversion Hi. split; simpl; eauto.
Qed.

Lemma single_throws (h : Host) (w : window) (u : jsstring) (flag : value)
  (events : list event) (e : exn) :
  extractSingleBeat h w u flag = (events, Throw e) ->
  e = Error short_url_unresolved \/ e = Error aws_missing_single
  \/ e = Error track_missing.
Proof.
  unfold extractSingleBeat, followRedirect. intros H.
  remember (if includes u (js "traktra.in/t/")
            then match fetch_url w u with
                 | Some final => ret final
                 | None => throw (Error (js "Could not resolve short URL"))
                 end
            else ret u) as first eqn:F.
  unfold bind at 1 in H.
  destruct first as [t0 [realUrl|e0]].
  2:{ inversion H; subst e. left.
      destruct (includes u (js "traktra.in/t/")); [destruct (fetch_url w u)|];
        inversion F. reflexivity. }
  destruct (falsy (extractAwsBaseUrl (outerHTML (doc w)))).
  { inversion H. right. left. reflexivity. }
  unfold bind at 1 in H.
  destruct (locate_single (doc w) realUrl (outerHTML (doc w)) _)
    as [t1 r] eqn:Hl.
  destruct (@locate_single_printable _ _ _ _ _ _ Hl) as (found & -> & Hp).
  destruct found as [info|].
  2:{ inversion H. right. right. reflexivity. }
  destruct (Hp info eq_refl) as [(n & Hn) Hs].
  unfold concat_url in H. run_in H. rewrite Hn in H.
  destruct Hs as [Hs | (s & Hs)]; rewrite Hs in H; cbn [to_string outcome_bind sanitize] in H;
    inversion H.
Qed.

Lemma profile_throws (h : Host) (w : window) (flag : value)
  (events : list event) (e : exn) :
  extractProfileBeats h w (location_href w) flag = (events, Throw e) ->
  e = Error artist_missing \/ e = Error aws_missing_profile
  \/ exists base,
       extractAwsBaseUrl (outerHTML (doc w)) = Some base
       /\ e = Error (no_tracks (location_href w) (Some base)
                       (length (player_info_elements (doc w)))).
Proof.
  unfold extractProfileBeats. intros H.
  destruct (falsy (extractArtistFromUrl h (location_href w))).
  { inversion H. left. reflexivity. }
  destruct (extractAwsBaseUrl (outerHTML (doc w))) as [base|] eqn:Hb.
  2:{ inversion H. right. left. reflexivity. }
  destruct (falsy (Some base)).
  { inversion H. right. left. reflexivity. }
  unfold bind at 1 in H.
  destruct (locate_profile h (doc w) (outerHTML (doc w)) base _) as [t1 [tracks|e1]] eqn:Hl.
  - destruct (is_nil tracks); inversion H. right. right. exists base. split; reflexivity.
  - exfalso. revert Hl. unfold locate_profile, bind, log, ret. cbv beta iota zeta.
    repeat match goal with
           | [ |- context [if ?b then _ else _] ] => destruct b; cbv beta iota zeta
           end; discriminate.
Qed.

Lemma single_returns_success (h : Host) (w : window) (u : jsstring) (flag : value)
  (events : list event) (r : envelope) :
  extractSingleBeat h w u flag = (events, Return r) -> exists d, r = Success d.
Proof.
  unfold extractSingleBeat. intros H.
  set (first := if includes u (js "traktra.in/t/") then followRedirect w u else ret u) in H.
  unfold bind at 1 in H.
  destruct first as [t0 [realUrl|e]]; [|discriminate].
  destruct (falsy (extractAwsBaseUrl (outerHTML (doc w)))); [discriminate|].
  unfold bind at 1 in H.
  destruct (locate_single (doc w) realUrl (outerHTML (doc w)) _)
    as [t1 [[info|]|e]]; try discriminate.
  unfold concat_url in H. run_in H.
  destruct (to_string h (src info)); cbn [outcome_bind] in H; [|discriminate].
  destruct (sanitize (name info)); [|discriminate].
  inversion H. eauto.
Qed.

(** X9. Every failure envelope of the handler carries one of seven
    messages: the invalid type, the unresolved short link, the missing
    base URL of either page type, the missing track, the missing artist,
    or the no-tracks report, which is then built with a base URL that was
    found.  A message of the engine never reaches the caller. *)
Theorem failures_are_known (h : Host) (w : window) (type flag : value)
  (events : list event) (message : jsstring) :
  handleDataExtraction h w type flag = (events, Return (Failure message)) ->
  known_failure w message.
Proof.
  unfold handleDataExtraction, try_catch, known_failure. intros H.
  destruct (dispatch h w type flag) as [t [r|e]] eqn:D.
  - exfalso. inversion H; subst. unfold dispatch in D.
    destruct (is_string type (js "single")).
    + apply single_returns_success in D. destruct D as (d & Q). discriminate.
    + destruct (is_string type (js "profile")); [|discriminate].
      unfold extractProfileBeats in D.
      destruct (falsy (extractArtistFromUrl h (location_href w))); [discriminate|].
      destruct (falsy (extractAwsBaseUrl (outerHTML (doc w)))); [discriminate|].
      unfold bind at 1 in D.
      destruct (locate_profile _ _ _ _ _) as [t1 [tracks|e1]]; [|discriminate].
      destruct (is_nil tracks); discriminate.
  - unfold ret in H. inversion H; subst. unfold dispatch in D.
    destruct (is_string type (js "single")).
    + apply single_throws in D. destruct D as [-> | [-> | ->]]; simpl; tauto.
    + destruct (is_string type (js "profile")).
      * apply profile_throws in D.
        destruct D as [-> | [-> | (base & Hb & ->)]]; simpl; try tauto.
        do 6 right. exists base. split; [exact Hb | reflexivity].
      * inversion D. simpl. tauto.
Qed.

Lemma failures_are_known_witness :
  known_failure root_profile_page artist_missing.
Proof.
  apply (@failures_are_known reference_host root_profile_page
           (VStr (js "profile")) no_flag []).
  reflexivity.
Defined.

(** ** The no-tracks report *)

Lemma split_count (x : N) :
  forall s cur, length (split_from [x] 0 cur s) = S (count_occ N.eq_dec s x).
Proof.
  induction s as [|y s IH]; intros cur; cbn [split_from]; [reflexivity|].
  cbn [starts_with count_occ]. destruct (N.eq_dec y x) as [->|Hn].
  - rewrite N.eqb_refl. cbn [andb length pred]. rewrite IH. reflexivity.
  - destruct (N.eqb x y) eqn:E; [apply N.eqb_eq in E; congruence|].
    cbn [andb]. apply IH.
Qed.

Lemma includes_char (x : N) (s : jsstring) : In x s -> includes s [x] = true.
Proof.
  intros H. apply in_split in H. destruct H as (a & b & ->).
  apply (includes_intro a [x] b).
Qed.

(** X10. The no-tracks report calls the page an individual track page
    exactly when the address holds at least four slashes, and a profile
    page otherwise; so an artist address with a slash at its end is
    reported as a track page. *)
Theorem no_tracks_page_guess (url : jsstring) (base : option jsstring) (n : nat) :
  (4 <= slash_count url ->
   exists rest,
     no_tracks url base n = js "No tracks found on this individual track page" ++ rest)
  /\ (slash_count url < 4 ->
      exists rest,
        no_tracks url base n = js "No tracks found on this profile page" ++ rest).
Proof.
  unfold no_tracks, slash_count, split_on. change (js "/") with [47%N].
  rewrite split_count. split; intros H.
  - assert (Hin : In 47%N url) by (apply (count_occ_In N.eq_dec); lia).
    rewrite (includes_char _ _ Hin).
    assert (E : (4 <? S (count_occ N.eq_dec url 47%N)) = true)
      by (apply Nat.ltb_lt; lia).
    rewrite E. cbn [andb]. eexists.
    change (js "No tracks found on this individual track page")
      with (js "No tracks found on this " ++ js "individual track page").
    rewrite <- app_assoc. reflexivity.
  - assert (E : (4 <? S (count_occ N.eq_dec url 47%N)) = false)
      by (apply Nat.ltb_ge; lia).
    rewrite E, andb_false_r. eexists.
    change (js "No tracks found on this profile page")
      with (js "No tracks found on this " ++ js "profile page").
    rewrite <- app_assoc. reflexivity.
Qed.

Lemma no_tracks_page_guess_witness :
  exists rest,
    no_tracks (js "https://traktrain.com/someartist/") None 0
    = js "No tracks found on this individual track page" ++ rest.
Proof.
  apply (@no_tracks_page_guess (js "https://traktrain.com/someartist/") None 0).
  unfold slash_count. simpl. lia.
Defined.

(** ** The tracks of a result *)

Section ProfileInvariant.

Variable h : Host.
Variables base a : jsstring.
Variable Q : track -> Prop.

Hypothesis add_track_keeps :
  forall v tracks tracks',
    add_track h base a v tracks = Return tracks' ->
    Forall Q tracks -> Forall Q tracks'.

Lemma scan_element_keeps (tracks : list track) (e : jsstring) :
  Forall Q tracks -> Forall Q (scan_element h base a tracks e).
Proof.
  intros F. unfold scan_element.
  destruct (is_empty e); [exact F|].
  destruct (JSON_parse e) as [v|]; [|exact F].
  destruct (add_track h base a v tracks) eqn:E; [|exact F].
  eapply add_track_keeps; eassumption.
Qed.

Lemma add_tracks_keeps (items : list value) :
  forall tracks,
    Forall Q tracks -> Forall Q (fst (add_tracks h base a items tracks)).
Proof.
  induction items as [|v items IH]; intros tracks F; simpl; [exact F|].
  destruct (add_track h base a v tracks) eqn:E; [|exact F].
  apply IH. eapply add_track_keeps; eassumption.
Qed.

Lemma profile_method2_keeps (html : jsstring) (patterns : list regex) :
  forall tracks,
    Forall Q tracks -> Forall Q (profile_method2 h base a html patterns tracks).
Proof.
  induction patterns as [|p ps IH]; intros tracks F; cbn [profile_method2]; [exact F|].
  destruct (search p html) as [mt|]; [|apply IH, F].
  assert (F' : Forall Q (fst (scan_state h base a mt tracks))).
  { unfold scan_state. destruct (parse_capture 1 mt) as [v|]; [|exact F].
    destruct (select_track_array v) as [arr|]; [|exact F].
    destruct arr; simpl; try exact F. apply add_tracks_keeps, F. }
  destruct (scan_state h base a mt tracks) as [tracks' completed].
  simpl in F'. destruct (completed && _); [exact F' | apply IH, F'].
Qed.

Lemma locate_profile_keeps (d : document) (html : jsstring)
  (events : list event) (tracks : list track) :
  locate_profile h d html base a = (events, Return tracks) -> Forall Q tracks.
Proof.
  unfold locate_profile.
  assert (F1 : Forall Q (profile_method1 h base a (player_info_elements d) [])).
  { unfold profile_method1.
    apply (fold_left_invariant (Forall Q)); [|constructor].
    intros acc x. apply scan_element_keeps. }
  set (t1 := profile_method1 h base a (player_info_elements d) []) in *.
  assert (F2 : Forall Q (profile_method2 h base a html jsTrackPatterns t1))
    by (apply profile_method2_keeps, F1).
  set (t2 := profile_method2 h base a html jsTrackPatterns t1) in *.
  assert (H3 : forall t, profile_method3 h base a html t = t).
  { intros t. unfold profile_method3.
    destruct (match_all player_info_pattern html) as [l|]; [|reflexivity].
    revert t. induction l as [|x l IH]; intros t; [reflexivity|].
    simpl. rewrite scan_match_adds_nothing. apply IH. }
  intros H. run_in H.
  destruct (is_nil t1) eqn:E1; cbv beta iota zeta in H.
  - destruct (is_nil t2); cbv beta iota zeta in H; inversion H; subst;
      rewrite ?H3; exact F2.
  - rewrite E1 in H. inversion H; subst. exact F1.
Qed.

End ProfileInvariant.

(** ** Where the tracks of a profile page come from *)

Lemma add_track_source (h : Host) (base a : jsstring) (v : value)
  (tracks tracks' : list track) :
  add_track h base a v tracks = Return tracks' ->
  tracks' = tracks
  \/ exists t, gives_track h base a v t /\ tracks' = tracks ++ [t].
Proof.
  intros H. destruct (candidate_cases h base a v) as [(t & Hg)|[Hp|Hb]].
  - rewrite (add_track_gives tracks Hg) in H. inversion H. right. eauto.
  - rewrite (add_track_passed h base a tracks Hp) in H. inversion H. tauto.
  - destruct (add_track_breaks base a tracks Hb) as (e & E).
    rewrite E in H. discriminate.
Qed.

Lemma fold_left_invariant_in {A B} (Q : A -> Prop) (f : A -> B -> A) (l : list B) :
  (forall acc x, In x l -> Q acc -> Q (f acc x)) ->
  forall init, Q init -> Q (fold_left f l init).
Proof.
  induction l as [|x l IH]; intros Hf init Hi; simpl; [exact Hi|].
  apply IH.
  - intros acc y Hy. apply Hf. right. exact Hy.
  - apply Hf; [left; reflexivity | exact Hi].
Qed.

Section ProfileSources.

Variable h : Host.
Variable d : document.
Variables html base a : jsstring.

(** A track made from a candidate of the page. *)
Let sourced (t : track) : Prop :=
  exists v, page_descriptor d html v /\ gives_track h base a v t.

Lemma add_track_sourced (v : value) (tracks tracks' : list track) :
  page_descriptor d html v ->
  add_track h base a v tracks = Return tracks' ->
  Forall sourced tracks -> Forall sourced tracks'.
Proof.
  intros Hv H F. apply add_track_source in H.
  destruct H as [->|(t & Hg & ->)]; [exact F|].
  apply Forall_app. split; [exact F|].
  constructor; [|constructor]. exists v. tauto.
Qed.

Lemma scan_element_sourced (tracks : list track) (e : jsstring) :
  In e (player_info_elements d) ->
  Forall sourced tracks -> Forall sourced (scan_element h base a tracks e).
Proof.
  intros He F. unfold scan_element.
  destruct (is_empty e); [exact F|].
  destruct (JSON_parse e) as [v|] eqn:Ev; [|exact F].
  destruct (add_track h base a v tracks) eqn:E; [|exact F].
  eapply add_track_sourced; [|exact E | exact F].
  eapply element_descriptor; eassumption.
Qed.

Lemma add_tracks_sourced (items : list value) :
  (forall v, In v items -> page_descriptor d html v) ->
  forall tracks,
    Forall sourced tracks -> Forall sourced (fst (add_tracks h base a items tracks)).
Proof.
  induction items as [|v items IH]; intros Hi tracks F; simpl; [exact F|].
  destruct (add_track h base a v tracks) eqn:E; [|exact F].
  apply IH.
  - intros x Hx. apply Hi. right. exact Hx.
  - eapply add_track_sourced; [|exact E | exact F]. apply Hi. left. reflexivity.
Qed.

Lemma profile_method2_sourced (patterns : list regex) :
  incl patterns jsTrackPatterns ->
  forall tracks,
    Forall sourced tracks ->
    Forall sourced (profile_method2 h base a html patterns tracks).
Proof.
  induction patterns as [|p ps IH]; intros Hin tracks F; cbn [profile_method2];
    [exact F|].
  assert (Hps : incl ps jsTrackPatterns)
    by (intros x Hx; apply Hin; right; exact Hx).
  destruct (search p html) as [mt|] eqn:Es; [|apply (IH Hps), F].
  assert (F' : Forall sourced (fst (scan_state h base a mt tracks))).
  { unfold scan_state. destruct (parse_capture 1 mt) as [data|] eqn:Ep; [|exact F].
    rewrite select_track_array_present.
    destruct data as [| |b|n|s|items|fields]; try exact F;
      match goal with
      | [ |- context [first_present_candidate ?x] ] =>
          destruct (first_present_candidate x) as [| |b'|n'|s'|items'|fields'] eqn:Ec;
          cbn [iterate_tracks fst]; try exact F;
          apply add_tracks_sourced; [|exact F];
          intros v Hv;
          apply (@state_descriptor d html p x items' v);
          [ apply Hin; left; reflexivity
          | unfold captured_state; rewrite Es; cbn [option_map]; rewrite Ep; reflexivity
          | exact Ec
          | exact Hv ]
      end. }
  destruct (scan_state h base a mt tracks) as [tracks' completed].
  simpl in F'. destruct (completed && _); [exact F' | apply (IH Hps), F'].
Qed.

Lemma locate_profile_sourced (events : list event) (tracks : list track) :
  locate_profile h d html base a = (events, Return tracks) -> Forall sourced tracks.
Proof.
  unfold locate_profile.
  assert (F1 : Forall sourced (profile_method1 h base a (player_info_elements d) [])).
  { unfold profile_method1.
    apply (fold_left_invariant_in (Forall sourced)); [|constructor].
    intros acc x Hx. apply scan_element_sourced, Hx. }
  set (t1 := profile_method1 h base a (player_info_elements d) []) in *.
  assert (F2 : Forall sourced (profile_method2 h base a html jsTrackPatterns t1))
    by (apply profile_method2_sourced; [apply incl_refl | exact F1]).
  set (t2 := profile_method2 h base a html jsTrackPatterns t1) in *.
  assert (H3 : forall t, profile_method3 h base a html t = t).
  { intros t. unfold profile_method3.
    destruct (match_all player_info_pattern html) as [l|]; [|reflexivity].
    revert t. induction l as [|x l IH]; intros t; [reflexivity|].
    simpl. rewrite scan_match_adds_nothing. apply IH. }
  intros H. run_in H.
  destruct (is_nil t1) eqn:E1; cbv beta iota zeta in H.
  - destruct (is_nil t2); cbv beta iota zeta in H; inversion H; subst;
      rewrite ?H3; exact F2.
  - rewrite E1 in H. inversion H; subst. exact F1.
Qed.

End ProfileSources.

(** C5, as stated, fails: the extraction succeeds with a track whose URL has
    no scheme, so is not an absolute URL. *)
Lemma success_with_relative_url :
  handleDataExtraction reference_host relative_base_page (VStr (js "profile")) no_flag
  = ([Method 1],
     Return (Success {| tracks := [ {| track_name := js "Beat";
                                       url := js "//cdn.example.com/a/1.mp3";
                                       track_artist := js "someartist" |} ];
                        artist := js "someartist";
                        createArtistFolder := no_flag |}))
  /\ has_scheme (js "//cdn.example.com/a/1.mp3") = false.
Proof. split; reflexivity. Qed.

(** C5, amended. Every success envelope holds at least one track, and the
    URL of every track is the base URL found in the page followed by the
    text of the track's source: on a single-track page the source of the
    descriptor that the cascade returned, on a profile page the source of
    a candidate of the page, the parsed attribute of an element or an item
    of a captured state, that gives this very track.  Nothing checks that
    the result is an absolute URL. *)
Theorem success_has_tracks_under_base (h : Host) (w : window) (type flag : value)
  (events : list event) (d : data) :
  handleDataExtraction h w type flag = (events, Return (Success d)) ->
  1 <= length (tracks d)
  /\ exists base,
       extractAwsBaseUrl (outerHTML (doc w)) = Some base
       /\ Forall (fun t =>
            exists s text,
              track_source h w type base t s
              /\ to_string h s = Return text
              /\ url t = base ++ text)
            (tracks d).
Proof.
  unfold handleDataExtraction, track_source. intros H. apply try_catch_success in H.
  unfold dispatch in H.
  destruct (is_string type (js "single")).
  - apply single_success in H.
    destruct H as (base & realUrl & info & rest & sanitized & Hb & Hl & Hs & _ & ->).
    simpl. split; [lia|]. exists base. split; [exact Hb|].
    constructor; [|constructor]. exists (src info), rest.
    split; [|split; [exact Hs | reflexivity]]. eauto.
  - destruct (is_string type (js "profile")); [|discriminate].
    unfold extractProfileBeats in H.
    destruct (falsy (extractArtistFromUrl h (location_href w))); [discriminate|].
    destruct (extractAwsBaseUrl (outerHTML (doc w))) as [base|] eqn:Hb;
      [|discriminate].
    destruct (falsy (Some base)); [discriminate|].
    destruct (locate_profile h (doc w) (outerHTML (doc w)) base _)
      as [t1 [found|e]] eqn:Hl; simpl in H; [|discriminate].
    apply locate_profile_sourced in Hl.
    destruct found as [|t ts]; simpl in H; [discriminate|].
    inversion H; subst. simpl. split; [lia|]. exists base. split; [reflexivity|].
    revert Hl. apply Forall_impl. intros x (v & Hv & Hg).
    destruct Hg as [fields n s text Hn Hne Hs Ht Htext]. cbn [url track_artist].
    exists s, text. split; [|split; [exact Htext | reflexivity]].
    exists (VObj fields). split; [exact Hv|]. split.
    + eapply gives_track_of; eassumption.
    + change (member (js "src") (VObj fields) = s).
      unfold member, get. rewrite Hs. reflexivity.
Qed.

Lemma success_has_tracks_under_base_witness :
  1 <= length mixed_profile_tracks
  /\ exists base,
       extractAwsBaseUrl (outerHTML (doc mixed_profile_page)) = Some base
       /\ Forall (fun t =>
            exists s text,
              track_source reference_host mixed_profile_page (VStr (js "profile"))
                base t s
              /\ to_string reference_host s = Return text
              /\ url t = base ++ text)
            mixed_profile_tracks.
Proof.
  apply (@success_has_tracks_under_base reference_host mixed_profile_page
           (VStr (js "profile")) no_flag [Method 1]
           {| tracks := mixed_profile_tracks;
              artist := js "someartist";
              createArtistFolder := no_flag |}).
  reflexivity.
Defined.


Lemma add_track_sanitized (h : Host) (base a : jsstring) (v : value)
  (tracks tracks' : list track) :
  add_track h base a v tracks = Return tracks' ->
  Forall (sanitized_track a) tracks -> Forall (sanitized_track a) tracks'.
Proof.
  unfold add_track. intros H F.
  destruct (get v (js "src")) as [s|]; cbn [outcome_bind] in H; [|discriminate].
  destruct (truthy s); [|inversion H; subst; exact F].
  destruct (get v (js "name")) as [n|]; cbn [outcome_bind] in H; [|discriminate].
  destruct (truthy n); [|inversion H; subst; exact F].
  destruct (concat_url h base s) as [u|]; cbn [outcome_bind] in H; [|discriminate].
  destruct n; try discriminate. cbn [sanitize outcome_bind] in H.
  inversion H; subst. apply Forall_app. split; [exact F|].
  constructor; [|constructor]. split; [reflexivity | eexists; reflexivity].
Qed.

Lemma sanitizeFilename_again (x : jsstring) :
  sanitizeFilename (sanitizeFilename x) = sanitizeFilename x.
Proof.
  destruct (sanitizeFilename_shape x) as (Hv & Hs & Hh & Hl).
  rewrite (sanitizeFilename_direct (sanitizeFilename x)).
  rewrite (filter_fixed _ _ Hv), (proj1 (squeeze_fixed _ Hs)).
  apply trim_fixed; assumption.
Qed.

Lemma sanitized_track_clean (a : jsstring) (t : track) :
  sanitized_track a t ->
  track_artist t = a
  /\ sanitizeFilename (track_name t) = track_name t
  /\ forall c, In c (track_name t) -> mem c invalid_chars = false.
Proof.
  intros [Ha (n & Hn)]. split; [exact Ha|]. rewrite Hn.
  split; [apply sanitizeFilename_again|].
  intros c Hc. apply (proj1 (sanitizeFilename_shape n)) in Hc.
  apply negb_true_iff in Hc. exact Hc.
Qed.

Lemma success_shape (h : Host) (w : window) (type flag : value)
  (events : list event) (d : data) :
  handleDataExtraction h w type flag = (events, Return (Success d)) ->
  artist d <> []
  /\ createArtistFolder d = flag
  /\ Forall (sanitized_track (artist d)) (tracks d).
Proof.
  unfold handleDataExtraction. intros H. apply try_catch_success in H.
  unfold dispatch in H.
  destruct (is_string type (js "single")).
  - apply single_success in H.
    destruct H as (base & realUrl & info & rest & sanitized & _ & _ & _ & Hn & ->).
    cbn [artist createArtistFolder tracks].
    split; [apply single_artist_nonempty|]. split; [reflexivity|].
    constructor; [|constructor]. split; [reflexivity|].
    cbn [track_name]. destruct (name info); try discriminate.
    inversion Hn. eexists; reflexivity.
  - destruct (is_string type (js "profile")); [|discriminate].
    unfold extractProfileBeats in H.
    destruct (extractArtistFromUrl h (location_href w)) as [a|] eqn:Ha;
      [|discriminate].
    destruct (falsy (Some a)); [discriminate|].
    destruct (falsy (extractAwsBaseUrl (outerHTML (doc w)))); [discriminate|].
    unfold bind at 1 in H.
    destruct (locate_profile h (doc w) (outerHTML (doc w)) _ a)
      as [t1 [found|e]] eqn:Hl; [|discriminate].
    apply (@locate_profile_keeps h _ a (sanitized_track a)
             (@add_track_sanitized h _ a)) in Hl.
    destruct (is_nil found); [discriminate|]. inversion H; subst.
    cbn [artist createArtistFolder tracks].
    split; [apply (extractArtistFromUrl_nonempty _ _ Ha)|]. split; [reflexivity|].
    exact Hl.
Qed.

(** X11. In every success envelope the artist is not empty, the flag is the
    one of the request, and every track carries the artist of the envelope
    and a name that came out of the sanitizer: sanitizing it again changes
    nothing, and it holds none of the nine characters. *)
Theorem success_tracks_are_sanitized (h : Host) (w : window) (type flag : value)
  (events : list event) (d : data) :
  handleDataExtraction h w type flag = (events, Return (Success d)) ->
  artist d <> []
  /\ createArtistFolder d = flag
  /\ Forall (fun t =>
       track_artist t = artist d
       /\ sanitizeFilename (track_name t) = track_name t
       /\ forall c, In c (track_name t) -> mem c invalid_chars = false)
       (tracks d).
Proof.
  intros H. apply success_shape in H. destruct H as (Ha & Hf & F).
  split; [exact Ha|]. split; [exact Hf|].
  revert F. apply Forall_impl. intros t. apply sanitized_track_clean.
Qed.

Lemma success_tracks_are_sanitized_witness :
  Forall (fun t =>
       track_artist t = js "someartist"
       /\ sanitizeFilename (track_name t) = track_name t
       /\ forall c, In c (track_name t) -> mem c invalid_chars = false)
       mixed_profile_tracks.
Proof.
  apply (@success_tracks_are_sanitized reference_host mixed_profile_page
           (VStr (js "profile")) no_flag [Method 1]
           {| tracks := mixed_profile_tracks;
              artist := js "someartist";
              createArtistFolder := no_flag |}).
  reflexivity.
Defined.

(** ** More on the sanitizer *)

Lemma drop_while_nil (p : N -> bool) (s : jsstring) :
  drop_while p s = [] <-> forall c, In c s -> p c = true.
Proof.
  induction s as [|x s IH]; simpl; [split; [intros _ c [] | reflexivity]|].
  destruct (p x) eqn:E.
  - rewrite IH. split; [intros H c [<-|Hc]; auto | intros H c Hc; apply H; auto].
  - split; [discriminate|]. intros H. specialize (H x (or_introl eq_refl)). congruence.
Qed.

Lemma trim_nil (s : jsstring) :
  trim s = [] <-> forall c, In c s -> is_ws c = true.
Proof.
  rewrite trim_strip. split.
  - intros H. apply drop_while_nil.
    destruct (drop_while is_ws s) as [|y t] eqn:E; [reflexivity|].
    pose proof (head_drop_while s) as Hh. rewrite E in Hh. simpl in Hh.
    simpl in H. destruct (strip_end is_ws t); [rewrite Hh in H|]; discriminate.
  - intros H. apply drop_while_nil in H. rewrite H. reflexivity.
Qed.

Lemma squeeze_blank (s : jsstring) :
  forall b,
    (forall c, In c (squeeze b s) -> is_ws c = true)
    <-> (forall c, In c s -> is_ws c = true).
Proof.
  induction s as [|x s IH]; intros b; simpl; [tauto|].
  destruct (is_ws x) eqn:E.
  - destruct b; simpl.
    + rewrite IH. split; [intros H c [<-|Hc]; auto | intros H c Hc; apply H; auto].
    + split.
      * intros H c [<-|Hc]; [exact E|].
        apply (proj1 (IH true)); [|exact Hc]. intros c' Hc'. apply H. auto.
      * intros H c [<-|Hc]; [reflexivity|].
        apply (proj2 (IH true)) with (c := c); [|exact Hc].
        intros c' Hc'. apply H. auto.
  - simpl. split.
    + intros H. specialize (H x (or_introl eq_refl)). congruence.
    + intros H. specialize (H x (or_introl eq_refl)). congruence.
Qed.

Lemma squeeze_length (s : jsstring) :
  forall b, length (squeeze b s) <= length s.
Proof.
  induction s as [|x s IH]; intros b; simpl; [lia|].
  destruct (is_ws x); [destruct b|]; simpl;
    try (specialize (IH true); lia); specialize (IH false); lia.
Qed.

Lemma drop_while_length (p : N -> bool) (s : jsstring) :
  length (drop_while p s) <= length s.
Proof.
  induction s as [|x s IH]; simpl; [lia|]. destruct (p x); simpl; lia.
Qed.

(** X12. The sanitizer leaves a name as it is exactly when the name is
    clean: none of the nine characters, single spaces only, no whitespace at
    either end.  Its result is never longer than the name, and it is empty
    exactly when every character of the name is whitespace or one of the
    nine characters. *)
Theorem sanitizeFilename_fixed_points (x : jsstring) :
  (sanitizeFilename x = x <-> clean_name x)
  /\ length (sanitizeFilename x) <= length x
  /\ (sanitizeFilename x = [] <-> forall c, In c x -> removable c).
Proof.
  split; [|split].
  - split.
    + intros H. unfold clean_name. rewrite <- H. apply sanitizeFilename_shape.
    + intros (Hv & Hs & Hh & Hl). rewrite sanitizeFilename_direct.
      rewrite (filter_fixed _ _ Hv), (proj1 (squeeze_fixed _ Hs)).
      apply trim_fixed; assumption.
  - rewrite sanitizeFilename_direct. unfold trim.
    rewrite length_rev.
    eapply Nat.le_trans; [apply drop_while_length|]. rewrite length_rev.
    eapply Nat.le_trans; [apply drop_while_length|].
    eapply Nat.le_trans; [apply squeeze_length|]. apply filter_length_le.
  - rewrite sanitizeFilename_direct, trim_nil, squeeze_blank. unfold removable.
    split.
    + intros H c Hc. destruct (valid_char c) eqn:V.
      * left. apply H. apply filter_In. tauto.
      * right. apply negb_false_iff in V. exact V.
    + intros H c Hc. apply filter_In in Hc. destruct Hc as [Hc V].
      destruct (H c Hc) as [W|W]; [exact W|].
      unfold valid_char in V. rewrite W in V. discriminate.
Qed.

(** ** The address scan *)

(** The matcher finds a match whenever there is one that the continuation
    accepts. *)
Lemma m_complete r s c s' c' :
  matches r s c s' c' -> forall k, k s' c' <> None -> m r s c k <> None.
Proof.
  induction 1 as [s c|p x s c Hp|r1 r2 s c s1 c1 s2 c2 H1 IH1 H2 IH2
                 |r1 r2 s c s' c' H IH|r1 r2 s c s' c' H IH|g r s c
                 |g r s c s1 c1 s2 c2 H1 IH1 Hlt H2 IH2|i r s c s' c' H IH];
    intros k Hk.
  - exact Hk.
  - cbn [m]. rewrite Hp. exact Hk.
  - cbn [m]. apply IH1. apply IH2. exact Hk.
  - cbn [m]. pose proof (IH k Hk) as E.
    destruct (m r1 s c k); [discriminate | congruence].
  - cbn [m]. destruct (m r1 s c k); [discriminate|]. cbn [or_else]. apply IH, Hk.
  - rewrite star_unfold. cbv zeta.
    destruct g; [|destruct (k s c); [discriminate | congruence]].
    match goal with
    | [ |- or_else ?x _ <> None ] => destruct x; [discriminate | exact Hk]
    end.
  - rewrite star_unfold. cbv zeta.
    assert (Ha : m r s c (fun s' c' =>
                   if length s' <? length s then m (Star g r) s' c' k else None)
                 <> None).
    { apply IH1. apply Nat.ltb_lt in Hlt. rewrite Hlt. apply IH2, Hk. }
    destruct g.
    + match goal with
      | [ |- or_else ?x _ <> None ] => destruct x; [discriminate | congruence]
      end.
    + destruct (k s c); [discriminate|]. exact Ha.
  - cbn [m]. apply IH. exact Hk.
Qed.

Lemma matches_lit_intro (l s : jsstring) (c : captures) :
  matches (lit l) (l ++ s) c s c.
Proof.
  induction l as [|x l IH]; cbn [lit fold_right app]; [constructor|].
  eapply matches_seq; [apply matches_chr, N.eqb_refl | exact IH].
Qed.

Lemma matches_star_run (g : bool) (p : N -> bool) (run s : jsstring) (c : captures) :
  forallb p run = true -> matches (Star g (Chr p)) (run ++ s) c s c.
Proof.
  induction run as [|x run IH]; intros H; cbn [app]; [constructor|].
  cbn [forallb] in H. apply andb_prop in H. destruct H as [Hx Hr].
  eapply matches_star_step;
    [apply matches_chr; exact Hx | cbn [length]; lia | apply IH, Hr].
Qed.

Lemma matches_alt_inv r1 r2 s c s' c' :
  matches (Alt r1 r2) s c s' c' -> matches r1 s c s' c' \/ matches r2 s c s' c'.
Proof. intros H. inversion H; subst; tauto. Qed.

(** A greedy run of a class stops at the last place, among those it can
    reach, where the rest of the pattern goes through. *)
Lemma star_class_longest (p : N -> bool) (k : cont) :
  forall s c res,
    m (Star true (Chr p)) s c k = Some res ->
    exists t s',
      s = t ++ s' /\ forallb p t = true /\ k s' c = Some res
      /\ forall t2 s2,
           s = t2 ++ s2 -> forallb p t2 = true -> length t < length t2 ->
           k s2 c = None.
Proof.
  induction s as [|x s IH]; intros c res H; rewrite star_unfold in H;
    cbv beta iota zeta in H.
  - change (m (Chr p) [] c ?k') with (@None (jsstring * captures)) in H.
    cbn [or_else] in H. exists [], []. repeat split; try assumption.
    intros t2 s2 E _ Hl. destruct t2; [cbn in Hl; lia | discriminate].
  - change (m (Chr p) (x :: s) c ?k') with (if p x then k' s c else None) in H.
    cbv beta in H.
    assert (Hlt : (length s <? length (x :: s)) = true)
      by (apply Nat.ltb_lt; cbn [length]; lia).
    destruct (p x) eqn:Px.
    + rewrite Hlt in H.
      destruct (m (Star true (Chr p)) s c k) as [r1|] eqn:E; cbn [or_else] in H.
      * inversion H; subst r1. apply IH in E.
        destruct E as (t & s' & -> & Ft & Hk & Hmax).
        exists (x :: t), s'. split; [reflexivity|].
        split; [cbn [forallb]; rewrite Px, Ft; reflexivity|].
        split; [exact Hk|].
        intros t2 s2 E2 F2 Hl. destruct t2 as [|y t2]; [cbn in Hl; lia|].
        cbn [app] in E2. inversion E2; subst.
        cbn [forallb] in F2. apply andb_prop in F2.
        apply (Hmax t2 s2); [assumption | tauto | cbn [length] in Hl; lia].
      * exists [], (x :: s). repeat split; try assumption.
        intros t2 s2 E2 F2 Hl. destruct t2 as [|y t2]; [cbn in Hl; lia|].
        cbn [app] in E2. inversion E2; subst.
        cbn [forallb] in F2. apply andb_prop in F2. destruct F2 as [_ F2].
        destruct (k s2 c) as [r2|] eqn:K; [exfalso|reflexivity].
        apply (@m_complete _ _ _ _ _ (matches_star_run true p t2 s2 c F2) k);
          [rewrite K; discriminate | exact E].
    + cbn [or_else] in H. exists [], (x :: s). repeat split; try assumption.
      intros t2 s2 E2 F2 Hl. destruct t2 as [|y t2]; [cbn in Hl; lia|].
      cbn [app] in E2. inversion E2; subst.
      cbn [forallb] in F2. rewrite Px in F2. discriminate.
Qed.

Lemma address_class (c : N) :
  negb (mem c (js "`'") || is_ws c) = true <-> address_char c.
Proof.
  unfold address_char. rewrite negb_true_iff, orb_false_iff. tauto.
Qed.

Lemma address_run (run : jsstring) :
  forallb (fun c => negb (mem c (js "`'") || is_ws c)) run = true
  <-> Forall address_char run.
Proof.
  rewrite forallb_forall, Forall_forall.
  split; intros H x Hx; apply address_class, H, Hx.
Qed.

(** Every MP3 address is a match of the pattern, whatever follows it. *)
Lemma mp3_address_matches (t post : jsstring) :
  mp3_address t -> matches mp3_pattern (t ++ post) [] post [].
Proof.
  intros (secure & run & Hs & Hne & Hr & ->).
  rewrite <- !app_assoc. unfold mp3_pattern. cbn [seqs].
  eapply matches_seq; [apply matches_lit_intro|].
  eapply matches_seq.
  { unfold opt. destruct Hs as [->| ->].
    - apply matches_alt_right. cbn [app]. apply matches_eps.
    - apply matches_alt_left. apply matches_lit_intro. }
  eapply matches_seq; [apply matches_lit_intro|].
  eapply matches_seq; [|apply matches_lit_intro].
  destruct run as [|x run]; [congruence|].
  inversion Hr as [|? ? Hx Hrun]; subst.
  unfold plus. cbn [app].
  eapply matches_seq;
    [apply matches_chr; apply address_class; exact Hx
    |apply matches_star_run; apply address_run; exact Hrun].
Qed.

Lemma mp3_address_chars (t : jsstring) : mp3_address t -> Forall address_char t.
Proof.
  intros (secure & run & Hs & _ & Hr & ->).
  assert (Hlit : forall l,
            forallb (fun c => negb (mem c (js "`'") || is_ws c)) l = true ->
            Forall address_char l) by (intros l; apply address_run).
  repeat (apply Forall_app; split); try assumption; try (apply Hlit; reflexivity).
  destruct Hs as [->| ->]; [constructor | apply Hlit; reflexivity].
Qed.

Lemma mp3_address_length (secure run : jsstring) :
  length (js "http" ++ secure ++ js "://" ++ run ++ js ".mp3")
  = 11 + length secure + length run.
Proof.
  rewrite !length_app.
  change (length (js "http")) with 4. change (length (js "://")) with 3.
  change (length (js ".mp3")) with 4. lia.
Qed.

(** What the matcher returns for the pattern at one place is the longest
    MP3 address that starts there. *)
Lemma mp3_match_longest (s0 rest : jsstring) (c : captures) :
  match_at mp3_pattern s0 = Some (rest, c) ->
  exists mp3,
    s0 = mp3 ++ rest
    /\ mp3_address mp3
    /\ forall t post, s0 = t ++ post -> mp3_address t -> length t <= length mp3.
Proof.
  unfold match_at, mp3_pattern. cbn [seqs]. intros H.
  set (cls := fun c : N => negb (mem c (js "`'") || is_ws c)) in *.
  set (K := fun (s' : jsstring) (c : captures) => Some (s', c)) in *.
  change (m (lit (js "http")) s0 []
            (fun s1 c1 =>
               m (opt (lit (js "s"))) s1 c1
                 (fun s2 c2 =>
                    m (lit (js "://")) s2 c2
                      (fun s3 c3 =>
                         m (Chr cls) s3 c3
                           (fun s4 c4 =>
                              m (Star true (Chr cls)) s4 c4
                                (fun s5 c5 => m (lit (js ".mp3")) s5 c5 K)))))
          = Some (rest, c)) in H.
  apply m_sound in H. destruct H as (s1 & c1 & M1 & H).
  apply matches_lit in M1. destruct M1 as [-> ->].
  apply m_sound in H. destruct H as (s2 & c2 & M2 & H).
  apply m_sound in H. destruct H as (s3 & c3 & M3 & H).
  apply matches_lit in M3. destruct M3 as [-> ->].
  apply m_sound in H. destruct H as (s4 & c4 & M4 & H).
  inversion M4 as [|? x ? ? Hx| | | | | |]; subst.
  apply star_class_longest in H.
  destruct H as (run & s5 & -> & Hrun & H & Hmax).
  pose proof H as Hk. apply m_sound in H. destruct H as (s6 & c6 & M6 & H).
  apply matches_lit in M6. destruct M6 as [-> ->].
  inversion H; subst s6 c. clear H.
  assert (Hsec : exists secure,
            (secure = [] \/ secure = js "s")
            /\ s1 = secure ++ js "://" ++ (x :: run) ++ js ".mp3" ++ rest
            /\ c4 = []).
  { unfold opt in M2. apply matches_alt_inv in M2. destruct M2 as [M2|M2].
    - apply matches_lit in M2. destruct M2 as [-> ->].
      exists (js "s"). split; [tauto|]. split; reflexivity.
    - inversion M2; subst. exists []. split; [tauto|]. split; reflexivity. }
  destruct Hsec as (secure & Hs & -> & ->).
  exists (js "http" ++ secure ++ js "://" ++ (x :: run) ++ js ".mp3").
  split; [rewrite <- !app_assoc; reflexivity|]. split.
  { exists secure, (x :: run). split; [exact Hs|]. split; [discriminate|].
    split; [|reflexivity]. constructor; [apply address_class, Hx|].
    apply address_run, Hrun. }
  intros t post E (secure' & run' & Hs' & Hne' & Hr' & ->).
  rewrite !mp3_address_length. rewrite <- !app_assoc in E.
  apply app_inv_head in E.
  assert (Esec : secure' = secure
                 /\ run' ++ js ".mp3" ++ post = (x :: run) ++ js ".mp3" ++ rest).
  { destruct Hs as [->| ->]; destruct Hs' as [->| ->].
    - split; [reflexivity|]. cbn [app] in E. apply (app_inv_head (js "://")).
      symmetry. exact E.
    - apply (f_equal (hd 0%N)) in E. vm_compute in E. discriminate.
    - apply (f_equal (hd 0%N)) in E. vm_compute in E. discriminate.
    - split; [reflexivity|].
      apply (app_inv_head (js "s")) in E. apply (app_inv_head (js "://")).
      symmetry. exact E. }
  destruct Esec as [-> E2].
  destruct run' as [|y run']; [congruence|].
  cbn [app] in E2. inversion E2 as [[Ey E3]]. subst y.
  inversion Hr' as [|? ? _ Hrun']; subst.
  cbn [length].
  destruct (Nat.lt_ge_cases (length run) (length run')) as [Hl|Hl]; [|lia].
  exfalso.
  assert (Hnone : m (lit (js ".mp3")) (js ".mp3" ++ post) [] K = None).
  { apply (Hmax run' (js ".mp3" ++ post));
      [symmetry; exact E3 | apply address_run, Hrun' | exact Hl]. }
  apply (@m_complete _ _ _ _ _ (matches_lit_intro (js ".mp3") post []) K);
    [discriminate | exact Hnone].
Qed.

Lemma match_at_matches (r : regex) (s rest : jsstring) (c : captures) :
  match_at r s = Some (rest, c) -> matches r s [] rest c.
Proof.
  unfold match_at. intros E. apply m_sound in E.
  destruct E as (s' & c' & Hm & Hk). inversion Hk; subst. exact Hm.
Qed.

(** The first text that a global match returns is what the matcher finds
    at the first place of the text where it finds anything. *)
Lemma match_all_first (r : regex) :
  forall s x l,
    match_all_from r 0 s = x :: l ->
    exists pre s0 rest c,
      s = pre ++ s0
      /\ match_at r s0 = Some (rest, c)
      /\ x = firstn (length s0 - length rest) s0
      /\ forall pre1 s1,
           s = pre1 ++ s1 -> length pre1 < length pre -> match_at r s1 = None.
Proof.
  induction s as [|y s IH]; intros x l H; cbn [match_all_from] in H.
  - destruct (match_at r []) as [[rest c]|] eqn:E; [|discriminate].
    pose proof (matches_shorter (match_at_matches _ _ E)) as Hl.
    destruct rest; [|simpl in Hl; lia].
    inversion H; subst. exists [], [], [], c. repeat split; try assumption.
    intros pre1 s1 _ Hlt. cbn in Hlt. lia.
  - destruct (match_at r (y :: s)) as [[rest c]|] eqn:E.
    + inversion H; subst. exists [], (y :: s), rest, c.
      repeat split; try assumption.
      intros pre1 s1 _ Hlt. cbn in Hlt. lia.
    + destruct (IH _ _ H) as (pre & s0 & rest & c & -> & Hm & Hx & Hfirst).
      exists (y :: pre), s0, rest, c. repeat split; try assumption.
      intros pre1 s1 E1 Hlt. destruct pre1 as [|z pre1].
      * cbn [app] in E1. subst s1. exact E.
      * cbn [app] in E1. inversion E1; subst.
        apply (Hfirst pre1 s1); [assumption | cbn [length] in Hlt; lia].
Qed.

Lemma app_same_length {A} (a a' b b' : list A) :
  a ++ b = a' ++ b' -> length a = length a' -> a = a' /\ b = b'.
Proof.
  revert a'. induction a as [|x a IH]; intros [|y a'] E Hl; try discriminate.
  - tauto.
  - cbn [app] in E. inversion E; subst. cbn [length] in Hl.
    destruct (IH a') as [-> ->]; [assumption | lia | tauto].
Qed.

(** X13. When the fourth method of the single path returns a descriptor,
    the address holds the track marker followed by a digit, the name is not
    empty, and the source is the first MP3 address of the page with the
    first occurrence of the base taken out.  The first MP3 address: the
    scheme with or without its [s], a non-empty run without quote or
    whitespace and the extension, at a place of the page such that every
    such address of the page starts later, or starts at the same place and
    is not longer.  When it does not hold the base, the source is the whole
    address. *)
Theorem address_scan_descriptor (d : document) (realUrl html base : jsstring)
  (info : track_info) :
  single_method4 d realUrl html base = Some info ->
  (exists pre c rest,
     realUrl = pre ++ js "/t/" ++ c :: rest /\ is_digit c = true)
  /\ exists n before mp3 after,
       info = {| name := VStr n; src := VStr (remove_first base mp3) |}
       /\ n <> []
       /\ html = before ++ mp3 ++ after
       /\ mp3_address mp3
       /\ Forall address_char mp3
       /\ (forall before' t after',
             html = before' ++ t ++ after' -> mp3_address t ->
             length before < length before'
             \/ (length before = length before' /\ length t <= length mp3))
       /\ (includes mp3 base = false -> src info = VStr mp3).
Proof.
  unfold single_method4. intros H.
  destruct (search track_id_pattern realUrl) as [mt|] eqn:Es; [|discriminate].
  destruct (match_all mp3_pattern html) as [[|mp3 l]|] eqn:Em; try discriminate.
  split.
  - apply search_from_matches in Es.
    destruct Es as (pre & s0 & s' & -> & Hm & _ & _).
    unfold track_id_pattern in Hm. cbn [seqs] in Hm.
    apply matches_seq_inv in Hm. destruct Hm as (s1 & c1 & H1 & Hm).
    apply matches_lit in H1. destruct H1 as [-> ->].
    inversion Hm as [| | | | | | |i r1 s2 c2 s3 c3 Hg]; subst.
    unfold plus in Hg. apply matches_seq_inv in Hg.
    destruct Hg as (s4 & c4 & Hc & _). inversion Hc; subst.
    eexists pre, _, _. split; [reflexivity | assumption].
  - unfold match_all in Em.
    destruct (match_all_from mp3_pattern 0 html) as [|x l'] eqn:Ea; [discriminate|].
    inversion Em; subst x l'.
    apply match_all_first in Ea.
    destruct Ea as (before & s0 & after & c & -> & Hm & -> & Hfirst).
    apply mp3_match_longest in Hm.
    destruct Hm as (mp3 & -> & Ha & Hlong).
    rewrite firstn_consumed in H. injection H as <-.
    set (first := hd [] (split_on (js " - ") (title d))).
    exists (if is_empty first then js "Track " ++ group_text 1 mt else first),
      before, mp3, after.
    split; [reflexivity|].
    split; [|split; [reflexivity|split; [exact Ha|split;
      [apply mp3_address_chars, Ha|split]]]].
    + destruct first; cbn [is_empty]; [|discriminate].
      intros Hn. apply (f_equal (@length N)) in Hn.
      rewrite length_app in Hn. simpl in Hn. lia.
    + intros before' t after' E Ht.
      destruct (Nat.lt_trichotomy (length before') (length before)) as [Hl|[Hl|Hl]].
      * exfalso. pose proof (Hfirst before' (t ++ after') E Hl) as Hnone.
        apply (@m_complete _ _ _ _ _ (mp3_address_matches after' Ht)
                 (fun s' c => Some (s', c)));
          [discriminate | exact Hnone].
      * right. split; [lia|].
        destruct (app_same_length _ _ _ _ E (eq_sym Hl)) as [_ E'].
        apply (Hlong t after'); [exact E' | exact Ht].
      * left. exact Hl.
    + cbn [src]. intros Hi. unfold remove_first. unfold includes in Hi.
      destruct (split_first base mp3) as [[? ?]|]; [discriminate | reflexivity].
Qed.

Lemma address_scan_descriptor_witness :
  (exists pre c rest,
     js "https://traktrain.com/t/42" = pre ++ js "/t/" ++ c :: rest
     /\ is_digit c = true)
  /\ exists n before mp3 after,
       {| name := VStr (js "Song"); src := VStr (js "a.mp3") |}
       = {| name := VStr n;
            src := VStr (remove_first (js "https://cdn.example/") mp3) |}
       /\ n <> []
       /\ js "<a href='https://cdn.example/a.mp3'><a href='http://b.example/b.mp3'>"
          = before ++ mp3 ++ after
       /\ mp3_address mp3
       /\ Forall address_char mp3
       /\ (forall before' t after',
             js "<a href='https://cdn.example/a.mp3'><a href='http://b.example/b.mp3'>"
             = before' ++ t ++ after' ->
             mp3_address t ->
             length before < length before'
             \/ (length before = length before' /\ length t <= length mp3))
       /\ (includes mp3 (js "https://cdn.example/") = false ->
           src {| name := VStr (js "Song"); src := VStr (js "a.mp3") |} = VStr mp3).
Proof.
  apply (@address_scan_descriptor (doc titled_audio_page)
           (js "https://traktrain.com/t/42")
           (js "<a href='https://cdn.example/a.mp3'><a href='http://b.example/b.mp3'>")
           (js "https://cdn.example/")
           {| name := VStr (js "Song"); src := VStr (js "a.mp3") |}).
  vm_compute. reflexivity.
Defined.

(** ** The background script *)

Lemma all_methods_failed_cons (t : track) (reason : jsstring) :
  exists rest, all_methods_failed t reason = 65%N :: rest.
Proof. eexists. reflexivity. Qed.

Lemma stealth_shape (b : Browser) (i : nat) (t : track) (filename : jsstring)
  (calls : list call) (r : download_result) :
  tryContentScriptDownload b i t filename = (calls, r) ->
  Forall (fun c => is_download c = false) calls
  /\ In QueryTabs calls
  /\ (r = Started (content_script_started t) None
      \/ exists reason,
           r = NotStarted (all_methods_failed t reason)
           /\ stealth_reason b i t filename reason).
Proof.
  unfold tryContentScriptDownload, stealth_reason. intros H.
  destruct (tabs_query b i) as [[|tab tabs]|message] eqn:Q.
  - inversion H; subst. split; [repeat constructor|]. split; [left; reflexivity|].
    right. exists no_active_tab. split; [reflexivity | tauto].
  - destruct (scripting_executeScript b i tab (url t) filename)
      as [result|message] eqn:X.
    + destruct (script_succeeded result); inversion H; subst;
        (split; [repeat constructor|]); (split; [left; reflexivity|]).
      * left. reflexivity.
      * right. exists content_script_failed. split; [reflexivity | tauto].
    + inversion H; subst. split; [repeat constructor|]. split; [left; reflexivity|].
      right. exists message. split; [reflexivity|]. right. right. right. eauto.
  - inversion H; subst. split; [repeat constructor|]. split; [left; reflexivity|].
    right. exists message. split; [reflexivity | tauto].
Qed.

(** X14. The download through the page never touches the downloads API, and
    runs the injected function only in the first tab the query returned, on
    the address of the track.  It either reports the start of the download
    or fails with an error that names the track and gives the reason: no
    active tab, a result of the injected function without a true success at
    its first place, or the message the browser rejected a call with. *)
Theorem stealth_download_outcome (b : Browser) (i : nat) (t : track)
  (filename : jsstring) :
  let calls := fst (tryContentScriptDownload b i t filename) in
  let r := snd (tryContentScriptDownload b i t filename) in
  Forall (fun c => is_download c = false) calls
  /\ (forall tab u f, In (ExecuteScript tab u f) calls ->
        u = url t /\ f = filename
        /\ exists tabs, tabs_query b i = Resolved (tab :: tabs))
  /\ (r = Started (content_script_started t) None
      \/ exists reason,
           r = NotStarted (all_methods_failed t reason)
           /\ stealth_reason b i t filename reason)
  /\ (result_success r = true <->
      exists tab tabs result,
        tabs_query b i = Resolved (tab :: tabs)
        /\ scripting_executeScript b i tab (url t) filename = Resolved result
        /\ script_succeeded result = true).
Proof.
  cbv zeta.
  destruct (tryContentScriptDownload b i t filename) as [calls r] eqn:E.
  destruct (stealth_shape _ _ _ _ E) as (Hd & _ & Hr). cbn [fst snd].
  split; [exact Hd|]. split; [|split; [exact Hr|]].
  - unfold tryContentScriptDownload in E. intros tab u f Hin.
    destruct (tabs_query b i) as [[|tab' tabs]|message] eqn:Q.
    + inversion E; subst. destruct Hin as [Hc|[]]. discriminate.
    + assert (Hc : calls = [QueryTabs; ExecuteScript tab' (url t) filename]).
      { destruct (scripting_executeScript b i tab' (url t) filename) as [result|m];
          [destruct (script_succeeded result)|]; inversion E; reflexivity. }
      subst calls. destruct Hin as [Hc|[Hc|[]]]; [discriminate|].
      inversion Hc; subst. eauto.
    + inversion E; subst. destruct Hin as [Hc|[]]. discriminate.
  - unfold tryContentScriptDownload in E.
    destruct (tabs_query b i) as [[|tab' tabs]|message] eqn:Q.
    + inversion E; subst. split; [discriminate|].
      intros (? & ? & ? & Hq & _). discriminate.
    + destruct (scripting_executeScript b i tab' (url t) filename)
        as [result|m] eqn:X.
      * destruct (script_succeeded result) eqn:S; inversion E; subst.
        -- split; [|reflexivity]. intros _. exists tab', tabs, result. tauto.
        -- split; [discriminate|]. intros (tab & tabs0 & res & Hq & Hx & Hs).
           inversion Hq; subst. rewrite X in Hx. inversion Hx; subst. congruence.
      * inversion E; subst. split; [discriminate|].
        intros (tab & tabs0 & res & Hq & Hx & _).
        inversion Hq; subst. rewrite X in Hx. discriminate.
    + inversion E; subst. split; [discriminate|].
      intros (? & ? & ? & Hq & _). discriminate.
Qed.

Lemma single_download_shape (b : Browser) (t : track) (a : jsstring) (flag : value)
  (calls : list call) (r : download_result) :
  downloadSingleTrack b t a flag = (calls, r) ->
  (exists m id, r = Started m id)
  \/ exists reason, r = NotStarted (all_methods_failed t reason).
Proof.
  unfold downloadSingleTrack. intros H.
  destruct (downloads_download b _) as [id|m1]; [inversion H; subst; eauto|].
  destruct (downloads_download b _) as [id|m2]; [inversion H; subst; eauto|].
  destruct (tryContentScriptDownload b 0 t (filename_of a flag t)) as [cs r'] eqn:E.
  inversion H; subst.
  destruct (stealth_shape _ _ _ _ E) as (_ & _ & [->|(reason & -> & _)]); eauto.
Qed.

(** X15. A single download asks the downloads API first, with the address
    of the track and the filename, then once more with the referer header
    alone, and goes through the page only when both calls were rejected.
    A download id in the result is the one the browser gave to one of the
    two calls, and it is the only one that is monitored. *)
Theorem single_download_order (b : Browser) (t : track) (a : jsstring) (flag : value) :
  let filename := filename_of a flag t in
  let direct := download_attempt t filename direct_headers in
  let fallback := download_attempt t filename fallback_headers in
  let calls := fst (downloadSingleTrack b t a flag) in
  let r := snd (downloadSingleTrack b t a flag) in
  (exists rest,
     calls = Download direct :: rest
     /\ forall o, In (Download o) rest ->
          o = fallback /\ exists m, downloads_download b direct = Rejected m)
  /\ (In QueryTabs calls ->
      exists m1 m2,
        downloads_download b direct = Rejected m1
        /\ downloads_download b fallback = Rejected m2
        /\ calls = Download direct :: Download fallback
                   :: fst (tryContentScriptDownload b 0 t filename)
        /\ r = snd (tryContentScriptDownload b 0 t filename))
  /\ (forall id, In (Monitor id) calls <-> exists m, r = Started m (Some id))
  /\ (forall m id, r = Started m (Some id) ->
        downloads_download b direct = Resolved id
        \/ downloads_download b fallback = Resolved id).
Proof.
  cbv zeta. unfold downloadSingleTrack, download_attempt.
  set (filename := filename_of a flag t).
  set (direct := {| options_url := url t; options_filename := filename;
                    options_headers := direct_headers; saveAs := false |}).
  set (fallback := {| options_url := url t; options_filename := filename;
                      options_headers := fallback_headers; saveAs := false |}).
  destruct (downloads_download b direct) as [id|m1] eqn:D1.
  { cbn [fst snd]. split; [|split; [|split]].
    - eexists. split; [reflexivity|]. intros o [Hc|[]]. discriminate.
    - intros [Hc|[Hc|[]]]; discriminate.
    - intros id'. split.
      + intros [Hc|[Hc|[]]]; [discriminate|]. inversion Hc; subst. eauto.
      + intros (m & Hm). inversion Hm; subst. right. left. reflexivity.
    - intros m id' Hm. inversion Hm; subst. left. reflexivity. }
  destruct (downloads_download b fallback) as [id|m2] eqn:D2.
  { cbn [fst snd]. split; [|split; [|split]].
    - eexists. split; [reflexivity|]. intros o [Hc|[Hc|[]]]; [|discriminate].
      inversion Hc; subst. eauto.
    - intros [Hc|[Hc|[Hc|[]]]]; discriminate.
    - intros id'. split.
      + intros [Hc|[Hc|[Hc|[]]]]; try discriminate. inversion Hc; subst. eauto.
      + intros (m & Hm). inversion Hm; subst. right. right. left. reflexivity.
    - intros m id' Hm. inversion Hm; subst. right. reflexivity. }
  destruct (tryContentScriptDownload b 0 t filename) as [cs r] eqn:E.
  destruct (stealth_shape _ _ _ _ E) as (Hd & _ & Hr). cbn [fst snd].
  rewrite Forall_forall in Hd.
  split; [|split; [|split]].
  - eexists. split; [reflexivity|]. intros o [Hc|Hc].
    + inversion Hc; subst. eauto.
    + apply Hd in Hc. discriminate.
  - intros _. exists m1, m2. tauto.
  - intros id'. split.
    + intros [Hc|[Hc|Hc]]; try discriminate. apply Hd in Hc. discriminate.
    + intros (m & Hm). destruct Hr as [->|(reason & -> & _)]; discriminate.
  - intros m id' Hm. destruct Hr as [->|(reason & -> & _)]; discriminate.
Qed.

Lemma settle_shape (b : Browser) (a : jsstring) (flag : value) (i : nat) (t : track) :
  Forall (fun c => is_download c = false) (fst (settle b a flag i t))
  /\ settled_for t (snd (settle b a flag i t)).
Proof.
  unfold settle, settled_for.
  destruct (tryContentScriptDownload b i t (filename_of a flag t)) as [cs r] eqn:E.
  destruct (stealth_shape _ _ _ _ E) as (Hd & _ & Hr). cbn [fst snd].
  split; [exact Hd|].
  destruct Hr as [->|(reason & -> & _)]; cbn [result_success result_message result_error].
  - left. reflexivity.
  - right. exists reason.
    destruct (all_methods_failed_cons t reason) as (rest & ->). reflexivity.
Qed.

Lemma settle_all_shape (b : Browser) (a : jsstring) (flag : value) (ts : list track) :
  forall i,
    Forall2 settled_for ts (map snd (settle_all b a flag i ts))
    /\ Forall (Forall (fun c => is_download c = false))
         (map fst (settle_all b a flag i ts))
    /\ length (map fst (settle_all b a flag i ts)) = length ts.
Proof.
  induction ts as [|t ts IH]; intros i; cbn [settle_all map length].
  - split; [constructor|]. split; [constructor | reflexivity].
  - destruct (IH (S i)) as (F2 & Fd & Hl).
    destruct (settle_shape b a flag i t) as (Hd & Hs).
    split; [constructor; assumption|]. split; [constructor; assumption|].
    rewrite Hl. reflexivity.
Qed.

Lemma settled_partition (ts : list track) (results : list settled) :
  Forall2 settled_for ts results ->
  length (filter fulfilled_with_success results)
  + length (filter is_rejected results) = length ts.
Proof.
  induction 1 as [|t x ts results Hx F IH]; [reflexivity|].
  cbn [filter length].
  destruct Hx as [->|(reason & ->)]; cbn [fulfilled_with_success is_rejected length]; lia.
Qed.

(** X16. A batch settles one promise per track, in the order of the tracks:
    fulfilled with the name of the track, or rejected with the error of the
    download through the page, never with the stand-in wording.  The two
    counts of the report add up to the number of tracks, the report
    succeeds exactly when some track was fulfilled, a batch of no tracks
    fails, and no track of a batch goes through the downloads API. *)
Theorem batch_counts (b : Browser) (ts : list track) (a : jsstring) (flag : value) :
  exists results,
    let successful := length (filter fulfilled_with_success results) in
    let failed := length (filter is_rejected results) in
    snd (downloadMultipleTracks b ts a flag)
    = Batch (0 <? successful) (batch_message successful failed) results
    /\ Forall2 settled_for ts results
    /\ successful + failed = length ts
    /\ ((0 <? successful) = true <-> exists n m, In (Fulfilled true n m) results)
    /\ (ts = [] ->
        snd (downloadMultipleTracks b ts a flag)
        = Batch false (js "Downloaded 0 tracks") [])
    /\ ~ In (RejectedBecause stealth_failed) results
    /\ length (fst (downloadMultipleTracks b ts a flag)) = length ts
    /\ Forall (Forall (fun c => is_download c = false))
         (fst (downloadMultipleTracks b ts a flag)).
Proof.
  unfold downloadMultipleTracks. cbn [fst snd].
  destruct (settle_all_shape b a flag ts 0) as (F2 & Fd & Hl).
  exists (map snd (settle_all b a flag 0 ts)). cbv zeta.
  set (results := map snd (settle_all b a flag 0 ts)) in *.
  split; [reflexivity|]. split; [exact F2|].
  split; [apply settled_partition, F2|].
  split; [|split; [|split; [|split; [exact Hl | exact Fd]]]].
  - rewrite Nat.ltb_lt. split.
    + intros Hp. destruct (filter fulfilled_with_success results) as [|x l] eqn:E;
        [simpl in Hp; lia|].
      assert (Hin : In x (filter fulfilled_with_success results))
        by (rewrite E; left; reflexivity).
      apply filter_In in Hin. destruct Hin as [Hin Hx].
      destruct x as [s n m|]; [|discriminate]. simpl in Hx. subst s. eauto.
    + intros (n & m & Hin).
      assert (Hf : In (Fulfilled true n m) (filter fulfilled_with_success results))
        by (apply filter_In; split; [exact Hin | reflexivity]).
      destruct (filter fulfilled_with_success results); [destruct Hf | simpl; lia].
  - intros ->. reflexivity.
  - intros Hin. clear Fd Hl. induction F2 as [|t x ts' rs Hx F IH]; [destruct Hin|].
    destruct Hin as [Hc|Hin]; [|exact (IH Hin)].
    destruct Hx as [->|(reason & ->)]; [discriminate|].
    destruct (all_methods_failed_cons t reason) as (rest & E).
    rewrite E in Hc. discriminate.
Qed.

(** ** From the page to the download *)

Lemma no_separator_name (n : jsstring) :
  (forall c, In c n -> mem c invalid_chars = false) ->
  Forall no_separator (n ++ js ".mp3").
Proof.
  intros H. apply Forall_app. split.
  - apply Forall_forall. intros c Hc. specialize (H c Hc).
    split; intros ->; discriminate.
  - repeat constructor; discriminate.
Qed.

(** X17. The filename built for a track of a success envelope: without the
    artist folder it is the sanitized name and the extension and holds no
    path separator; with the folder it is the artist, one slash, and that
    same flat rest. *)
Theorem download_filenames_are_flat (h : Host) (w : window) (type flag : value)
  (events : list event) (d : data) (t : track) (folder : value) :
  handleDataExtraction h w type flag = (events, Return (Success d)) ->
  In t (tracks d) ->
  Forall no_separator (track_name t ++ js ".mp3")
  /\ (truthy folder = false ->
      Forall no_separator (filename_of (artist d) folder t))
  /\ (truthy folder = true ->
      filename_of (artist d) folder t
      = artist d ++ js "/" ++ track_name t ++ js ".mp3").
Proof.
  intros H Hin. apply success_shape in H. destruct H as (_ & _ & F).
  rewrite Forall_forall in F. specialize (F t Hin).
  apply sanitized_track_clean in F. destruct F as (_ & _ & Hc).
  pose proof (no_separator_name _ Hc) as Hn.
  split; [exact Hn|]. unfold filename_of.
  split; intros ->; [exact Hn | reflexivity].
Qed.

Lemma download_filenames_are_flat_witness :
  Forall no_separator (js "Second.mp3").
Proof.
  apply (@download_filenames_are_flat reference_host mixed_profile_page
           (VStr (js "profile")) no_flag [Method 1]
           {| tracks := mixed_profile_tracks;
              artist := js "someartist";
              createArtistFolder := no_flag |}
           {| track_name := js "Second";
              url := js "https://cdn.example.com/a/2.mp3";
              track_artist := js "someartist" |}
           (VBool false)).
  - reflexivity.
  - right. left. reflexivity.
  - reflexivity.
Defined.

(** ** The popup *)

Lemma success_tracks_count (h : Host) (w : window) (type flag : value)
  (events : list event) (d : data) :
  handleDataExtraction h w type flag = (events, Return (Success d)) ->
  tracks d <> []
  /\ (is_string type (js "single") = true -> exists t, tracks d = [t]).
Proof.
  unfold handleDataExtraction. intros H. apply try_catch_success in H.
  unfold dispatch in H.
  destruct (is_string type (js "single")).
  - apply single_success in H.
    destruct H as (base & realUrl & info & rest & sanitized & _ & _ & _ & _ & ->).
    cbn [tracks]. split; [discriminate | eauto].
  - destruct (is_string type (js "profile")); [|discriminate].
    unfold extractProfileBeats in H.
    destruct (extractArtistFromUrl h (location_href w)) as [a|]; [|discriminate].
    destruct (falsy (Some a)); [discriminate|].
    destruct (falsy (extractAwsBaseUrl (outerHTML (doc w)))); [discriminate|].
    unfold bind at 1 in H.
    destruct (locate_profile h (doc w) (outerHTML (doc w)) _ a)
      as [t1 [found|e]]; [|discriminate].
    destruct found as [|x found]; [discriminate|]. inversion H; subst.
    cbn [tracks]. split; discriminate.
Qed.

(** X18. What a click shows when the content script runs in the tab.  If
    the extraction fails, one status with its error.  Otherwise the number
    of tracks found (one for the single type, at least one always), and
    then either the start of the download, or for one track the error that
    names the track and the reason, or for several tracks a failure whose
    text ends in the word undefined, the batch report having no error. *)
Theorem click_statuses (h : Host) (b : Browser) (w : window) (kind : jsstring)
  (checked : bool) :
  let shown := handleDownload h b (Some w) kind checked in
  (exists message, shown = [extraction_failed message])
  \/ exists n,
       1 <= n
       /\ (str_eqb kind (js "single") = true -> n = 1)
       /\ (shown = [found_tracks n; started_tracks n]
           \/ (n = 1
               /\ exists t reason,
                    shown = [found_tracks 1;
                             download_failed (Some (all_methods_failed t reason))])
           \/ (2 <= n
               /\ map status_text shown
                  = [status_text (found_tracks n);
                     js "Download failed: undefined"])).
Proof.
  cbv zeta. unfold handleDownload, listener.
  cbn [action type request_createArtistFolder].
  change (is_string (VStr (js "extractData")) (js "extractData")) with true.
  cbv beta iota.
  destruct (handleDataExtraction h w (VStr kind) (VBool checked))
    as [events [[d|error]|e]] eqn:E.
  - destruct (success_tracks_count _ _ _ _ E) as (Hne & Hone).
    right. exists (length (tracks d)).
    unfold background_listener, handleDownloadTracks.
    cbn [download_action download_data download_createArtistFolder].
    change (is_string (VStr (js "downloadTracks")) (js "downloadTracks")) with true.
    cbv beta iota.
    destruct (tracks d) as [|t [|t2 rest]] eqn:T.
    + congruence.
    + cbn [length]. split; [lia|]. split; [reflexivity|].
      destruct (downloadSingleTrack b t (artist d) (VBool checked)) as [calls r] eqn:D.
      cbn [snd]. apply single_download_shape in D.
      destruct D as [(m & id & ->)|(reason & ->)]; cbn [result_success result_error].
      * left. reflexivity.
      * right. left. split; [reflexivity|]. eauto.
    + cbn [length]. split; [lia|]. split.
      * intros S. cbn [is_string] in Hone. destruct (Hone S) as (x & Hx). discriminate.
      * unfold downloadMultipleTracks. cbn [snd result_success result_error].
        destruct (0 <? _).
        -- left. reflexivity.
        -- right. right. split; [lia | reflexivity].
  - left. eauto.
  - left. eauto.
Qed.

(** The three outcomes of a click that finds tracks, on the profile page
    with three tracks and on the page with one. *)
Example click_on_profile_refused :
  map status_text
    (handleDownload reference_host refusing_browser (Some mixed_profile_page)
       (js "profile") false)
  = [js "Found 3 tracks. Starting download..."; js "Download failed: undefined"].
Proof. vm_compute. reflexivity. Qed.

Example click_on_profile_started :
  map status_text
    (handleDownload reference_host willing_browser (Some mixed_profile_page)
       (js "profile") true)
  = [js "Found 3 tracks. Starting download...";
     js "Successfully started download of 3 tracks!"].
Proof. vm_compute. reflexivity. Qed.

Example click_on_single_refused :
  map status_text
    (handleDownload reference_host refusing_browser (Some titled_audio_page)
       (js "single") false)
  = [js "Found 1 track. Starting download...";
     js "Download failed: All download methods failed for Song: No active tab found"].
Proof. vm_compute. reflexivity. Qed.
